(** * Redux: a shallow embedding of the store engine and its helpers

    The development follows the layout of the sources:
    - [JS]              the fragment of the JavaScript data model the code relies on
    - [IsPlainObject]   src/utils/isPlainObject.js
    - [Compose]         src/compose.js
    - [ActionTypes]     src/utils/actionTypes.js
    - [CombineReducers] src/combineReducers.js
    - [CreateStore]     src/createStore.js
    - [Observable]      src/createStore.js, the observable adapter
    - [BindActionCreators] src/bindActionCreators.js
    - [ApplyMiddleware] src/applyMiddleware.js *)

From Stdlib Require Import String Ascii List Bool Arith NArith Lia.
From Stdlib Require Import Sorting.Sorted.
From Stdlib Require Import Floats.PrimFloat Floats.SpecFloat Floats.FloatOps.
From Stdlib Require Floats.FloatAxioms.
From stdpp Require Import base option list strings.

Local Open Scope string_scope.
Local Open Scope list_scope.
Local Set Warnings "-register-all".

(** ** The JavaScript values the library manipulates *)

Module JS.

(** Objects are immutable records carrying the identity the runtime gave
    them when they were created: Redux never updates a state or an action in
    place, it only compares them by reference.  A function is an object with
    a call slot; its behaviour is looked up by identity where it is called.
    The prototype slot holds [null] ([None]) or an object, so every
    prototype chain is finite, as it is in the runtime.  The property list
    holds the properties [Object.keys] lists, in its order: data properties
    that were assigned, and can be again.  Of the properties that are not
    listed, the embedding knows the members of [Object.prototype], and that
    a function has a [name] and a [length] that cannot be assigned; it
    does not know what these two hold, nor the unlisted properties of
    other builtin objects. *)
Inductive value : Type :=
| VUndefined
| VNull
| VBool (b : bool)
| VNumber (x : float)
| VString (s : string)
| VObject (o : object)
with object : Type :=
| Obj (id : nat) (callable : bool) (proto : option object)
      (props : list (string * value)).

Definition obj_id (o : object) : nat := let 'Obj i _ _ _ := o in i.
Definition obj_callable (o : object) : bool := let 'Obj _ c _ _ := o in c.
Definition obj_proto (o : object) : option object := let 'Obj _ _ p _ := o in p.
Definition obj_props (o : object) : list (string * value) :=
  let 'Obj _ _ _ ps := o in ps.

(** What a call produces: a value, or the exception it raised. *)
Inductive exn : Type :=
| Error (message : string)
| TypeError (message : string)
| Thrown (v : value).

Inductive result (A : Type) : Type :=
| Ok (a : A)
| Throw (e : exn).
Arguments Ok {A} a.
Arguments Throw {A} e.

#[export] Instance result_ret : MRet result := fun A a => Ok a.
#[export] Instance result_bind : MBind result := fun A B f r =>
  match r with
  | Ok a => f a
  | Throw e => Throw e
  end.

(** [typeof v] *)
Definition typeof (v : value) : string :=
  match v with
  | VUndefined => "undefined"
  | VNull => "object"
  | VBool _ => "boolean"
  | VNumber _ => "number"
  | VString _ => "string"
  | VObject o => if obj_callable o then "function" else "object"
  end.

(** [a === b]: numbers by IEEE equality (so [NaN !== NaN]), objects by
    identity. *)
Definition strict_eq (a b : value) : bool :=
  match a, b with
  | VUndefined, VUndefined => true
  | VNull, VNull => true
  | VBool x, VBool y => Bool.eqb x y
  | VNumber x, VNumber y => PrimFloat.eqb x y
  | VString x, VString y => String.eqb x y
  | VObject x, VObject y => Nat.eqb (obj_id x) (obj_id y)
  | _, _ => false
  end.

(** [typeof v === 'undefined'] *)
Definition is_undefined (v : value) : bool :=
  String.eqb (typeof v) "undefined".

(** [typeof v === 'function'] *)
Definition is_function (v : value) : bool :=
  String.eqb (typeof v) "function".

(** ToBoolean, as [&&], [||] and [if] apply it. *)
Definition truthy (v : value) : bool :=
  match v with
  | VUndefined | VNull => false
  | VBool b => b
  | VNumber x => negb (PrimFloat.eqb x PrimFloat.zero || PrimFloat.is_nan x)
  | VString s => negb (String.eqb s "")
  | VObject _ => true
  end.

(** [Object.getPrototypeOf(o)] for an object [o]. *)
Definition getPrototypeOf (o : object) : value :=
  match obj_proto o with
  | None => VNull
  | Some p => VObject p
  end.

(** Own data property lookup. *)
Fixpoint assoc {A : Type} (key : string) (ps : list (string * A)) : option A :=
  match ps with
  | [] => None
  | (k, v) :: rest => if String.eqb k key then Some v else assoc key rest
  end.

(** [Object.keys(o)] for an object [o]. *)
Definition keys (o : object) : list string := map fst (obj_props o).

(** *** The order of the keys

    [Object.keys] and [for ... in] list the own keys that are array
    indices first, in ascending order, and then the other keys in the order
    they were added.  An array index is the canonical decimal numeral of an
    integer below 2^32 - 1. *)
Definition digit (c : ascii) : option N :=
  let n := N_of_ascii c in
  if (48 <=? n)%N && (n <=? 57)%N then Some (n - 48)%N else None.

Fixpoint numeral (s : string) (acc : N) : option N :=
  match s with
  | EmptyString => Some acc
  | String c rest =>
      match digit c with
      | Some d => numeral rest (10 * acc + d)%N
      | None => None
      end
  end.

Definition array_index (key : string) : option N :=
  match key with
  | EmptyString => None
  | String c rest =>
      if Ascii.eqb c "0" then
        match rest with EmptyString => Some 0%N | _ => None end
      else
        match numeral key 0 with
        | Some n => if (n <? 4294967295)%N then Some n else None
        | None => None
        end
  end.

Definition is_index (key : string) : bool :=
  match array_index key with
  | Some _ => true
  | None => false
  end.

(** [key], added after [k], is listed before it. *)
Definition precedes (key k : string) : bool :=
  match array_index key, array_index k with
  | Some i, Some j => (i <? j)%N
  | Some _, None => true
  | None, _ => false
  end.

(** A list of keys in the order the runtime lists them. *)
Definition key_order (ks : list string) : Prop :=
  StronglySorted (fun a b => precedes b a = false) ks.

(** A new property takes its place in the order of the keys. *)
Fixpoint define_key {A : Type} (key : string) (v : A) (ps : list (string * A))
  : list (string * A) :=
  match ps with
  | [] => [(key, v)]
  | (k, w) :: rest =>
      if precedes key k then (key, v) :: (k, w) :: rest
      else (k, w) :: define_key key v rest
  end.

(** An existing property keeps its place. *)
Fixpoint overwrite_key {A : Type} (key : string) (v : A)
    (ps : list (string * A)) : list (string * A) :=
  match ps with
  | [] => []
  | (k, w) :: rest =>
      if String.eqb k key then (k, v) :: rest
      else (k, w) :: overwrite_key key v rest
  end.

(** [o[key] = v] on a property list. *)
Definition set {A : Type} (key : string) (v : A) (ps : list (string * A))
  : list (string * A) :=
  match assoc key ps with
  | Some _ => overwrite_key key v ps
  | None => define_key key v ps
  end.

(** The double quote, for the messages that quote a key. *)
Definition dq : string := String "034"%char EmptyString.

(** *** [Object.prototype]

    Identity 0, no prototype.  Its members are not enumerable, so they are
    not in its property list: the methods below, which are functions of the
    runtime with identities of their own, and the accessor [__proto__]. *)
Definition Object_prototype : object := Obj 0 false None [].

Definition Function_prototype : object :=
  Obj 1 true (Some Object_prototype) [].

(** A function of the runtime. *)
Definition builtin (id : nat) : value :=
  VObject (Obj id true (Some Function_prototype) []).

Definition Object_hasOwnProperty : value := builtin 101.

Definition Object_prototype_methods : list (string * value) :=
  [("constructor", builtin 100);
   ("hasOwnProperty", Object_hasOwnProperty);
   ("isPrototypeOf", builtin 102);
   ("propertyIsEnumerable", builtin 103);
   ("toLocaleString", builtin 104);
   ("toString", builtin 105);
   ("valueOf", builtin 106);
   ("__defineGetter__", builtin 107);
   ("__defineSetter__", builtin 108);
   ("__lookupGetter__", builtin 109);
   ("__lookupSetter__", builtin 110)].

(** What [Object.prototype] answers for [key] when [receiver] is the object
    the property was asked of: the getter of [__proto__] answers the
    prototype of the receiver. *)
Definition Object_prototype_member (receiver : object) (key : string)
  : option value :=
  if String.eqb key "__proto__" then Some (getPrototypeOf receiver)
  else assoc key Object_prototype_methods.

(** [receiver[key]], looked up from [o] on along the prototype chain. *)
Fixpoint get_from (receiver o : object) (key : string) : value :=
  match o with
  | Obj id _ proto ps =>
      match assoc key ps with
      | Some v => v
      | None =>
          match (if Nat.eqb id 0 then Object_prototype_member receiver key
                 else None) with
          | Some v => v
          | None =>
              match proto with
              | Some p => get_from receiver p key
              | None => VUndefined
              end
          end
      end
  end.

(** [o[key]] for an object [o]: the own property, else the prototype
    chain's, else [undefined]. *)
Definition get (o : object) (key : string) : value := get_from o o key.

(** The builtin [hasOwnProperty], with [o] for receiver. *)
Definition hasOwnProperty (o : object) (key : string) : bool :=
  match assoc key (obj_props o) with
  | Some _ => true
  | None =>
      Nat.eqb (obj_id o) 0 &&
      match Object_prototype_member o key with Some _ => true | None => false end
  end.

(** Looking [__proto__] up from [o] on ends at the accessor of
    [Object.prototype], and not at a data property of that name. *)
Fixpoint inherits_proto_accessor (o : object) : bool :=
  match o with
  | Obj id _ proto ps =>
      match assoc "__proto__" ps with
      | Some _ => false
      | None =>
          Nat.eqb id 0 ||
          match proto with
          | Some p => inherits_proto_accessor p
          | None => false
          end
      end
  end.

(** The names that cannot be assigned through a function: it has [length]
    and [name], which are read-only, and it has or inherits [caller] and
    [arguments], read-only or with a setter that raises. *)
Definition function_refuses (key : string) : bool :=
  existsb (String.eqb key) ["length"; "name"; "caller"; "arguments"].

(** The assignment [o[key] = v] is refused: the property found for [key],
    from [o] on along the prototype chain, is one that cannot be assigned.
    The properties of the list were assigned before and can be again; so
    can the members of [Object.prototype]. *)
Fixpoint refuses (o : object) (key : string) : bool :=
  match o with
  | Obj _ callable proto ps =>
      match assoc key ps with
      | Some _ => false
      | None =>
          callable && function_refuses key ||
          match proto with
          | Some p => refuses p key
          | None => false
          end
      end
  end.

(** [o[key] = v] for an object [o], in strict code: an assignment that
    reaches the setter of [__proto__] changes the prototype, when [v] is an
    object or [null], and does nothing otherwise; an assignment that is
    refused raises a [TypeError]; any other defines or overwrites an own
    property.  (The objects assigned to here are new, so no prototype chain
    is closed into a cycle.) *)
Definition put (o : object) (key : string) (v : value) : result object :=
  match o with
  | Obj id callable proto ps =>
      if String.eqb key "__proto__" && inherits_proto_accessor o then
        Ok match v with
           | VObject p => Obj id callable (Some p) ps
           | VNull => Obj id callable None ps
           | _ => o
           end
      else if refuses o key then
        Throw (TypeError
          ("Cannot assign to read only property '" +:+ key +:+ "' of object"))
      else Ok (Obj id callable proto (set key v ps))
  end.

(** An object literal [{ k1: v1, ... }] the runtime created with identity
    [id]. *)
Definition literal (id : nat) (ps : list (string * value)) : value :=
  VObject (Obj id false (Some Object_prototype) ps).

(** [({})[key]]: what an object literal without properties answers, which
    is what [Object.prototype] holds under that name. *)
Definition empty_slice (key : string) : value :=
  if String.eqb key "__proto__" then VObject Object_prototype
  else default VUndefined (assoc key Object_prototype_methods).

(** What the embedding takes from the host: the build mode, the random
    source, and the builtin behaviour of values that are not objects. *)
Class Runtime : Type := {
  (** [process.env.NODE_ENV === 'production'] *)
  production : bool;
  (** the n-th [Math.random().toString(36)] of the run *)
  random36 : nat -> string;
  (** [v[key]] for a boolean, a number or a string [v] *)
  primitive_get : value -> string -> value;
  (** [Object.keys(v)] for a boolean, a number or a string [v] *)
  primitive_keys : value -> list string;
  (** the name [N] in [{}.toString.call(v) === '[object N]'] *)
  class_name : value -> string;
  (** [String(v)] for a value that is not a string; it raises for an
      object that has no conversion to a primitive *)
  stringify : value -> result string
}.

Section Access.
Context `{Runtime}.

(** [v[key]] for any value [v]. *)
Definition get_value (v : value) (key : string) : result value :=
  match v with
  | VUndefined =>
      Throw (TypeError "Cannot read properties of undefined")
  | VNull => Throw (TypeError "Cannot read properties of null")
  | VObject o => Ok (get o key)
  | _ => Ok (primitive_get v key)
  end.

(** [Object.keys(v)] for any value [v]. *)
Definition keys_value (v : value) : result (list string) :=
  match v with
  | VUndefined | VNull =>
      Throw (TypeError "Cannot convert undefined or null to object")
  | VObject o => Ok (keys o)
  | _ => Ok (primitive_keys v)
  end.

(** [String(v)] *)
Definition String_ (v : value) : result string :=
  match v with
  | VString s => Ok s
  | _ => stringify v
  end.

End Access.

End JS.

(** ** src/utils/isPlainObject.js *)

Module IsPlainObject.
Import JS.

(** The [while] loop: from [proto], follow [Object.getPrototypeOf] until
    it answers [null]. *)
Fixpoint chain_end (proto : object) : object :=
  match proto with
  | Obj _ _ (Some p) _ => chain_end p
  | Obj _ _ None _ => proto
  end.

Definition isPlainObject (obj : value) : bool :=
  if negb (String.eqb (typeof obj) "object") || strict_eq obj VNull then false
  else
    match obj with
    | VObject o => strict_eq (getPrototypeOf o) (VObject (chain_end o))
    | _ => false
    end.

(** The identities along a prototype chain, the object's own first. *)
Fixpoint chain_ids (o : object) : list nat :=
  match o with
  | Obj id _ (Some p) _ => id :: chain_ids p
  | Obj id _ None _ => [id]
  end.

(** The last object of a prototype chain, as a relation: [terminus o t]
    when [t] is reached from [o] by [Object.getPrototypeOf] steps and has
    no prototype itself. *)
Inductive terminus : object -> object -> Prop :=
| terminus_here (o : object) :
    obj_proto o = None -> terminus o o
| terminus_next (o p t : object) :
    obj_proto o = Some p -> terminus p t -> terminus o t.

(** Builtin prototypes and values of the kinds the validator is meant to
    tell apart. *)
Definition Array_prototype : object :=
  Obj 2 false (Some Object_prototype) [].
Definition Date_prototype : object :=
  Obj 3 false (Some Object_prototype) [].

(** [function () {}] *)
Definition a_function (id : nat) (ps : list (string * value)) : value :=
  VObject (Obj id true (Some Function_prototype) ps).
(** [[...]] *)
Definition an_array (id : nat) (ps : list (string * value)) : value :=
  VObject (Obj id false (Some Array_prototype) ps).
(** [new Date()] *)
Definition a_date (id : nat) : value :=
  VObject (Obj id false (Some Date_prototype) []).
(** [new C()] for [class C {}], whose [C.prototype] has identity [S c]. *)
Definition an_instance (id c : nat) (methods ps : list (string * value))
  : value :=
  VObject (Obj id false
             (Some (Obj (S c) false (Some Object_prototype) methods)) ps).
(** [Object.create(null)] *)
Definition a_bare_object (id : nat) (ps : list (string * value)) : value :=
  VObject (Obj id false None ps).

End IsPlainObject.

(** ** src/compose.js *)

Module Compose.

(** The body of [compose(...funcs)], for functions of a type [F]:
    [identity] is the function [arg => arg] and [composite a b] the function
    [(...args) => a(b(...args))] that the body creates. *)
Definition compose_with {F : Type} (identity : F) (composite : F -> F -> F)
    (funcs : list F) : F :=
  match funcs with
  | [] => identity
  | [f] => f
  | f :: rest => fold_left composite rest f
  end.

(** [compose(...funcs)], on what the functions compute.  Every JavaScript
    function maps values to a value, so the functions share one type; the
    rest parameter [...args] of the composite is rendered by its one
    argument. *)
Definition compose {A : Type} (funcs : list (A -> A)) : A -> A :=
  compose_with (fun arg => arg) (fun a b => fun args => a (b args)) funcs.

(** A function value: one the caller passed, known by the identity the
    runtime gave it, or one [compose] creates. *)
Inductive func (A : Type) : Type :=
| Given (id : nat) (f : A -> A)
| Identity
| Composite (a b : func A).
Arguments Given {A} id f.
Arguments Identity {A}.
Arguments Composite {A} a b.

(** What a function value computes. *)
Fixpoint behaviour {A : Type} (g : func A) : A -> A :=
  match g with
  | Given _ f => f
  | Identity => fun arg => arg
  | Composite a b => fun args => behaviour a (behaviour b args)
  end.

(** [compose(...funcs)], on function values: which function is returned. *)
Definition compose_values {A : Type} (funcs : list (func A)) : func A :=
  compose_with Identity Composite funcs.

End Compose.

(** ** src/utils/actionTypes.js *)

Module ActionTypes.
Import JS.

Section WithRuntime.
Context `{Runtime}.

(** [s.substring(n)] *)
Fixpoint substring_from (n : nat) (s : string) : string :=
  match n, s with
  | O, _ => s
  | S n', String _ rest => substring_from n' rest
  | S _, EmptyString => EmptyString
  end.

(** [s.split('').join('.')] *)
Fixpoint split_join_dot (s : string) : string :=
  match s with
  | EmptyString => EmptyString
  | String c EmptyString => String c EmptyString
  | String c rest => String c (String "."%char (split_join_dot rest))
  end.

(** [randomString()], on the [n]-th draw of the random source. *)
Definition randomString (n : nat) : string :=
  split_join_dot (substring_from 7 (random36 n)).

(** The two constants are computed when the module is loaded: they take the
    first two draws. *)
Definition INIT : string := "@@redux/INIT" +:+ randomString 0.
Definition REPLACE : string := "@@redux/REPLACE" +:+ randomString 1.

(** [PROBE_UNKNOWN_ACTION()], on the [n]-th draw. *)
Definition PROBE_UNKNOWN_ACTION (n : nat) : string :=
  "@@redux/PROBE_UNKNOWN_ACTION" +:+ randomString n.

End WithRuntime.
End ActionTypes.

(** ** src/combineReducers.js *)

Module CombineReducers.
Import JS ActionTypes IsPlainObject.

Section WithRuntime.
Context `{Runtime}.

(** The behaviour of the functions of the [reducers] argument, by
    identity.  A slice reducer is a pure function of its arguments; it does
    not read [this]. *)
Variable call : nat -> list value -> result value.

(** What the code updates outside its own locals: the identities handed out
    so far, the draws taken from the random source, the console, and the
    [unexpectedKeyCache] objects (one per combined reducer, by reference). *)
Record world : Type := {
  next_id : nat;
  draws : nat;
  console : list string;
  caches : list (list (string * value))
}.

Definition M (A : Type) : Type := world -> result A * world.

#[export] Instance M_ret : MRet M := fun A a w => (Ok a, w).
#[export] Instance M_bind : MBind M := fun A B f m w =>
  match m w with
  | (Ok a, w') => f a w'
  | (Throw e, w') => (Throw e, w')
  end.

Definition throw {A : Type} (e : exn) : M A := fun w => (Throw e, w).

Definition lift {A : Type} (r : result A) : M A := fun w => (r, w).

(** [try { m } catch (e) { handler(e) }] *)
Definition try_catch {A : Type} (m : M A) (handler : exn -> M A) : M A :=
  fun w =>
    match m w with
    | (Ok a, w') => (Ok a, w')
    | (Throw e, w') => handler e w'
    end.

(** The identity of the next object the runtime creates. *)
Definition alloc : M nat := fun w =>
  (Ok (next_id w),
   {| next_id := S (next_id w); draws := draws w; console := console w;
      caches := caches w |}).

(** An object literal, created now. *)
Definition new_literal (ps : list (string * value)) : M value :=
  id ← alloc; mret (literal id ps).

(** [ActionTypes.PROBE_UNKNOWN_ACTION()] *)
Definition probe_type : M string := fun w =>
  (Ok (PROBE_UNKNOWN_ACTION (draws w)),
   {| next_id := next_id w; draws := S (draws w); console := console w;
      caches := caches w |}).

(** src/utils/warning.js: the message goes to [console.error]; the error
    thrown for the debugger is caught on the spot. *)
Definition warning (message : string) : M unit := fun w =>
  (Ok tt,
   {| next_id := next_id w; draws := draws w;
      console := console w ++ [message]; caches := caches w |}).

(** [unexpectedKeyCache = {}] *)
Definition new_cache : M nat := fun w =>
  (Ok (length (caches w)),
   {| next_id := S (next_id w); draws := draws w; console := console w;
      caches := caches w ++ [[]] |}).

Definition read_cache (ref : nat) : M (list (string * value)) := fun w =>
  (Ok (default [] (caches w !! ref)), w).

(** [unexpectedKeyCache[key]]: the cache is an object literal, so for a
    key it does not hold it answers what [{}] does. *)
Definition cache_get (cache : list (string * value)) (key : string) : value :=
  match assoc key cache with
  | Some v => v
  | None => empty_slice key
  end.

(** [f(...args)] *)
Definition apply_function (f : value) (args : list value) : result value :=
  match f with
  | VObject o =>
      if obj_callable o then call (obj_id o) args
      else Throw (TypeError "reducer is not a function")
  | _ => Throw (TypeError "reducer is not a function")
  end.

Definition invoke (f : value) (args : list value) : M value :=
  lift (apply_function f args).

(** [reducers.hasOwnProperty(key)]: a call of whatever the property
    [hasOwnProperty] of [reducers] holds.  That is the builtin, unless
    [reducers] has a key of that name (or a prototype that has): then it is
    that function, called with the key alone. *)
Definition own_property_test (reducers : object) (key : string)
  : result value :=
  let method := get reducers "hasOwnProperty" in
  if strict_eq method Object_hasOwnProperty
  then Ok (VBool (hasOwnProperty reducers key))
  else apply_function method [VString key].

(** The filter of [getUnexpectedStateShapeWarningMessage]:
    [!reducers.hasOwnProperty(key) && !unexpectedKeyCache[key]], over the
    keys still to visit.  The cache is read only for a key that fails the
    first test; reading it fails when the variable was left undefined. *)
Fixpoint unexpected_among (reducers : object)
    (cache : option (list (string * value))) (stateKeys : list string)
  : result (list string) :=
  match stateKeys with
  | [] => Ok []
  | key :: rest =>
      own ← own_property_test reducers key;
      unexpected ←
        (if truthy own then Ok false
         else
           match cache with
           | Some cache => Ok (negb (truthy (cache_get cache key)))
           | None => Throw (TypeError "Cannot read properties of undefined")
           end);
      others ← unexpected_among reducers cache rest;
      mret (if unexpected : bool then key :: others else others)
  end.

Definition unexpected_keys (reducers : object) (unexpectedKeyCache : option nat)
    (stateKeys : list string) : M (list string) :=
  match unexpectedKeyCache with
  | Some ref =>
      cache ← read_cache ref;
      lift (unexpected_among reducers (Some cache) stateKeys)
  | None => lift (unexpected_among reducers None stateKeys)
  end.

(** [unexpectedKeys.forEach(key => { unexpectedKeyCache[key] = true })] *)
Definition mark_unexpected (unexpectedKeyCache : option nat)
    (unexpectedKeys : list string) : M unit :=
  match unexpectedKeyCache with
  | Some ref => fun w =>
      (Ok tt,
       {| next_id := next_id w; draws := draws w; console := console w;
          caches :=
            <[ref := fold_left (fun c key => set key (VBool true) c)
                       unexpectedKeys (default [] (caches w !! ref))]>
              (caches w) |})
  | None => mret tt
  end.

(** [action && action.type] *)
Definition action_type (action : value) : result value :=
  if truthy action then get_value action "type" else Ok action.

Definition getUndefinedStateErrorMessage (key : string) (action : value)
  : result string :=
  actionType ← action_type action;
  actionDescription ←
    (if truthy actionType
     then text ← String_ actionType; mret ("action " +:+ dq +:+ text +:+ dq)
     else mret "an action");
  mret ("Given " +:+ actionDescription +:+ ", reducer " +:+ dq +:+ key +:+ dq +:+
        " returned undefined. " +:+
        "To ignore an action, you must explicitly return the previous state. " +:+
        "If you want this reducer to hold no value, you can return null instead of undefined.").

(** [action && action.type === t] as a condition *)
Definition action_has_type (action : value) (t : string) : result bool :=
  if truthy action
  then ty ← get_value action "type"; mret (strict_eq ty (VString t))
  else Ok false.

(** [keys.join('", "')] between quotes *)
Definition quoted_keys (ks : list string) : string :=
  dq +:+ String.concat (dq +:+ ", " +:+ dq) ks +:+ dq.

Definition getUnexpectedStateShapeWarningMessage
    (inputState : value) (reducers : object) (action : value)
    (unexpectedKeyCache : option nat) : M (option string) :=
  let reducerKeys := keys reducers in
  isInit ← lift (action_has_type action INIT);
  let argumentName :=
    if isInit : bool then "preloadedState argument passed to createStore"
    else "previous state received by the reducer" in
  if Nat.eqb (length reducerKeys) 0 then
    mret (Some
      ("Store does not have a valid reducer. Make sure the argument passed " +:+
       "to combineReducers is an object whose values are reducers."))
  else if negb (isPlainObject inputState) then
    mret (Some
      ("The " +:+ argumentName +:+ " has unexpected type of " +:+ dq +:+
       class_name inputState +:+ dq +:+
       ". Expected argument to be an object with the following " +:+
       "keys: " +:+ quoted_keys reducerKeys))
  else
    stateKeys ← lift (keys_value inputState);
    unexpectedKeys ← unexpected_keys reducers unexpectedKeyCache stateKeys;
    mark_unexpected unexpectedKeyCache unexpectedKeys;;
    isReplace ← lift (action_has_type action REPLACE);
    if isReplace : bool then mret None
    else if Nat.ltb 0 (length unexpectedKeys) then
      mret (Some
        ("Unexpected " +:+
         (if Nat.ltb 1 (length unexpectedKeys) then "keys" else "key") +:+ " " +:+
         quoted_keys unexpectedKeys +:+ " found in " +:+ argumentName +:+ ". " +:+
         "Expected to find one of the known reducer keys instead: " +:+
         quoted_keys reducerKeys +:+ ". Unexpected keys will be ignored."))
    else mret None.

(** One round of the [forEach] of [assertReducerShape]. *)
Definition assertReducerShape_key (reducers : object) (key : string) : M unit :=
  let reducer := get reducers key in
  initAction ← new_literal [("type", VString INIT)];
  initialState ← invoke reducer [VUndefined; initAction];
  if is_undefined initialState then
    throw (Error
      ("Reducer " +:+ dq +:+ key +:+ dq +:+ " returned undefined during initialization. " +:+
       "If the state passed to the reducer is undefined, you must " +:+
       "explicitly return the initial state. The initial state may " +:+
       "not be undefined. If you don't want to set a value for this reducer, " +:+
       "you can use null instead of undefined."))
  else
    probe ← probe_type;
    probeAction ← new_literal [("type", VString probe)];
    probed ← invoke reducer [VUndefined; probeAction];
    if is_undefined probed then
      throw (Error
        ("Reducer " +:+ dq +:+ key +:+ dq +:+ " returned undefined when probed with a random type. " +:+
         "Don't try to handle " +:+ INIT +:+ " or other actions in " +:+ dq +:+ "redux/*" +:+ dq +:+ " " +:+
         "namespace. They are considered private. Instead, you must return the " +:+
         "current state for any unknown actions, unless it is undefined, " +:+
         "in which case you must return the initial state, regardless of the " +:+
         "action type. The initial state may not be undefined, but can be null."))
    else mret tt.

(** [Object.keys(reducers).forEach(...)], over the keys still to visit. *)
Fixpoint assertReducerShape_from (reducers : object) (ks : list string)
  : M unit :=
  match ks with
  | [] => mret tt
  | key :: rest =>
      assertReducerShape_key reducers key;;
      assertReducerShape_from reducers rest
  end.

Definition assertReducerShape (reducers : object) : M unit :=
  assertReducerShape_from reducers (keys reducers).

(** The first [for] loop of [combineReducers], over the keys still to
    visit: [finalReducers] keeps the entries that are functions.
    [reducers[key]] is read once here; the code reads it up to three times,
    with the same answer. *)
Fixpoint retain (reducers : value) (reducerKeys : list string)
    (finalReducers : object) : M object :=
  match reducerKeys with
  | [] => mret finalReducers
  | key :: rest =>
      entry ← lift (get_value reducers key);
      (if negb production then
         if is_undefined entry
         then warning ("No reducer provided for key " +:+ dq +:+ key +:+ dq)
         else mret tt
       else mret tt);;
      finalReducers ←
        (if is_function entry then lift (put finalReducers key entry)
         else mret finalReducers);
      retain reducers rest finalReducers
  end.

(** What the closure [combination] captures. *)
Record combined : Type := {
  finalReducers : object;
  finalReducerKeys : list string;
  unexpectedKeyCache : option nat;
  shapeAssertionError : option exn
}.

Definition combineReducers (reducers : value) : M combined :=
  reducerKeys ← lift (keys_value reducers);
  finalId ← alloc;
  finalReducers ←
    retain reducers reducerKeys (Obj finalId false (Some Object_prototype) []);
  let finalReducerKeys := keys finalReducers in
  unexpectedKeyCache ←
    (if negb production then ref ← new_cache; mret (Some ref)
     else mret None);
  shapeAssertionError ←
    try_catch (assertReducerShape finalReducers;; mret None)
              (fun e => mret (Some e));
  mret {| finalReducers := finalReducers;
          finalReducerKeys := finalReducerKeys;
          unexpectedKeyCache := unexpectedKeyCache;
          shapeAssertionError := shapeAssertionError |}.

(** [if (shapeAssertionError)]: an exception that was caught is a value
    like any other, and the test is on its truth value.  An error object is
    truthy; a function can also throw [0], [null] or nothing at all. *)
Definition exn_truthy (e : exn) : bool :=
  match e with
  | Error _ | TypeError _ => true
  | Thrown v => truthy v
  end.

(** The exception the combined reducer rethrows on entry, if any. *)
Definition rethrown (c : combined) : option exn :=
  match shapeAssertionError c with
  | Some e => if exn_truthy e then Some e else None
  | None => None
  end.

(** The [for] loop of [combination], over the keys still to visit, with
    the locals [hasChanged] and [nextState] (its properties so far).  The
    keys are own keys of [finalReducers], which [__proto__] never is, so
    [nextState[key] = ...] always defines an own property. *)
Fixpoint slices (c : combined) (ks : list string) (state action : value)
    (hasChanged : bool) (nextState : list (string * value))
  : M (bool * list (string * value)) :=
  match ks with
  | [] => mret (hasChanged, nextState)
  | key :: rest =>
      let reducer := get (finalReducers c) key in
      previousStateForKey ← lift (get_value state key);
      nextStateForKey ← invoke reducer [previousStateForKey; action];
      if is_undefined nextStateForKey then
        errorMessage ← lift (getUndefinedStateErrorMessage key action);
        throw (Error errorMessage)
      else
        slices c rest state action
          (hasChanged || negb (strict_eq nextStateForKey previousStateForKey))
          (set key nextStateForKey nextState)
  end.

(** The diagnostic block of [combination], which a production build
    leaves out. *)
Definition diagnostic (c : combined) (state action : value) : M unit :=
  if negb production then
    warningMessage ←
      getUnexpectedStateShapeWarningMessage
        state (finalReducers c) action (unexpectedKeyCache c);
    match warningMessage with
    | Some message => warning message
    | None => mret tt
    end
  else mret tt.

(** [combination(state = {}, action)] *)
Definition combination (c : combined) (state action : value) : M value :=
  state ← (if strict_eq state VUndefined then new_literal [] else mret state);
  match rethrown c with
  | Some e => throw e
  | None =>
      diagnostic c state action;;
      nextId ← alloc;
      '(hasChanged, nextState) ←
        slices c (finalReducerKeys c) state action false [];
      stateKeys ← lift (keys_value state);
      let hasChanged :=
        hasChanged ||
        negb (Nat.eqb (length (finalReducerKeys c)) (length stateKeys)) in
      mret (if hasChanged : bool then literal nextId nextState else state)
  end.

(** The world a program starts in: the identities up to 110 are those of
    the objects of the runtime, and the first two draws went to [INIT] and
    [REPLACE]. *)
Definition initial_world : world :=
  {| next_id := 111; draws := 2; console := []; caches := [] |}.

(** *** Vocabulary of the statements *)

(** What the slice reducer of [key] answers for the slice of [s] and
    [action]. *)
Definition slice_call (c : combined) (s : object) (action : value)
    (key : string) : result value :=
  apply_function (get (finalReducers c) key) [get s key; action].

(** The reducer contract at one slice: a value that is not [undefined]. *)
Definition slice_defined (c : combined) (s : object) (action : value)
    (key : string) : Prop :=
  exists v, slice_call c s action key = Ok v /\ is_undefined v = false.

(** The slice reducer of [key] hands back the slice it was given. *)
Definition slice_unchanged (c : combined) (s : object) (action : value)
    (key : string) : Prop :=
  exists v, slice_call c s action key = Ok v /\
            strict_eq v (get s key) = true.

(** The slice result, for a slice whose reducer kept the contract. *)
Definition slice_next (c : combined) (s : object) (action : value)
    (key : string) : value :=
  match slice_call c s action key with
  | Ok v => v
  | Throw _ => VUndefined
  end.


(** A function passes the probes of [assertReducerShape] when it answers
    the init action, and every probe action, with a value that is not
    [undefined]. *)
Definition passes_probe (f : value) : Prop :=
  (forall id, exists v,
     apply_function f [VUndefined; literal id [("type", VString INIT)]] = Ok v /\
     is_undefined v = false) /\
  (forall id n, exists v,
     apply_function f
       [VUndefined; literal id [("type", VString (PROBE_UNKNOWN_ACTION n))]]
     = Ok v /\
     is_undefined v = false).

(** What the reducer of [key] answers for the slice of the object [{}]
    that stands for a missing state: [undefined], or what
    [Object.prototype] holds under that name. *)
Definition initial_slice (c : combined) (action : value) (key : string)
  : result value :=
  apply_function (get (finalReducers c) key) [empty_slice key; action].

(** The own-property test of the diagnostic returns for [key]. *)
Definition key_tested (reducers : object) (key : string) : Prop :=
  exists r, own_property_test reducers key = Ok r.

(** What that test answers, as the filter of the diagnostic reads it. *)
Definition key_owned (reducers : object) (key : string) : bool :=
  match own_property_test reducers key with
  | Ok r => truthy r
  | Throw _ => false
  end.

(** A state mapping: a plain object, and one that does not inherit from
    a function.  (A function has properties that its property list does
    not show, [name] and [length] among them, and the embedding does not
    know their values.) *)
Definition state_mapping (s : object) : bool :=
  isPlainObject (VObject s) &&
  match obj_proto s with
  | Some p => negb (obj_callable p)
  | None => true
  end.

(** The diagnostic of a development build comes to an end on the state
    [s]: it tests the keys of a plain state object against the retained
    reducers, when there are any. *)
Definition diagnosed (c : combined) (s : object) : Prop :=
  production = false -> finalReducerKeys c <> [] ->
  isPlainObject (VObject s) = true ->
  Forall (key_tested (finalReducers c)) (keys s).


(** What [combineReducers] establishes of the closure it returns. *)
Definition well_formed (c : combined) : Prop :=
  finalReducerKeys c = keys (finalReducers c) /\
  NoDup (keys (finalReducers c)) /\
  key_order (keys (finalReducers c)) /\
  (production = false -> exists ref, unexpectedKeyCache c = Some ref).

End WithRuntime.

(** Unfolds the plumbing of [M] in a goal. *)
Ltac run_M :=
  unfold mbind, mret, M_bind, M_ret, result_bind, result_ret, lift, throw,
    invoke, try_catch in *; simpl in *.

End CombineReducers.

(** ** src/createStore.js *)

Module CreateStore.
Import JS ActionTypes IsPlainObject.

(** *** Programs over the store

    A reducer, a listener or a middleware is JavaScript code that can only
    reach the store through the functions the store hands out.  Its body is
    a tree of such calls; each continuation receives what the call
    produced, a value or the exception it raised, so a body can catch. *)
Inductive prog (A : Type) : Type :=
| Ret (a : A)
| Raise (e : exn)
(** [store.getState()] *)
| GetState (k : result value -> prog A)
(** [store.dispatch(action)], the [dispatch] field of the store object *)
| Dispatch (action : value) (k : result value -> prog A)
(** the [dispatch] function of [createStore] itself, which a middleware
    chain ends in *)
| RawDispatch (action : value) (k : result value -> prog A)
(** [store.subscribe(listener)]; the answer stands for the [unsubscribe]
    closure returned *)
| Subscribe (listener : value) (k : result nat -> prog A)
(** a call of such an [unsubscribe] closure *)
| Unsubscribe (subscription : nat) (k : result value -> prog A)
(** [store.replaceReducer(nextReducer)] *)
| ReplaceReducer (nextReducer : value) (k : result value -> prog A)
(** a mark a body leaves in the journal *)
| Trace (label : string) (k : prog A).
Arguments Ret {A} a.
Arguments Raise {A} e.
Arguments GetState {A} k.
Arguments Dispatch {A} action k.
Arguments RawDispatch {A} action k.
Arguments Subscribe {A} listener k.
Arguments Unsubscribe {A} subscription k.
Arguments ReplaceReducer {A} nextReducer k.
Arguments Trace {A} label k.

(** Sequencing: an exception of the first part ends the whole. *)
Fixpoint bind {A B : Type} (p : prog A) (f : A -> prog B) : prog B :=
  match p with
  | Ret a => f a
  | Raise e => Raise e
  | GetState k => GetState (fun r => bind (k r) f)
  | Dispatch a k => Dispatch a (fun r => bind (k r) f)
  | RawDispatch a k => RawDispatch a (fun r => bind (k r) f)
  | Subscribe l k => Subscribe l (fun r => bind (k r) f)
  | Unsubscribe u k => Unsubscribe u (fun r => bind (k r) f)
  | ReplaceReducer n k => ReplaceReducer n (fun r => bind (k r) f)
  | Trace l k => Trace l (bind k f)
  end.

#[export] Instance prog_ret : MRet prog := fun A a => Ret a.
#[export] Instance prog_bind : MBind prog := fun A B f p => bind p f.

(** A call whose exception is not caught. *)
Definition rethrow {A : Type} (r : result A) : prog A :=
  match r with
  | Ok a => Ret a
  | Throw e => Raise e
  end.

(** What the journal records. *)
Inductive event : Type :=
(** dispatch number [n] called the reducer with this action *)
| Reduced (n : nat) (action : value)
(** dispatch number [n] called this listener *)
| Notified (n : nat) (listener : value)
| Traced (label : string).

(** The variables of the closure [createStore] returns, the arrays its
    listener lists are (by reference, since two variables may name one
    array), and the [isSubscribed] flag of every [subscribe] call so far
    with its listener.  [dispatches] and [journal] are not in the code:
    they number the dispatches that reached the reducer and record the
    calls made, for the statements to speak of. *)
Record store : Type := {
  currentReducer : value;
  currentState : value;
  currentListeners : option nat;
  nextListeners : nat;
  isDispatching : bool;
  arrays : list (list value);
  subscriptions : list (value * bool);
  next_id : nat;
  dispatches : nat;
  journal : list event
}.

Definition set_currentReducer (r : value) (s : store) : store :=
  {| currentReducer := r; currentState := currentState s;
     currentListeners := currentListeners s; nextListeners := nextListeners s;
     isDispatching := isDispatching s; arrays := arrays s;
     subscriptions := subscriptions s; next_id := next_id s;
     dispatches := dispatches s; journal := journal s |}.

Definition set_currentState (v : value) (s : store) : store :=
  {| currentReducer := currentReducer s; currentState := v;
     currentListeners := currentListeners s; nextListeners := nextListeners s;
     isDispatching := isDispatching s; arrays := arrays s;
     subscriptions := subscriptions s; next_id := next_id s;
     dispatches := dispatches s; journal := journal s |}.

Definition set_currentListeners (l : option nat) (s : store) : store :=
  {| currentReducer := currentReducer s; currentState := currentState s;
     currentListeners := l; nextListeners := nextListeners s;
     isDispatching := isDispatching s; arrays := arrays s;
     subscriptions := subscriptions s; next_id := next_id s;
     dispatches := dispatches s; journal := journal s |}.

Definition set_nextListeners (l : nat) (s : store) : store :=
  {| currentReducer := currentReducer s; currentState := currentState s;
     currentListeners := currentListeners s; nextListeners := l;
     isDispatching := isDispatching s; arrays := arrays s;
     subscriptions := subscriptions s; next_id := next_id s;
     dispatches := dispatches s; journal := journal s |}.

Definition set_isDispatching (b : bool) (s : store) : store :=
  {| currentReducer := currentReducer s; currentState := currentState s;
     currentListeners := currentListeners s; nextListeners := nextListeners s;
     isDispatching := b; arrays := arrays s;
     subscriptions := subscriptions s; next_id := next_id s;
     dispatches := dispatches s; journal := journal s |}.

Definition set_arrays (a : list (list value)) (s : store) : store :=
  {| currentReducer := currentReducer s; currentState := currentState s;
     currentListeners := currentListeners s; nextListeners := nextListeners s;
     isDispatching := isDispatching s; arrays := a;
     subscriptions := subscriptions s; next_id := next_id s;
     dispatches := dispatches s; journal := journal s |}.

Definition set_subscriptions (u : list (value * bool)) (s : store) : store :=
  {| currentReducer := currentReducer s; currentState := currentState s;
     currentListeners := currentListeners s; nextListeners := nextListeners s;
     isDispatching := isDispatching s; arrays := arrays s;
     subscriptions := u; next_id := next_id s;
     dispatches := dispatches s; journal := journal s |}.

Definition set_next_id (n : nat) (s : store) : store :=
  {| currentReducer := currentReducer s; currentState := currentState s;
     currentListeners := currentListeners s; nextListeners := nextListeners s;
     isDispatching := isDispatching s; arrays := arrays s;
     subscriptions := subscriptions s; next_id := n;
     dispatches := dispatches s; journal := journal s |}.

Definition set_dispatches (n : nat) (s : store) : store :=
  {| currentReducer := currentReducer s; currentState := currentState s;
     currentListeners := currentListeners s; nextListeners := nextListeners s;
     isDispatching := isDispatching s; arrays := arrays s;
     subscriptions := subscriptions s; next_id := next_id s;
     dispatches := n; journal := journal s |}.

Definition record (e : event) (s : store) : store :=
  {| currentReducer := currentReducer s; currentState := currentState s;
     currentListeners := currentListeners s; nextListeners := nextListeners s;
     isDispatching := isDispatching s; arrays := arrays s;
     subscriptions := subscriptions s; next_id := next_id s;
     dispatches := dispatches s; journal := journal s ++ [e] |}.

(** The array a reference names. *)
Definition array (s : store) (ref : nat) : list value :=
  default [] (arrays s !! ref).

(** [nextListeners === currentListeners] *)
Definition same_array (s : store) : bool :=
  match currentListeners s with
  | Some ref => Nat.eqb ref (nextListeners s)
  | None => false
  end.

Definition ensureCanMutateNextListeners (s : store) : store :=
  if same_array s then
    set_nextListeners (length (arrays s))
      (set_arrays (arrays s ++ [array s (nextListeners s)]) s)
  else s.

Definition getState (s : store) : result value * store :=
  if isDispatching s then
    (Throw (Error
       ("You may not call store.getState() while the reducer is executing. " +:+
        "The reducer has already received the state as an argument. " +:+
        "Pass it down from the top reducer instead of reading it from the store.")),
     s)
  else (Ok (currentState s), s).

Definition subscribe (listener : value) (s : store) : result nat * store :=
  if negb (is_function listener) then
    (Throw (Error "Expected the listener to be a function."), s)
  else if isDispatching s then
    (Throw (Error
       ("You may not call store.subscribe() while the reducer is executing. " +:+
        "If you would like to be notified after the store has been updated, subscribe from a " +:+
        "component and invoke store.getState() in the callback to access the latest state. " +:+
        "See https://redux.js.org/api-reference/store#subscribelistener for more details.")),
     s)
  else
    let isSubscribed := length (subscriptions s) in
    let s := set_subscriptions (subscriptions s ++ [(listener, true)]) s in
    let s := ensureCanMutateNextListeners s in
    let s :=
      set_arrays
        (<[nextListeners s := array s (nextListeners s) ++ [listener]]> (arrays s))
        s in
    (Ok isSubscribed, s).

(** [a.indexOf(x)], [None] for -1. *)
Fixpoint indexOf (a : list value) (x : value) : option nat :=
  match a with
  | [] => None
  | y :: rest =>
      if strict_eq y x then Some 0
      else match indexOf rest x with
           | Some i => Some (S i)
           | None => None
           end
  end.

(** [a.splice(index, 1)]: index -1 counts from the end. *)
Definition splice1 (index : option nat) (a : list value) : list value :=
  match index with
  | Some i => delete i a
  | None => removelast a
  end.

(** The closure [unsubscribe] of the [subscribe] call number
    [subscription].  A number no [subscribe] call answered names no
    function. *)
Definition unsubscribe (subscription : nat) (s : store) : result value * store :=
  match subscriptions s !! subscription with
  | None => (Throw (TypeError "unsubscribe is not a function"), s)
  | Some (listener, isSubscribed) =>
      if negb isSubscribed then (Ok VUndefined, s)
      else if isDispatching s then
        (Throw (Error
           ("You may not unsubscribe from a store listener while the reducer is executing. " +:+
            "See https://redux.js.org/api-reference/store#subscribelistener for more details.")),
         s)
      else
        let s :=
          set_subscriptions (<[subscription := (listener, false)]> (subscriptions s)) s in
        let s := ensureCanMutateNextListeners s in
        let index := indexOf (array s (nextListeners s)) listener in
        let s :=
          set_arrays
            (<[nextListeners s := splice1 index (array s (nextListeners s))]> (arrays s))
            s in
        (Ok VUndefined, set_currentListeners None s)
  end.

Section Engine.
Context `{Runtime}.

(** The bodies of the user's functions (reducers, listeners), by identity,
    and the function installed as the [dispatch] field of the store object:
    [RawDispatch] itself for a store made by [createStore] alone, the
    middleware chain for an enhanced one. *)
Variable body : nat -> list value -> prog value.
Variable public : value -> prog value.

(** A run ends with a value or an exception, or is cut short ([None]) when
    the fuel given to it is used up. *)
Definition outcome (A : Type) : Type := option (result A * store).

(** [f(...args)] for a user function [f], its body run by [run]. *)
Definition apply (run : prog value -> store -> outcome value)
    (f : value) (args : list value) (s : store) : outcome value :=
  match f with
  | VObject o =>
      if obj_callable o then run (body (obj_id o) args) s
      else Some (Throw (TypeError "not a function"), s)
  | _ => Some (Throw (TypeError "not a function"), s)
  end.

(** The [for] loop of [dispatch] from index [i]: [listeners.length] and
    [listeners[i]] are read from the array at every round. *)
Fixpoint notify (run : prog value -> store -> outcome value) (fuel : nat)
    (n : nat) (listeners : nat) (i : nat) (s : store) : outcome unit :=
  match fuel with
  | O => None
  | S fuel =>
      match array s listeners !! i with
      | None => Some (Ok tt, s)
      | Some listener =>
          match apply run listener [] (record (Notified n listener) s) with
          | None => None
          | Some (Throw e, s) => Some (Throw e, s)
          | Some (Ok _, s) => notify run fuel n listeners (S i) s
          end
      end
  end.

Definition dispatch (run : prog value -> store -> outcome value) (fuel : nat)
    (action : value) (s : store) : outcome value :=
  if negb (isPlainObject action) then
    Some (Throw (Error
      ("Actions must be plain objects. " +:+
       "Use custom middleware for async actions.")), s)
  else
    match get_value action "type" with
    | Throw e => Some (Throw e, s)
    | Ok type =>
        if is_undefined type then
          Some (Throw (Error
            ("Actions may not have an undefined " +:+ dq +:+ "type" +:+ dq +:+ " property. " +:+
             "Have you misspelled a constant?")), s)
        else if isDispatching s then
          Some (Throw (Error "Reducers may not dispatch actions."), s)
        else
          let n := dispatches s in
          let s := record (Reduced n action) (set_dispatches (S n) s) in
          let s := set_isDispatching true s in
          match apply run (currentReducer s) [currentState s; action] s with
          | None => None
          | Some (Throw e, s) => Some (Throw e, set_isDispatching false s)
          | Some (Ok nextState, s) =>
              let s := set_isDispatching false (set_currentState nextState s) in
              let s := set_currentListeners (Some (nextListeners s)) s in
              let listeners := nextListeners s in
              match notify run fuel n listeners 0 s with
              | None => None
              | Some (Throw e, s) => Some (Throw e, s)
              | Some (Ok _, s) => Some (Ok action, s)
              end
          end
    end.

(** [replaceReducer], with [raw] the closure's own [dispatch]. *)
Definition replaceReducer (raw : value -> store -> outcome value)
    (nextReducer : value) (s : store) : outcome value :=
  if negb (is_function nextReducer) then
    Some (Throw (Error "Expected the nextReducer to be a function."), s)
  else
    let s := set_currentReducer nextReducer s in
    let action := literal (next_id s) [("type", VString REPLACE)] in
    let s := set_next_id (S (next_id s)) s in
    match raw action s with
    | None => None
    | Some (Throw e, s) => Some (Throw e, s)
    | Some (Ok _, s) => Some (Ok VUndefined, s)
    end.

(** A body run against the store, with [pub] and [raw] the two dispatch
    functions. *)
Fixpoint exec (pub raw : value -> store -> outcome value) {A : Type}
    (p : prog A) (s : store) : outcome A :=
  match p with
  | Ret a => Some (Ok a, s)
  | Raise e => Some (Throw e, s)
  | GetState k => let '(r, s) := getState s in exec pub raw (k r) s
  | Dispatch action k =>
      match pub action s with
      | None => None
      | Some (r, s) => exec pub raw (k r) s
      end
  | RawDispatch action k =>
      match raw action s with
      | None => None
      | Some (r, s) => exec pub raw (k r) s
      end
  | Subscribe listener k =>
      let '(r, s) := subscribe listener s in exec pub raw (k r) s
  | Unsubscribe subscription k =>
      let '(r, s) := unsubscribe subscription s in exec pub raw (k r) s
  | ReplaceReducer nextReducer k =>
      match replaceReducer raw nextReducer s with
      | None => None
      | Some (r, s) => exec pub raw (k r) s
      end
  | Trace label k => exec pub raw k (record (Traced label) s)
  end.

(** Every nested dispatch and every round of a notification loop takes
    one unit of fuel. *)
Fixpoint run (fuel : nat) (A : Type) (p : prog A) (s : store) : outcome A :=
  match fuel with
  | O => None
  | S fuel =>
      exec (fun action s => run fuel value (public action) s)
           (fun action s => dispatch (fun p s => run fuel value p s) fuel action s)
           p s
  end.

(** The functions of the store object, as a caller outside any body uses
    them. *)
Definition raw_dispatch (fuel : nat) (action : value) (s : store)
  : outcome value :=
  dispatch (run fuel value) fuel action s.

Definition store_dispatch (fuel : nat) (action : value) (s : store)
  : outcome value :=
  run fuel value (public action) s.

Definition store_replaceReducer (fuel : nat) (nextReducer : value) (s : store)
  : outcome value :=
  replaceReducer (raw_dispatch fuel) nextReducer s.

(** What [createStore] answers: the store it made, or the call
    [enhancer(createStore)(reducer, preloadedState)] it hands over to. *)
Inductive creation : Type :=
| Created (s : store)
| Enhanced (enhancer reducer preloadedState : value).

(** [createStore(reducer, preloadedState, enhancer)]; [fourth] is
    [arguments[3]] and [id] the identity the runtime gives the next object
    created.  The observable adapter of the store object is left out. *)
Definition createStore (fuel : nat) (id : nat)
    (reducer preloadedState enhancer fourth : value)
  : option (result creation) :=
  if (is_function preloadedState && is_function enhancer) ||
     (is_function enhancer && is_function fourth)
  then
    Some (Throw (Error
      ("It looks like you are passing several store enhancers to " +:+
       "createStore(). This is not supported. Instead, compose them " +:+
       "together to a single function.")))
  else
    let '(enhancer, preloadedState) :=
      if is_function preloadedState && is_undefined enhancer
      then (preloadedState, VUndefined)
      else (enhancer, preloadedState) in
    if negb (is_undefined enhancer) then
      if negb (is_function enhancer) then
        Some (Throw (Error "Expected the enhancer to be a function."))
      else Some (Ok (Enhanced enhancer reducer preloadedState))
    else if negb (is_function reducer) then
      Some (Throw (Error "Expected the reducer to be a function."))
    else
      let s :=
        {| currentReducer := reducer; currentState := preloadedState;
           currentListeners := Some 0; nextListeners := 0;
           isDispatching := false; arrays := [[]]; subscriptions := [];
           next_id := S id; dispatches := 0; journal := [] |} in
      match raw_dispatch fuel (literal id [("type", VString INIT)]) s with
      | None => None
      | Some (Throw e, _) => Some (Throw e)
      | Some (Ok _, s) => Some (Ok (Created s))
      end.

(** *** Vocabulary of the statements *)

(** [dispatch] accepts [action] in the store [s]: it passes the three
    checks that come before the reducer is called. *)
Definition accepted (action : value) (s : store) : Prop :=
  isPlainObject action = true /\
  (exists type, get_value action "type" = Ok type /\ is_undefined type = false) /\
  isDispatching s = false.

(** The store as the reducer finds it: the dispatch is numbered and
    journaled, and [isDispatching] is set. *)
Definition enter (action : value) (s : store) : store :=
  set_isDispatching true
    (record (Reduced (dispatches s) action)
       (set_dispatches (S (dispatches s)) s)).

(** The call [currentReducer(currentState, action)] that [dispatch] makes. *)
Definition reducer_call (run : prog value -> store -> outcome value)
    (action : value) (s : store) : outcome value :=
  apply run (currentReducer (enter action s))
    [currentState (enter action s); action] (enter action s).

(** The store when the notification loop starts, [nextState] being what
    the reducer returned and [s] the store it left. *)
Definition commit (nextState : value) (s : store) : store :=
  set_currentListeners (Some (nextListeners s))
    (set_isDispatching false (set_currentState nextState s)).

(** What [dispatch] does with an action it accepted: the [try] block with
    its [finally], then the notification loop. *)
Definition proceed (run : prog value -> store -> outcome value) (fuel : nat)
    (action : value) (s : store) : outcome value :=
  match reducer_call run action s with
  | None => None
  | Some (Throw e, s1) => Some (Throw e, set_isDispatching false s1)
  | Some (Ok nextState, s1) =>
      match notify run fuel (dispatches s) (nextListeners s1) 0
              (commit nextState s1) with
      | None => None
      | Some (Throw e, s2) => Some (Throw e, s2)
      | Some (Ok _, s2) => Some (Ok action, s2)
      end
  end.

End Engine.

(** [f(...args)] written in a body, for a user function [f] whose body
    is in the table [body]. *)
Definition call_function (body : nat -> list value -> prog value)
    (f : value) (args : list value) : prog value :=
  match f with
  | VObject o =>
      if obj_callable o then body (obj_id o) args
      else Raise (TypeError "not a function")
  | _ => Raise (TypeError "not a function")
  end.

(** The identity of a function or object. *)
Definition identity (v : value) : option nat :=
  match v with
  | VObject o => Some (obj_id o)
  | _ => None
  end.

(** The listeners dispatch number [n] called, in the order of the calls. *)
Fixpoint notified (n : nat) (j : list event) : list value :=
  match j with
  | [] => []
  | Notified m listener :: rest =>
      if Nat.eqb m n then listener :: notified n rest else notified n rest
  | _ :: rest => notified n rest
  end.

(** The listeners whose subscription stands ([isSubscribed] is true). *)
Fixpoint active (subs : list (value * bool)) : list value :=
  match subs with
  | [] => []
  | (listener, isSubscribed) :: rest =>
      if isSubscribed then listener :: active rest else active rest
  end.

(** An event of dispatch number [n] or later; a mark has no number. *)
Definition since (n : nat) (e : event) : Prop :=
  match e with
  | Reduced m _ | Notified m _ => n <= m
  | Traced _ => True
  end.

(** An event of a dispatch before number [n]. *)
Definition before (n : nat) (e : event) : Prop :=
  match e with
  | Reduced m _ | Notified m _ => m < n
  | Traced _ => True
  end.

(** The invariant of the store: the two list variables name arrays that
    exist, the pending list holds exactly the listeners whose subscription
    stands (as many times as they subscribed), every subscriber is a
    function, and the journal is numbered below the next dispatch. *)
Record wf (s : store) : Prop := {
  wf_next : nextListeners s < length (arrays s);
  wf_current : forall ref, currentListeners s = Some ref -> ref < length (arrays s);
  wf_pending :
    Permutation (map identity (array s (nextListeners s)))
                (map identity (active (subscriptions s)));
  wf_functions :
    Forall (fun sub => is_function (fst sub) = true) (subscriptions s);
  wf_journal : Forall (before (dispatches s)) (journal s)
}.

(** An array that may be under iteration: it exists, and if it is the
    pending list it is also the committed one, so that the next change
    copies it first. *)
Definition guarded (ref : nat) (s : store) : Prop :=
  ref < length (arrays s) /\
  (nextListeners s = ref -> currentListeners s = Some ref).

(** [s'] is a state the store reaches from [s], by steps none of which is
    numbered below [n]: the invariant is kept, an array that may be under
    iteration is left as it is, and the journal only grows. *)
Record step (n : nat) (s s' : store) : Prop := {
  step_wf : wf s -> wf s';
  step_guarded :
    forall ref, guarded ref s ->
                guarded ref s' /\ arrays s' !! ref = arrays s !! ref;
  step_dispatches : dispatches s <= dispatches s';
  step_journal :
    exists ext, journal s' = journal s ++ ext /\ Forall (since n) ext
}.

(** The same for whole operations, which leave [isDispatching] as they
    found it, and which change nothing the listeners or the state depend on
    when they are made while dispatching. *)
Record later (n : nat) (s s' : store) : Prop := {
  later_step : step n s s';
  later_flag : isDispatching s' = isDispatching s;
  later_frozen :
    isDispatching s = true ->
    currentState s' = currentState s /\
    currentListeners s' = currentListeners s /\
    nextListeners s' = nextListeners s /\
    arrays s' = arrays s /\
    subscriptions s' = subscriptions s /\
    dispatches s' = dispatches s
}.

(** An operation that leaves the state alone unless a dispatch reaches the
    reducer meanwhile. *)
Definition settled {A B : Type} (f : A -> store -> outcome B) : Prop :=
  forall a s r s',
    f a s = Some (r, s') ->
    dispatches s' = dispatches s -> currentState s' = currentState s.

(** The variables of [createStore] before it dispatches the init action;
    [id] is the identity that action takes. *)
Definition fresh_store (reducer preloadedState : value) (id : nat) : store :=
  {| currentReducer := reducer; currentState := preloadedState;
     currentListeners := Some 0; nextListeners := 0;
     isDispatching := false; arrays := [[]]; subscriptions := [];
     next_id := S id; dispatches := 0; journal := [] |}.

(** [g] answers as [f] does wherever [f] comes to an end. *)
Definition extends {A B : Type} (f g : A -> store -> outcome B) : Prop :=
  forall a s x, f a s = Some x -> g a s = Some x.

(** An operation of the store that takes it to a later state whenever it
    comes to an end. *)
Definition sound {A B : Type} (f : A -> store -> outcome B) : Prop :=
  forall a s r s', f a s = Some (r, s') -> later (dispatches s) s s'.

(** The subscriptions of [s] are still there in [s'], each with its
    listener, and those that were removed are still removed. *)
Definition subscriptions_kept (s s' : store) : Prop :=
  forall subscription listener isSubscribed,
    subscriptions s !! subscription = Some (listener, isSubscribed) ->
    exists isSubscribed',
      subscriptions s' !! subscription = Some (listener, isSubscribed') /\
      (isSubscribed = false -> isSubscribed' = false).

(** An operation of the store that keeps the subscriptions in this sense
    whenever it comes to an end. *)
Definition keeping {A B : Type} (f : A -> store -> outcome B) : Prop :=
  forall a s r s', f a s = Some (r, s') -> subscriptions_kept s s'.

End CreateStore.

(** ** src/createStore.js: the observable adapter *)

Module Observable.
Import JS IsPlainObject CreateStore.

Section WithBodies.
Variable body : nat -> list value -> prog value.

(** [observeState], the closure over [observer]:
    [if (observer.next) { observer.next(getState()) }].  The argument is
    evaluated before the call is attempted. *)
Definition observeState (observer : object) : prog value :=
  if truthy (get observer "next") then
    GetState (fun r =>
      state ← rethrow r;
      call_function body (get observer "next") [state];;
      Ret VUndefined)
  else Ret VUndefined.

(** [observable().subscribe(observer)].  [closure] is the function object
    the runtime makes of [observeState] for this call; the table of bodies
    gives it the body [observeState observer].  The answer stands for the
    object [{ unsubscribe }]. *)
Definition observable_subscribe (observer closure : value) : prog nat :=
  if negb (String.eqb (typeof observer) "object") || strict_eq observer VNull
  then Raise (TypeError "Expected the observer to be an object.")
  else
    match observer with
    | VObject o => observeState o;; Subscribe closure rethrow
    | _ => Raise (TypeError "Expected the observer to be an object.")
    end.

(** The table of bodies knows the closure made for [observer]. *)
Definition observes (closure : value) (observer : object) : Prop :=
  is_function closure = true /\
  forall id args, identity closure = Some id ->
                  body id args = observeState observer.

End WithBodies.
End Observable.

(** ** src/bindActionCreators.js *)

Module BindActionCreators.
Import JS CreateStore.

(** A bound action creator is a function the library makes; it is kept as
    the function of its arguments that it is. *)
Definition bound : Type := list value -> prog value.

(** What [bindActionCreators] returns: one bound function, or the object
    [boundActionCreators]: its own properties in the order the runtime
    lists them, and its prototype, which is [Object.prototype] ([None])
    unless the loop made a bound function of it. *)
Inductive binding : Type :=
| BoundFunction (f : bound)
| BoundObject (proto : option bound) (props : list (string * bound)).

(** [boundActionCreators[key] = f], in the strict code of a module.  The
    object is made as [{}], so [__proto__] is the accessor of
    [Object.prototype] and assigning a function to it makes that function
    the prototype.  Any other name becomes a property of the object, or is
    overwritten, unless the prototype refuses, as a function does for the
    names of [function_refuses]: the members of [Object.prototype] never
    do. *)
Definition assign (key : string) (f : bound) (proto : option bound)
    (props : list (string * bound))
  : result (option bound * list (string * bound)) :=
  if String.eqb key "__proto__" then Ok (Some f, props)
  else
    match proto, assoc key props with
    | Some _, None =>
        if function_refuses key
        then Throw (TypeError
               ("Cannot assign to read only property '" +:+ key +:+
                "' of object"))
        else Ok (proto, set key f props)
    | _, _ => Ok (proto, set key f props)
    end.

(** The keys a [for (const key in o)] loop goes through: the own ones,
    then those of the prototype chain that were not met before. *)
Fixpoint for_in (o : object) : list string :=
  match o with
  | Obj _ _ proto ps =>
      match proto with
      | Some p =>
          map fst ps ++
          List.filter (fun key => negb (existsb (String.eqb key) (map fst ps)))
                      (for_in p)
      | None => map fst ps
      end
  end.

Section WithBodies.
Variable body : nat -> list value -> prog value.

(** [bindActionCreator]: the arguments go to the action creator, what it
    returns goes to [dispatch]. *)
Definition bindActionCreator (actionCreator : value)
    (dispatch : value -> prog value) : bound :=
  fun arguments =>
    action ← call_function body actionCreator arguments;
    dispatch action.

(** The loop over the keys [ks], from the object made so far. *)
Fixpoint bind_each (o : object) (dispatch : value -> prog value)
    (ks : list string) (proto : option bound) (props : list (string * bound))
  : result binding :=
  match ks with
  | [] => Ok (BoundObject proto props)
  | key :: rest =>
      let actionCreator := get o key in
      if is_function actionCreator then
        match assign key (bindActionCreator actionCreator dispatch)
                proto props with
        | Ok (proto', props') => bind_each o dispatch rest proto' props'
        | Throw e => Throw e
        end
      else bind_each o dispatch rest proto props
  end.

Definition bindActionCreators (actionCreators : value)
    (dispatch : value -> prog value) : result binding :=
  if is_function actionCreators then
    Ok (BoundFunction (bindActionCreator actionCreators dispatch))
  else if negb (String.eqb (typeof actionCreators) "object") ||
          strict_eq actionCreators VNull then
    Throw (Error
      ("bindActionCreators expected an object or a function, instead received " +:+
       (if strict_eq actionCreators VNull then "null" else typeof actionCreators) +:+
       ". " +:+
       "Did you write " +:+ dq +:+ "import ActionCreators from" +:+ dq +:+
       " instead of " +:+ dq +:+ "import * as ActionCreators from" +:+ dq +:+ "?"))
  else
    match actionCreators with
    | VObject o => bind_each o dispatch (for_in o) None []
    | _ => Ok (BoundObject None [])
    end.

End WithBodies.
End BindActionCreators.

(** ** src/applyMiddleware.js *)

Module ApplyMiddleware.
Import JS ActionTypes Compose CreateStore.

(** A dispatch function; the object [{ getState, dispatch }] a middleware
    receives; what a middleware returns; a middleware. *)
Definition handler : Type := value -> prog value.

Record middlewareAPI : Type := {
  api_getState : prog value;
  api_dispatch : handler
}.

Definition wrapper : Type := handler -> prog handler.

Definition middleware : Type := middlewareAPI -> prog wrapper.

(** The first value of the variable [dispatch]. *)
Definition constructing : handler := fun _ =>
  Raise (Error
    ("Dispatching while constructing your middleware is not allowed. " +:+
     "Other middleware would not be applied to this dispatch.")).

(** [store.dispatch] of the store [createStore] made. *)
Definition store_dispatch_field : handler := fun action =>
  RawDispatch action rethrow.

(** [middlewareAPI], for a store whose [getState] field is [getState]:
    [dispatch] forwards to whatever the variable [dispatch] holds when it
    is called, which is what [Dispatch] stands for in a body. *)
Definition middlewareAPI_of (getState : prog value) : middlewareAPI :=
  {| api_getState := getState;
     api_dispatch := fun action => Dispatch action rethrow |}.

(** [middlewareAPI] for the store [createStore] made. *)
Definition the_middlewareAPI : middlewareAPI :=
  middlewareAPI_of (GetState rethrow).

(** [middlewares.map(middleware => middleware(middlewareAPI))] *)
Fixpoint chain_on (api : middlewareAPI) (middlewares : list middleware)
  : prog (list wrapper) :=
  match middlewares with
  | [] => mret []
  | m :: rest =>
      w ← m api;
      ws ← chain_on api rest;
      mret (w :: ws)
  end.

Definition chain_of (middlewares : list middleware) : prog (list wrapper) :=
  chain_on the_middlewareAPI middlewares.

(** A call [w(next)] inside a composite: the argument is evaluated, then
    the function is applied to its value. *)
Definition called (w : wrapper) : prog handler -> prog handler :=
  fun next => next ≫= w.

(** [compose(...chain)(store.dispatch)], for a store whose [dispatch]
    field is [dispatch]. *)
Definition composed_on (dispatch : handler) (chain : list wrapper)
  : prog handler :=
  compose (map called chain) (mret dispatch).

(** The same for the store [createStore] made. *)
Definition composed (chain : list wrapper) : prog handler :=
  composed_on store_dispatch_field chain.

(** A middleware as they are written, [api => next => action => ...]:
    making the wrapper and the dispatch function has no effect. *)
Definition idiomatic (h : middlewareAPI -> handler -> handler) : middleware :=
  fun api => Ret (fun next => Ret (h api next)).

(** A middleware that leaves a mark in the journal and forwards. *)
Definition tracing (label : string) : middlewareAPI -> handler -> handler :=
  fun _ next action => Trace label (next action).

Section Enhancer.
Context `{Runtime}.
Variable body : nat -> list value -> prog value.

(** What the call [enhancer(createStore)(reducer, preloadedState)] that
    [createStore] hands over to answers, for an enhancer of the caller: the
    value returned, which the code takes for a store, and the state of the
    engine its functions work on. *)
Variable handed_over : value -> value -> value -> option (result (value * store)).

(** The fields [getState] and [dispatch] of the store, as functions to
    call, and the state of the engine: for the store [createStore] made,
    and for the value an enhancer returned.  Reading a field of [undefined]
    or [null] raises. *)
Definition store_fields (c : creation)
  : option (result (prog value * handler * store)) :=
  match c with
  | Created s => Some (Ok (GetState rethrow, store_dispatch_field, s))
  | Enhanced enhancer reducer preloadedState =>
      match handed_over enhancer reducer preloadedState with
      | None => None
      | Some (Throw e) => Some (Throw e)
      | Some (Ok (store, s)) =>
          match get_value store "getState", get_value store "dispatch" with
          | Ok getState, Ok dispatch =>
              Some (Ok (call_function body getState [],
                        fun action => call_function body dispatch [action],
                        s))
          | Throw e, _ | _, Throw e => Some (Throw e)
          end
      end
  end.

(** [applyMiddleware(...middlewares)(createStore)(reducer, preloadedState)]:
    the state of the engine, and the function put in the [dispatch] field
    of the store returned.  While the chain is built the variable
    [dispatch] holds [constructing]. *)
Definition applyMiddleware (middlewares : list middleware) (fuel : nat)
    (id : nat) (reducer preloadedState : value)
  : option (result (store * handler)) :=
  match createStore body constructing fuel id reducer preloadedState
          VUndefined VUndefined with
  | None => None
  | Some (Throw e) => Some (Throw e)
  | Some (Ok created) =>
      match store_fields created with
      | None => None
      | Some (Throw e) => Some (Throw e)
      | Some (Ok (getState, store_dispatch, s)) =>
          match run body constructing fuel _
                  (chain_on (middlewareAPI_of getState) middlewares) s with
          | None => None
          | Some (Throw e, _) => Some (Throw e)
          | Some (Ok chain, s) =>
              match run body constructing fuel _
                      (composed_on store_dispatch chain) s with
              | None => None
              | Some (Throw e, _) => Some (Throw e)
              | Some (Ok dispatch, s) => Some (Ok (s, dispatch))
              end
          end
      end
  end.

End Enhancer.
End ApplyMiddleware.

(** ** A small application, for the statements to be tried on *)

Module Demo.
Import JS ActionTypes IsPlainObject.

(** A development build whose random source always answers the same. *)
Definition runtime : Runtime :=
  {| production := false;
     random36 := fun _ => "0.4fzyo82mvyr";
     primitive_get := fun _ _ => VUndefined;
     primitive_keys := fun _ => [];
     class_name := fun _ => "Object";
     stringify := fun _ => Ok "value" |}.

(** The function object with identity [id]. *)
Definition fn (id : nat) : value := a_function id [].

Definition counter : value := fn 10.
Definition name : value := fn 11.

(** [counter]: initial state 0, one more on [INCREMENT].
    [name]: initial state the empty string, never changes.
    [silent]: answers [undefined] to everything. *)
Definition call (id : nat) (args : list value) : result value :=
  match id with
  | 10 =>
      let state := nth 0 args VUndefined in
      let action := nth 1 args VUndefined in
      let state :=
        if strict_eq state VUndefined then VNumber 0%float else state in
      match action with
      | VObject o =>
          if strict_eq (get o "type") (VString "INCREMENT") then
            match state with
            | VNumber x => Ok (VNumber (x + 1)%float)
            | _ => Ok state
            end
          else Ok state
      | _ => Ok state
      end
  | 11 =>
      let state := nth 0 args VUndefined in
      Ok (if strict_eq state VUndefined then VString "" else state)
  | _ => Ok VUndefined
  end.

(** [{ counter, name, version: 3 }] and [{ counter, oops: silent }] *)
Definition reducers : object :=
  Obj 13 false (Some Object_prototype)
    [("counter", counter); ("name", name); ("version", VNumber 3%float)].

(** [{ counter: 5, name: 'redux', stale: null }] *)
Definition state : object :=
  Obj 14 false (Some Object_prototype)
    [("counter", VNumber 5%float); ("name", VString "redux");
     ("stale", VNull)].

Definition increment : value := literal 15 [("type", VString "INCREMENT")].

(** [{ name }] and the state [{ name: NaN }] *)
Definition name_only : object :=
  Obj 13 false (Some Object_prototype) [("name", name)].
Definition nan_state : object :=
  Obj 14 false (Some Object_prototype) [("name", VNumber PrimFloat.nan)].

(** The world after the application created the objects above. *)
Definition world : CombineReducers.world :=
  {| CombineReducers.next_id := 20; CombineReducers.draws := 2;
     CombineReducers.console := []; CombineReducers.caches := [] |}.

(** [combineReducers(reducers)] and the world it leaves. *)
Definition combined : CombineReducers.combined :=
  match @CombineReducers.combineReducers runtime call (VObject reducers) world with
  | (Ok c, _) => c
  | (Throw _, _) =>
      {| CombineReducers.finalReducers := Object_prototype;
         CombineReducers.finalReducerKeys := [];
         CombineReducers.unexpectedKeyCache := None;
         CombineReducers.shapeAssertionError := None |}
  end.

Definition world_combined : CombineReducers.world :=
  snd (@CombineReducers.combineReducers runtime call (VObject reducers) world).

(** [combineReducers(name_only)] *)
Definition combined_name : CombineReducers.combined :=
  match @CombineReducers.combineReducers runtime call (VObject name_only) world with
  | (Ok c, _) => c
  | (Throw _, _) => combined
  end.

(** *** A store *)

(** The bodies of the functions the store is given:
    30 the counter reducer, which raises on [BOOM];
    31 a listener that unsubscribes the second subscription;
    32 a listener that does nothing;
    33 a reducer that calls the unsubscribe function of the first
       subscription and reports what came of it;
    61 and 62 the [getState] and the [dispatch] of a store that an enhancer
       made: [dispatch] leaves a mark and forwards to the store's own. *)
Definition body (id : nat) (args : list value) : CreateStore.prog value :=
  match id with
  | 30 =>
      match nth 1 args VUndefined with
      | VObject o =>
          if strict_eq (get o "type") (VString "BOOM")
          then CreateStore.Raise (Error "boom")
          else CreateStore.rethrow (call 10 args)
      | _ => CreateStore.rethrow (call 10 args)
      end
  | 31 => CreateStore.Unsubscribe 1 CreateStore.rethrow
  | 61 => CreateStore.GetState CreateStore.rethrow
  | 62 =>
      CreateStore.Trace "enhanced"
        (CreateStore.RawDispatch (nth 0 args VUndefined) CreateStore.rethrow)
  | 33 =>
      CreateStore.Unsubscribe 0
        (fun r =>
           match r with
           | Ok _ => CreateStore.Ret (VString "unsubscribe returned")
           | Throw _ => CreateStore.Ret (VString "unsubscribe raised")
           end)
  | _ => CreateStore.Ret VUndefined
  end.

(** The [dispatch] field of a store made by [createStore] alone. *)
Definition plain : value -> CreateStore.prog value :=
  ApplyMiddleware.store_dispatch_field.


Definition boom : value := literal 16 [("type", VString "BOOM")].

Definition no_store : CreateStore.store :=
  {| CreateStore.currentReducer := VUndefined;
     CreateStore.currentState := VUndefined;
     CreateStore.currentListeners := None;
     CreateStore.nextListeners := 0;
     CreateStore.isDispatching := false;
     CreateStore.arrays := [];
     CreateStore.subscriptions := [];
     CreateStore.next_id := 0;
     CreateStore.dispatches := 0;
     CreateStore.journal := [] |}.

Definition the_store (o : CreateStore.outcome value) : CreateStore.store :=
  match o with
  | Some (_, s) => s
  | None => no_store
  end.

(** [createStore(counter)] *)
Definition store0 : CreateStore.store :=
  match @CreateStore.createStore runtime body plain 3 20 (fn 30)
          VUndefined VUndefined VUndefined with
  | Some (Ok (CreateStore.Created s)) => s
  | _ => no_store
  end.

(** The enhancers of the application: the function 60, which makes the
    store [store0] and returns an object with a [getState] and a [dispatch]
    of its own; anything else is not an enhancer. *)
Definition handed_over (enhancer reducer preloadedState : value)
  : option (result (value * CreateStore.store)) :=
  match CreateStore.identity enhancer with
  | Some 60 =>
      Some (Ok (literal 63 [("getState", fn 61); ("dispatch", fn 62)], store0))
  | _ => Some (Throw (TypeError "enhancer is not a function"))
  end.

(** ... then [subscribe(listener31)], [subscribe(listener32)] *)
Definition store2 : CreateStore.store :=
  snd (CreateStore.subscribe (fn 32)
         (snd (CreateStore.subscribe (fn 31) store0))).

(** ... then a first and a second [dispatch(increment)] *)
Definition store3 : CreateStore.store :=
  the_store (@CreateStore.raw_dispatch runtime body plain 3 increment store2).
Definition store4 : CreateStore.store :=
  the_store (@CreateStore.raw_dispatch runtime body plain 3 increment store3).

(** [store2] after a [dispatch(boom)], which the reducer answers by
    raising *)
Definition store_boom : CreateStore.store :=
  the_store (@CreateStore.raw_dispatch runtime body plain 3 boom store2).

(** [createStore(reducer33)], [u = subscribe(listener32)], [u()] *)
Definition stale : CreateStore.store :=
  match @CreateStore.createStore runtime body plain 3 20 (fn 33)
          VUndefined VUndefined VUndefined with
  | Some (Ok (CreateStore.Created s)) =>
      snd (CreateStore.unsubscribe 0 (snd (CreateStore.subscribe (fn 32) s)))
  | _ => no_store
  end.

(** *** More functions, for the other parts of the library *)

(** [fussy]: a reducer that keeps its slice, [null] at first, and answers
    [undefined] to [DROP] (which breaks the reducer contract). *)
Definition fussy : value := fn 17.

Definition call_fussy (id : nat) (args : list value) : result value :=
  match id with
  | 17 =>
      let state := nth 0 args VUndefined in
      let state := if strict_eq state VUndefined then VNull else state in
      match nth 1 args VUndefined with
      | VObject o =>
          if strict_eq (get o "type") (VString "DROP") then Ok VUndefined
          else Ok state
      | _ => Ok state
      end
  | _ => call id args
  end.

(** [{ counter, fussy }], the state [{ counter: 5, fussy: null }] and the
    action [{ type: 'DROP' }] *)
Definition fussy_reducers : object :=
  Obj 13 false (Some Object_prototype)
    [("counter", counter); ("fussy", fussy)].
Definition fussy_state : object :=
  Obj 14 false (Some Object_prototype)
    [("counter", VNumber 5%float); ("fussy", VNull)].
Definition drop : value := literal 18 [("type", VString "DROP")].

Definition combined_fussy : CombineReducers.combined :=
  match @CombineReducers.combineReducers runtime call_fussy (VObject fussy_reducers)
          world with
  | (Ok c, _) => c
  | (Throw _, _) => combined
  end.

(** Reducers that are given names [Object.prototype] has too.
    [keeper] is [(s = 0, a) => s]; [strict] is [(s = 0, a) => a.type ? s : s],
    which raises when it is called without an action; [zero] is [() => 0];
    [touchy] raises the number 0 on the init action and answers 1 to
    everything else. *)
Definition keeper : value := fn 70.
Definition strict : value := fn 71.
Definition zero : value := fn 72.
Definition touchy : value := fn 73.

Definition call_members (id : nat) (args : list value) : result value :=
  match id with
  | 70 =>
      let state := nth 0 args VUndefined in
      Ok (if strict_eq state VUndefined then VNumber 0%float else state)
  | 71 =>
      let state := nth 0 args VUndefined in
      let state :=
        if strict_eq state VUndefined then VNumber 0%float else state in
      match nth 1 args VUndefined with
      | VUndefined | VNull =>
          Throw (TypeError "Cannot read properties of undefined (reading 'type')")
      | _ => Ok state
      end
  | 72 => Ok (VNumber 0%float)
  | 73 =>
      match nth 1 args VUndefined with
      | VObject o =>
          if strict_eq (get o "type") (VString (@INIT runtime))
          then Throw (Thrown (VNumber 0%float))
          else Ok (VNumber 1%float)
      | _ => Ok (VNumber 1%float)
      end
  | _ => call id args
  end.

(** [{ constructor: keeper }] and the state [{ x: 1 }];
    [{ hasOwnProperty: strict }];
    [{ hasOwnProperty: zero, counter }] and the states
    [{ hasOwnProperty: 5 }] and [{ hasOwnProperty: 5, counter: 1 }];
    [{ touchy }] and the state [{ touchy: 1 }]. *)
Definition constructor_reducers : object :=
  Obj 13 false (Some Object_prototype) [("constructor", keeper)].
Definition x_state : object :=
  Obj 14 false (Some Object_prototype) [("x", VNumber 1%float)].
Definition strict_reducers : object :=
  Obj 13 false (Some Object_prototype) [("hasOwnProperty", strict)].
Definition zero_reducers : object :=
  Obj 13 false (Some Object_prototype)
    [("hasOwnProperty", zero); ("counter", counter)].
Definition zero_state1 : object :=
  Obj 14 false (Some Object_prototype)
    [("hasOwnProperty", VNumber 5%float)].
Definition zero_state2 : object :=
  Obj 19 false (Some Object_prototype)
    [("hasOwnProperty", VNumber 5%float); ("counter", VNumber 1%float)].
Definition touchy_reducers : object :=
  Obj 13 false (Some Object_prototype) [("touchy", touchy)].
Definition touchy_state : object :=
  Obj 14 false (Some Object_prototype) [("touchy", VNumber 1%float)].

(** [combineReducers(rs)], or the combined reducer of the application when
    it raises. *)
Definition combined_members (rs : object) : CombineReducers.combined :=
  match @CombineReducers.combineReducers runtime call_members (VObject rs)
          world with
  | (Ok c, _) => c
  | (Throw _, _) => combined
  end.

Definition world_members (rs : object) : CombineReducers.world :=
  snd (@CombineReducers.combineReducers runtime call_members (VObject rs) world).

(** Reducers with a property of their own called [__proto__]:
    [{ ['__proto__']: counter, name }]. *)
Definition proto_reducers : object :=
  Obj 13 false (Some Object_prototype)
    [("__proto__", counter); ("name", name)].

(** [{ version: 3 }], an object without a reducer, and what
    [combineReducers] makes of it *)
Definition no_reducers : object :=
  Obj 13 false (Some Object_prototype) [("version", VNumber 3%float)].

Definition combined_none : CombineReducers.combined :=
  match @CombineReducers.combineReducers runtime call (VObject no_reducers) world with
  | (Ok c, _) => c
  | (Throw _, _) => combined
  end.

(** The body table with a listener that raises (34), an observer's [next]
    that leaves a mark (41), and the closure [observeState] made for that
    observer (42). *)
Definition observer : object :=
  Obj 40 false (Some Object_prototype) [("next", fn 41)].

Definition body_next (id : nat) (args : list value) : CreateStore.prog value :=
  match id with
  | 34 => CreateStore.Raise (Error "listener failed")
  | 41 => CreateStore.Trace "next" (CreateStore.Ret VUndefined)
  | _ => body id args
  end.

Definition body_observed (id : nat) (args : list value)
  : CreateStore.prog value :=
  match id with
  | 42 => Observable.observeState body_next observer
  | _ => body_next id args
  end.

(** [createStore(counter)], then [subscribe] of the listeners 32, 34 and
    31, in this order *)
Definition store_failing : CreateStore.store :=
  match @CreateStore.createStore runtime body_next plain 3 20 (fn 30)
          VUndefined VUndefined VUndefined with
  | Some (Ok (CreateStore.Created s)) =>
      snd (CreateStore.subscribe (fn 31)
             (snd (CreateStore.subscribe (fn 34)
                     (snd (CreateStore.subscribe (fn 32) s)))))
  | _ => no_store
  end.

(** Action creators: [{ add, label: 'x', reset }], where [add(n)] returns
    [{ type: 'INCREMENT' }] and [reset] raises. *)
Definition creators : object :=
  Obj 50 false (Some Object_prototype)
    [("add", fn 51); ("label", VString "x"); ("reset", fn 52)].

(** Action creators under array indices and names, own [{ 0, b }] over
    inherited [{ 1, z }]. *)
Definition indexed_creators : object :=
  Obj 54 false
    (Some (Obj 53 false (Some Object_prototype)
             [("1", fn 51); ("z", fn 52)]))
    [("0", fn 51); ("b", fn 52)].

(** Action creators with a property of their own called [__proto__]:
    [{ ['__proto__']: add, name: reset }]. *)
Definition proto_creators : object :=
  Obj 55 false (Some Object_prototype)
    [("__proto__", fn 51); ("name", fn 52)].

Definition body_creators (id : nat) (args : list value)
  : CreateStore.prog value :=
  match id with
  | 51 => CreateStore.Ret increment
  | 52 => CreateStore.Raise (Error "no reset")
  | _ => body id args
  end.

End Demo.

(** * Properties *)

(** ** The plain-object validator *)

Module IsPlainObjectFacts.
Import JS IsPlainObject.

(** Induction along a prototype chain. *)
Lemma object_chain_ind (P : object -> Prop) :
  (forall id c ps, P (Obj id c None ps)) ->
  (forall id c p ps, P p -> P (Obj id c (Some p) ps)) ->
  forall o, P o.
Proof.
  intros Hnone Hsome. fix IH 1.
  intros [id c [p|] ps].
  - apply Hsome, IH.
  - apply Hnone.
Qed.

Lemma chain_end_terminus (o : object) : terminus o (chain_end o).
Proof.
  induction o as [id c ps | id c p ps IH] using object_chain_ind.
  - now apply terminus_here.
  - simpl. now apply terminus_next with p.
Qed.

Lemma terminus_chain_end (o t : object) : terminus o t -> t = chain_end o.
Proof.
  induction 1 as [o Ho | o p t Ho _ IH].
  - destruct o as [id c [q|] ps]; simpl in *; congruence.
  - destruct o as [id c [q|] ps]; simpl in *; congruence.
Qed.

Lemma typeof_object_inv (v : value) :
  typeof v = "object" -> v = VNull \/ exists o, v = VObject o /\ obj_callable o = false.
Proof.
  destruct v as [| | b | x | s | o]; simpl; try discriminate; auto.
  destruct (obj_callable o) eqn:E; [discriminate|]. right. eauto.
Qed.

Lemma isPlainObject_object (o : object) :
  isPlainObject (VObject o) =
  negb (obj_callable o) && strict_eq (getPrototypeOf o) (VObject (chain_end o)).
Proof.
  unfold isPlainObject. simpl. destruct (obj_callable o); reflexivity.
Qed.

(** C9.  The validator answers [true] exactly for a value that is an
    object in the sense of [typeof] and not [null] (so not a function
    either), and whose immediate prototype is the last object of its own
    prototype chain.  Hence object literals pass; functions, arrays, dates,
    instances of a class and [null] do not; and an object made with a null
    prototype does not, since its chain ends at the object itself while its
    prototype is [null]. *)
Theorem isPlainObject_spec :
  (forall v,
     isPlainObject v = true <->
     exists o t,
       v = VObject o /\ typeof v = "object" /\
       terminus o t /\ strict_eq (getPrototypeOf o) (VObject t) = true) /\
  (forall id ps, isPlainObject (literal id ps) = true) /\
  (forall id ps, isPlainObject (a_function id ps) = false) /\
  (forall id ps, isPlainObject (an_array id ps) = false) /\
  (forall id, isPlainObject (a_date id) = false) /\
  (forall id c methods ps, isPlainObject (an_instance id c methods ps) = false) /\
  isPlainObject VNull = false /\
  (forall id ps, isPlainObject (a_bare_object id ps) = false).
Proof.
  split; [|repeat split; intros; reflexivity].
  intros v. split.
  - intros Hv. destruct v as [| | b | x | s | o]; try discriminate.
    rewrite isPlainObject_object in Hv.
    apply andb_true_iff in Hv as [Hc Heq].
    exists o, (chain_end o). repeat split.
    + simpl. destruct (obj_callable o); [discriminate | reflexivity].
    + apply chain_end_terminus.
    + exact Heq.
  - intros (o & t & -> & Hty & Ht & Heq).
    rewrite isPlainObject_object.
    apply terminus_chain_end in Ht. subst t. rewrite Heq.
    simpl in Hty. destruct (obj_callable o); [discriminate | reflexivity].
Qed.

(** An object whose prototype is itself an object without a prototype
    passes as well: its chain ends at its immediate prototype. *)
Lemma isPlainObject_bare_prototype (id p : nat)
    (ps methods : list (string * value)) :
  isPlainObject (VObject (Obj id false (Some (Obj p false None methods)) ps))
  = true.
Proof. unfold isPlainObject. simpl. apply Nat.eqb_refl. Qed.

Lemma chain_end_id (o : object) : In (obj_id (chain_end o)) (chain_ids o).
Proof.
  induction o as [id c ps | id c p ps IH] using object_chain_ind.
  - now left.
  - simpl. now right.
Qed.

(** In a heap, where the objects of a prototype chain are distinct, the
    validator answers [true] exactly for the objects one step away from
    the end of their chain: not a function, a prototype, and no prototype
    above that one.  Which object the prototype is does not matter, so an
    object literal of another realm passes too. *)
Theorem isPlainObject_one_step (o : object) :
  NoDup (chain_ids o) ->
  isPlainObject (VObject o) = true <->
  obj_callable o = false /\
  exists p, obj_proto o = Some p /\ obj_proto p = None.
Proof.
  intros Hnd. rewrite isPlainObject_object.
  destruct o as [id c [p|] ps]; simpl.
  - destruct p as [pid pc [q|] pps]; simpl.
    + replace (Nat.eqb pid (obj_id (chain_end q))) with false.
      * rewrite andb_false_r. split; [discriminate|].
        intros (_ & p & [= <-] & Hp). discriminate.
      * symmetry. apply Nat.eqb_neq. intros ->.
        simpl in Hnd. apply NoDup_cons in Hnd as [_ Hnd].
        apply NoDup_cons in Hnd as [Hnotin _].
        apply Hnotin, list_elem_of_In, chain_end_id.
    + rewrite Nat.eqb_refl, andb_true_r. split.
      * intros Hc. split; [now destruct c|]. eauto.
      * now intros [-> _].
  - rewrite andb_false_r. split; [discriminate|].
    intros (_ & p & Hp & _). discriminate.
Qed.

Lemma isPlainObject_one_step_witness :
  isPlainObject (literal 5 [("type", VString "INCREMENT")]) = true <->
  obj_callable (Obj 5 false (Some Object_prototype)
                  [("type", VString "INCREMENT")]) = false /\
  exists p,
    obj_proto (Obj 5 false (Some Object_prototype)
                 [("type", VString "INCREMENT")]) = Some p /\
    obj_proto p = None.
Proof.
  apply (isPlainObject_one_step
           (Obj 5 false (Some Object_prototype) [("type", VString "INCREMENT")])).
  apply (bool_decide_unpack _). vm_compute. exact I.
Defined.

End IsPlainObjectFacts.

(** ** The function composer *)

Module ComposeFacts.
Import Compose.

Lemma fold_left_compose {A : Type} (rest : list (A -> A)) (f : A -> A) (x : A) :
  fold_left (fun a b => fun args => a (b args)) rest f x =
  f (fold_right (fun g acc => g acc) x rest).
Proof.
  revert f. induction rest as [|g rest IH]; intros f; simpl.
  - reflexivity.
  - now rewrite IH.
Qed.

(** The composite applies the functions from the last to the first. *)
Lemma compose_right_to_left {A : Type} (funcs : list (A -> A)) (x : A) :
  compose funcs x = fold_right (fun g acc => g acc) x funcs.
Proof.
  destruct funcs as [|f [|g rest]]; try reflexivity.
  unfold compose, compose_with. now rewrite fold_left_compose.
Qed.

Lemma compose_cons {A : Type} (f : A -> A) (funcs : list (A -> A)) (x : A) :
  compose (f :: funcs) x = f (compose funcs x).
Proof.
  destruct funcs as [|g rest]; [reflexivity|].
  unfold compose, compose_with. rewrite fold_left_compose.
  destruct rest as [|h rest]; [reflexivity|].
  now rewrite fold_left_compose.
Qed.

(** Composing a list of functions in one call, or its two halves in two
    calls, comes to the same: [compose(...fs, ...gs)] behaves as
    [compose(compose(...fs), compose(...gs))]. *)
Theorem compose_app {A : Type} (fs gs : list (A -> A)) (x : A) :
  compose (fs ++ gs) x = compose [compose fs; compose gs] x.
Proof.
  change (compose [compose fs; compose gs] x) with (compose fs (compose gs x)).
  induction fs as [|f fs IH]; [reflexivity|].
  rewrite <- app_comm_cons, !compose_cons. now rewrite IH.
Qed.

Lemma fold_left_composite {A : Type} (rest : list (func A)) (f : func A)
    (x : A) :
  behaviour (fold_left Composite rest f) x =
  behaviour f (fold_right (fun g acc => behaviour g acc) x rest).
Proof.
  revert f. induction rest as [|g rest IH]; intros f; simpl.
  - reflexivity.
  - now rewrite IH.
Qed.

(** C8.  [compose(f, g, h)(x)] is [f(g(h(x)))]; [compose()] returns its
    argument; [compose(f)] is the function value [f] itself, with the
    identity it came with, and no new function around it.  What the
    function value returned computes is in every case the composite of what
    the functions compute. *)
Theorem compose_spec :
  (forall (A : Type) (f g h : A -> A) (x : A),
     compose [f; g; h] x = f (g (h x))) /\
  (forall (A : Type) (x : A), compose (@nil (A -> A)) x = x) /\
  (forall (A : Type) (f : func A), compose_values [f] = f) /\
  (forall (A : Type) (funcs : list (func A)) (x : A),
     behaviour (compose_values funcs) x = compose (map behaviour funcs) x).
Proof.
  split; [|split; [|split]]; intros.
  - unfold compose, compose_with. now rewrite fold_left_compose.
  - reflexivity.
  - reflexivity.
  - destruct funcs as [|f [|g rest]]; try reflexivity.
    unfold compose_values, compose, compose_with. cbn [map].
    rewrite fold_left_composite, fold_left_compose. simpl. f_equal. f_equal.
    induction rest as [|h rest IH]; simpl; [reflexivity | now rewrite IH].
Qed.

End ComposeFacts.

(** ** The reserved action types *)

Module ActionTypesFacts.
Import JS ActionTypes.

Lemma substring_from_length (n : nat) (s : string) :
  String.length (substring_from n s) = String.length s - n.
Proof.
  revert s. induction n as [|n IH]; intros [|c s]; simpl; auto.
Qed.

Lemma substring_from_get (n i : nat) (s : string) :
  String.get i (substring_from n s) = String.get (n + i) s.
Proof.
  revert s. induction n as [|n IH]; intros [|c s]; simpl; auto.
Qed.

Lemma split_join_dot_length (s : string) :
  String.length (split_join_dot s) = 2 * String.length s - 1.
Proof.
  induction s as [|c [|d s] IH]; simpl in *; try reflexivity. lia.
Qed.

Lemma split_join_dot_even (s : string) (i : nat) :
  String.get (2 * i) (split_join_dot s) = String.get i s.
Proof.
  revert i. induction s as [|c s IH]; intros i; [now destruct i|].
  destruct i as [|i].
  - now destruct s.
  - replace (2 * S i) with (S (S (2 * i))) by lia.
    destruct s as [|d s]; [now destruct i|].
    change (split_join_dot (String c (String d s)))
      with (String c (String "."%char (split_join_dot (String d s)))).
    simpl String.get at 1. apply IH.
Qed.

Lemma split_join_dot_odd (s : string) (i : nat) :
  S i < String.length s ->
  String.get (2 * i + 1) (split_join_dot s) = Some "."%char.
Proof.
  revert i. induction s as [|c s IH]; intros i; simpl String.length; [lia|].
  destruct s as [|d s]; [simpl; lia|]. intros Hi.
  change (split_join_dot (String c (String d s)))
    with (String c (String "."%char (split_join_dot (String d s)))).
  destruct i as [|i]; [reflexivity|].
  replace (2 * S i + 1) with (S (S (2 * i + 1))) by lia.
  simpl String.get at 1. apply IH. simpl in *. lia.
Qed.

Section Facts.
Context `{Runtime}.

(** The reserved action types.  The three of them carry the prefix
    [@@redux/] and differ from one another whatever the random source
    gives: the probe of [assertReducerShape] is never the init action
    again, nor the replace action.  The random part, [randomString()],
    drops the first seven characters of the base-36 rendering of the random
    number and puts a dot between the ones that are left: the characters at
    the even positions are those characters, in order, the odd positions
    hold dots, and the string does not end in a dot.  A rendering of seven
    characters or fewer (as for a draw of 0) leaves the empty string. *)
Theorem reserved_types_shape :
  INIT <> REPLACE /\
  (forall n, PROBE_UNKNOWN_ACTION n <> INIT /\ PROBE_UNKNOWN_ACTION n <> REPLACE) /\
  String.prefix "@@redux/" INIT = true /\
  String.prefix "@@redux/" REPLACE = true /\
  (forall n, String.prefix "@@redux/" (PROBE_UNKNOWN_ACTION n) = true) /\
  (forall n,
     String.length (randomString n)
     = 2 * (String.length (random36 n) - 7) - 1) /\
  (forall n i,
     String.get (2 * i) (randomString n) = String.get (7 + i) (random36 n)) /\
  (forall n i,
     8 + i < String.length (random36 n) ->
     String.get (2 * i + 1) (randomString n) = Some "."%char) /\
  (forall n, String.length (random36 n) <= 7 -> randomString n = "").
Proof.
  unfold INIT, REPLACE, PROBE_UNKNOWN_ACTION.
  split; [simpl; discriminate|].
  split; [intros n; split; simpl; discriminate|].
  do 3 (split; [intros; reflexivity|]).
  unfold randomString. split; [|split; [|split]].
  - intros n. now rewrite split_join_dot_length, substring_from_length.
  - intros n i. now rewrite split_join_dot_even, substring_from_get.
  - intros n i Hi. apply split_join_dot_odd.
    rewrite substring_from_length. lia.
  - intros n Hlen.
    assert (Hs : String.length (substring_from 7 (random36 n)) = 0)
      by (rewrite substring_from_length; lia).
    destruct (substring_from 7 (random36 n)); [reflexivity | discriminate].
Qed.
End Facts.
End ActionTypesFacts.

(** ** Property lists *)

Module JSFacts.
Import JS.

(** *** Looking up and setting *)

Lemma assoc_in_keys {A : Type} (key : string) (v : A) (ps : list (string * A)) :
  assoc key ps = Some v -> In key (map fst ps).
Proof.
  induction ps as [|[k w] ps IH]; simpl; [discriminate|].
  destruct (String.eqb_spec k key); auto.
Qed.

Lemma in_keys_assoc {A : Type} (key : string) (ps : list (string * A)) :
  In key (map fst ps) -> exists v, assoc key ps = Some v.
Proof.
  induction ps as [|[k v] ps IH]; simpl; [tauto|].
  intros [->|Hin].
  - rewrite String.eqb_refl. eauto.
  - destruct (String.eqb k key); eauto.
Qed.

Lemma assoc_notin {A : Type} (key : string) (ps : list (string * A)) :
  ~ In key (map fst ps) -> assoc key ps = None.
Proof.
  intros Hin. destruct (assoc key ps) as [v|] eqn:Hv; [|reflexivity].
  exfalso. eapply Hin, assoc_in_keys, Hv.
Qed.

Lemma keys_overwrite {A : Type} (key : string) (v : A) (ps : list (string * A)) :
  map fst (overwrite_key key v ps) = map fst ps.
Proof.
  induction ps as [|[k w] ps IH]; simpl; [reflexivity|].
  destruct (String.eqb k key); simpl; [reflexivity | now rewrite IH].
Qed.

Lemma keys_set_in {A : Type} (key : string) (v : A) (ps : list (string * A)) :
  In key (map fst ps) -> map fst (set key v ps) = map fst ps.
Proof.
  intros Hin. unfold set.
  destruct (in_keys_assoc key ps Hin) as [w ->]. apply keys_overwrite.
Qed.

Lemma in_keys_define {A : Type} (key k : string) (v : A)
    (ps : list (string * A)) :
  In k (map fst (define_key key v ps)) <-> k = key \/ In k (map fst ps).
Proof.
  induction ps as [|[k' w] ps IH]; simpl.
  - intuition.
  - destruct (precedes key k'); simpl; [intuition|].
    rewrite IH. intuition.
Qed.

Lemma in_keys_set {A : Type} (key k : string) (v : A) (ps : list (string * A)) :
  In k (map fst (set key v ps)) <-> k = key \/ In k (map fst ps).
Proof.
  unfold set. destruct (assoc key ps) as [w|] eqn:Hw.
  - rewrite keys_overwrite. apply assoc_in_keys in Hw.
    split; [auto | intros [->|]; assumption].
  - apply in_keys_define.
Qed.

(** The order of the keys: [precedes] is a strict order in which the keys
    that are no array index come last, none before another. *)
Lemma precedes_asym (a b : string) :
  precedes a b = true -> precedes b a = false.
Proof.
  unfold precedes.
  destruct (array_index a) as [i|], (array_index b) as [j|];
    try discriminate; try reflexivity.
  rewrite N.ltb_lt, N.ltb_ge. lia.
Qed.

Lemma precedes_later (key k x : string) :
  precedes key k = true -> precedes x k = false -> precedes x key = false.
Proof.
  unfold precedes.
  destruct (array_index key) as [i|], (array_index k) as [j|],
    (array_index x) as [m|]; try discriminate; try reflexivity.
  rewrite N.ltb_lt, !N.ltb_ge. lia.
Qed.

Lemma key_order_cons (k : string) (ks : list string) :
  key_order (k :: ks) <->
  key_order ks /\ Forall (fun x => precedes x k = false) ks.
Proof.
  unfold key_order. split.
  - intros Hs. now inversion Hs.
  - intros [Hs Hall]. now constructor.
Qed.

Lemma key_order_app_last (ks : list string) (key : string) (rest : list string) :
  key_order (ks ++ key :: rest) ->
  Forall (fun k => precedes key k = false) ks /\ key_order (ks ++ [key]).
Proof.
  induction ks as [|k ks IH]; simpl.
  - intros _. split; [constructor|]. apply key_order_cons. split; constructor.
  - rewrite key_order_cons. intros [Hs Hall].
    destruct (IH Hs) as [Hks Hord]. rewrite Forall_app in Hall.
    destruct Hall as [Hall1 Hall2]. inversion Hall2; subst.
    split; [now constructor|].
    apply key_order_cons. split; [assumption|].
    rewrite Forall_app. split; [assumption | now repeat constructor].
Qed.

Lemma define_key_last {A : Type} (key : string) (v : A)
    (ps : list (string * A)) :
  Forall (fun k => precedes key k = false) (map fst ps) ->
  define_key key v ps = ps ++ [(key, v)].
Proof.
  induction ps as [|[k w] ps IH]; simpl; [reflexivity|].
  intros Hall. inversion Hall as [|? ? Hk Hrest]; subst. simpl in Hk.
  rewrite Hk. f_equal. now apply IH.
Qed.

Lemma key_order_define {A : Type} (key : string) (v : A)
    (ps : list (string * A)) :
  key_order (map fst ps) -> key_order (map fst (define_key key v ps)).
Proof.
  induction ps as [|[k w] ps IH]; simpl.
  - intros _. apply key_order_cons. split; constructor.
  - rewrite key_order_cons. intros [Hs Hall].
    destruct (precedes key k) eqn:Hp; simpl.
    + apply key_order_cons. split.
      * apply key_order_cons. now split.
      * constructor; [now apply precedes_asym|].
        eapply Forall_impl; [exact Hall|].
        intros x Hx. simpl in Hx. now apply (precedes_later key k).
    + apply key_order_cons. split; [now apply IH|].
      apply List.Forall_forall. intros x Hx.
      apply in_keys_define in Hx as [->|Hx]; [assumption|].
      rewrite List.Forall_forall in Hall. now apply Hall.
Qed.

Lemma key_order_set {A : Type} (key : string) (v : A) (ps : list (string * A)) :
  key_order (map fst ps) -> key_order (map fst (set key v ps)).
Proof.
  unfold set. destruct (assoc key ps).
  - now rewrite keys_overwrite.
  - apply key_order_define.
Qed.

Lemma NoDup_keys_define {A : Type} (key : string) (v : A)
    (ps : list (string * A)) :
  ~ In key (map fst ps) -> NoDup (map fst ps) ->
  NoDup (map fst (define_key key v ps)).
Proof.
  induction ps as [|[k w] ps IH]; simpl; intros Hin Hnd.
  - apply NoDup_singleton.
  - destruct (precedes key k); simpl.
    + apply NoDup_cons_2; [|assumption].
      rewrite list_elem_of_In. simpl. tauto.
    + apply NoDup_cons in Hnd as [Hk Hnd].
      apply NoDup_cons_2.
      * rewrite list_elem_of_In, in_keys_define.
        rewrite list_elem_of_In in Hk. intros [->|]; tauto.
      * apply IH; tauto.
Qed.

Lemma NoDup_keys_set {A : Type} (key : string) (v : A) (ps : list (string * A)) :
  NoDup (map fst ps) -> NoDup (map fst (set key v ps)).
Proof.
  intros Hnd. unfold set. destruct (assoc key ps) as [w|] eqn:Hw.
  - now rewrite keys_overwrite.
  - apply NoDup_keys_define; [|assumption].
    intros Hin. apply in_keys_assoc in Hin as [x Hx]. congruence.
Qed.

Lemma set_last {A : Type} (key : string) (v : A) (ps : list (string * A)) :
  ~ In key (map fst ps) ->
  Forall (fun k => precedes key k = false) (map fst ps) ->
  set key v ps = ps ++ [(key, v)].
Proof.
  intros Hin Hall. unfold set. rewrite assoc_notin by assumption.
  now apply define_key_last.
Qed.

Lemma assoc_overwrite {A : Type} (key k : string) (v : A)
    (ps : list (string * A)) :
  assoc key (overwrite_key k v ps) =
  if String.eqb k key then
    match assoc k ps with Some _ => Some v | None => None end
  else assoc key ps.
Proof.
  induction ps as [|[k' w] ps IH]; simpl.
  - now destruct (String.eqb k key).
  - destruct (String.eqb_spec k' k) as [->|Hne]; simpl.
    + destruct (String.eqb k key); reflexivity.
    + rewrite IH. destruct (String.eqb_spec k' key) as [->|Hne'].
      * destruct (String.eqb_spec k key); [congruence | reflexivity].
      * reflexivity.
Qed.

Lemma assoc_define {A : Type} (key k : string) (v : A)
    (ps : list (string * A)) :
  assoc k ps = None ->
  assoc key (define_key k v ps) =
  if String.eqb k key then Some v else assoc key ps.
Proof.
  induction ps as [|[k' w] ps IH]; simpl.
  - reflexivity.
  - destruct (String.eqb_spec k' k) as [->|Hne]; [discriminate|].
    intros Hk. destruct (precedes k k'); simpl.
    + destruct (String.eqb_spec k key) as [->|Hne'].
      * reflexivity.
      * reflexivity.
    + rewrite IH by assumption.
      destruct (String.eqb_spec k' key) as [->|Hne'].
      * destruct (String.eqb_spec k key); [congruence | reflexivity].
      * reflexivity.
Qed.

Lemma assoc_set {A : Type} (key k : string) (v : A) (ps : list (string * A)) :
  assoc key (set k v ps) = if String.eqb k key then Some v else assoc key ps.
Proof.
  unfold set. destruct (assoc k ps) as [w|] eqn:Hw.
  - rewrite assoc_overwrite, Hw. reflexivity.
  - now apply assoc_define.
Qed.


(** Filling an object with one property per key, the keys distinct, new
    and in the order of the runtime, lists the properties in the order of
    the keys. *)
Lemma fold_set_fresh {A : Type} (f : string -> A) (ks : list string)
    (ns : list (string * A)) :
  NoDup (map fst ns ++ ks) -> key_order (map fst ns ++ ks) ->
  fold_left (fun ns key => set key (f key) ns) ks ns =
  ns ++ map (fun key => (key, f key)) ks.
Proof.
  revert ns. induction ks as [|k ks IH]; intros ns Hnd Hord; simpl.
  - now rewrite app_nil_r.
  - assert (Hk : ~ In k (map fst ns)).
    { apply NoDup_app in Hnd as (_ & Hd & _). intros Hin.
      apply (Hd k); [now apply list_elem_of_In | left]. }
    destruct (key_order_app_last _ _ _ Hord) as [Hlast _].
    rewrite set_last by assumption.
    rewrite IH.
    + now rewrite <- app_assoc.
    + rewrite map_app. simpl. now rewrite <- app_assoc.
    + rewrite map_app. simpl. now rewrite <- app_assoc.
Qed.

(** Taking a key out of a list of keys leaves it in order. *)
Lemma key_order_app_drop (ks : list string) (key : string) (rest : list string) :
  key_order (ks ++ key :: rest) -> key_order (ks ++ rest).
Proof.
  induction ks as [|k ks IH]; simpl.
  - rewrite key_order_cons. tauto.
  - rewrite !key_order_cons, !Forall_app. intros [Hs [Hall1 Hall2]].
    inversion Hall2; subst. auto.
Qed.

(** A new key that is no array index goes last; one that is an array index
    goes somewhere among the others, which keep their order. *)
Lemma named_keys_define {A : Type} (key : string) (v : A)
    (ps : list (string * A)) :
  List.filter (fun k => negb (is_index k)) (map fst (define_key key v ps)) =
  List.filter (fun k => negb (is_index k)) (map fst ps) ++
  (if is_index key then [] else [key]).
Proof.
  destruct (is_index key) eqn:Hkey.
  - rewrite app_nil_r.
    induction ps as [|[k w] ps IH]; simpl.
    + now rewrite Hkey.
    + destruct (precedes key k); simpl.
      * now rewrite Hkey.
      * now rewrite IH.
  - rewrite define_key_last.
    + rewrite map_app, List.filter_app. simpl. now rewrite Hkey.
    + apply List.Forall_forall. intros k _. unfold precedes.
      unfold is_index in Hkey. now destruct (array_index key).
Qed.

End JSFacts.

(** ** The reducer combinator *)

Module CombineReducersFacts.
Import JS ActionTypes IsPlainObject CombineReducers JSFacts.


Section Facts.
Context `{Runtime}.
Variable call : nat -> list value -> result value.

(** *** Reading properties *)

Lemma get_own (o : object) (key : string) (v : value) :
  assoc key (obj_props o) = Some v -> get o key = v.
Proof. destruct o as [id cl proto ps]. simpl. unfold get. simpl. now intros ->. Qed.

Lemma get_value_truthy (a : value) (key : string) :
  truthy a = true -> exists v, get_value a key = Ok v.
Proof. destruct a; simpl; try discriminate; eauto. Qed.

Lemma action_has_type_ok (a : value) (t : string) :
  exists b, action_has_type a t = Ok b.
Proof.
  unfold action_has_type. destruct (truthy a) eqn:E; [|eauto].
  destruct (get_value_truthy a "type" E) as [v ->]. run_M. eauto.
Qed.

Lemma isPlainObject_keys (v : value) :
  isPlainObject v = true -> exists o, v = VObject o.
Proof. destruct v; try discriminate. eauto. Qed.

(** *** The diagnostic *)

(** The filter of the diagnostic returns exactly when each of its
    own-property tests does, and then it keeps the keys that fail the test
    and are not in the cache. *)
Lemma unexpected_among_tested (fr : object) (cache : list (string * value))
    (ks : list string) :
  Forall (key_tested call fr) ks ->
  unexpected_among call fr (Some cache) ks =
  Ok (List.filter
        (fun key =>
           negb (key_owned call fr key) && negb (truthy (cache_get cache key)))
        ks).
Proof.
  induction 1 as [|key ks [r Hr] _ IH]; [reflexivity|].
  simpl. unfold key_owned at 1. rewrite Hr, IH. run_M.
  destruct (truthy r); reflexivity.
Qed.

Lemma unexpected_among_inv (fr : object)
    (cache : option (list (string * value))) (ks uks : list string) :
  unexpected_among call fr cache ks = Ok uks -> Forall (key_tested call fr) ks.
Proof.
  revert uks. induction ks as [|key ks IH]; intros uks; [constructor|].
  simpl. run_M.
  destruct (own_property_test call fr key) as [r|e] eqn:Hr; [|discriminate].
  destruct (if truthy r then _ else _) as [b|e]; [|discriminate].
  destruct (unexpected_among call fr cache ks) as [others|e]; [|discriminate].
  intros _. constructor; [now exists r | now apply (IH others)].
Qed.

(** The diagnostic writes nothing itself and creates no object, however it
    ends. *)
Lemma warning_message_quiet (state : value) (fr : object) (action : value)
    (cache : option nat) (w w' : world) (r : result (option string)) :
  getUnexpectedStateShapeWarningMessage call state fr action cache w = (r, w') ->
  console w' = console w /\ next_id w' = next_id w.
Proof.
  unfold getUnexpectedStateShapeWarningMessage.
  destruct (action_has_type_ok action INIT) as [isInit HI].
  destruct (action_has_type_ok action REPLACE) as [isReplace HR].
  run_M. rewrite HI.
  destruct (Nat.eqb _ 0); [now intros [= _ <-]|].
  destruct (isPlainObject state) eqn:Hplain; simpl; [|now intros [= _ <-]].
  apply isPlainObject_keys in Hplain as [o ->]. simpl.
  unfold unexpected_keys, read_cache, mark_unexpected. run_M.
  destruct cache as [ref|]; run_M.
  - destruct (unexpected_among call fr _ (keys o)) as [uks|e];
      [|now intros [= _ <-]].
    rewrite HR. destruct isReplace; [now intros [= _ <-]|].
    destruct (Nat.ltb 0 _); now intros [= _ <-].
  - destruct (unexpected_among call fr _ (keys o)) as [uks|e];
      [|now intros [= _ <-]].
    rewrite HR. destruct isReplace; [now intros [= _ <-]|].
    destruct (Nat.ltb 0 _); now intros [= _ <-].
Qed.

(** The diagnostic on a plain state object, for a combined reducer with at
    least one reducer, when the own-property tests return: the keys that
    fail the test and are not in the cache yet are put in the cache;
    nothing else of the world changes. *)
Lemma warning_message_run (s fr : object) (action : value) (ref : nat)
    (w : world) :
  keys fr <> [] -> isPlainObject (VObject s) = true ->
  Forall (key_tested call fr) (keys s) ->
  exists m,
    getUnexpectedStateShapeWarningMessage call (VObject s) fr action (Some ref) w
    = (Ok m,
       {| next_id := next_id w; draws := draws w; console := console w;
          caches :=
            <[ref := fold_left (fun c k => set k (VBool true) c)
                       (List.filter
                          (fun key =>
                             negb (key_owned call fr key) &&
                             negb (truthy (cache_get (default [] (caches w !! ref)) key)))
                          (keys s))
                       (default [] (caches w !! ref))]> (caches w) |}) /\
    (List.filter
       (fun key =>
          negb (key_owned call fr key) &&
          negb (truthy (cache_get (default [] (caches w !! ref)) key)))
       (keys s) = [] -> m = None).
Proof.
  intros Hkeys Hplain Htested. unfold getUnexpectedStateShapeWarningMessage.
  destruct (action_has_type_ok action INIT) as [isInit HI].
  destruct (action_has_type_ok action REPLACE) as [isReplace HR].
  run_M. rewrite HI.
  destruct (keys fr) as [|k0 ks0] eqn:Hk; [contradiction|].
  rewrite <- Hk. replace (Nat.eqb (length (keys fr)) 0) with false
    by (now rewrite Hk).
  rewrite Hplain. simpl.
  unfold unexpected_keys, read_cache, mark_unexpected. run_M.
  rewrite (unexpected_among_tested _ _ _ Htested).
  rewrite HR.
  set (uks := List.filter _ (keys s)).
  destruct isReplace.
  - eexists. split; [reflexivity | reflexivity].
  - destruct uks as [|u uks'] eqn:Hu; simpl.
    + eexists. split; [reflexivity | reflexivity].
    + eexists. split; [reflexivity | discriminate].
Qed.

Lemma warning_message_inv (s fr : object) (action : value)
    (cache : option nat) (w w' : world) (m : option string) :
  keys fr <> [] -> isPlainObject (VObject s) = true ->
  getUnexpectedStateShapeWarningMessage call (VObject s) fr action cache w
  = (Ok m, w') ->
  Forall (key_tested call fr) (keys s).
Proof.
  intros Hkeys Hplain. unfold getUnexpectedStateShapeWarningMessage.
  destruct (action_has_type_ok action INIT) as [isInit HI].
  run_M. rewrite HI.
  destruct (keys fr) as [|k0 ks0] eqn:Hk; [contradiction|].
  rewrite <- Hk. replace (Nat.eqb (length (keys fr)) 0) with false
    by (now rewrite Hk).
  rewrite Hplain. simpl.
  unfold unexpected_keys, read_cache. run_M.
  destruct cache as [ref|]; run_M.
  - destruct (unexpected_among call fr _ (keys s)) as [uks|e] eqn:Hu;
      [|discriminate].
    intros _. eapply unexpected_among_inv, Hu.
  - destruct (unexpected_among call fr _ (keys s)) as [uks|e] eqn:Hu;
      [|discriminate].
    intros _. eapply unexpected_among_inv, Hu.
Qed.

(** A state the diagnostic does not look into: there is no reducer, or the
    state is not a plain object. *)
Lemma warning_message_early (state : value) (fr : object) (action : value)
    (cache : option nat) (w : world) :
  keys fr = [] \/ isPlainObject state = false ->
  exists m,
    getUnexpectedStateShapeWarningMessage call state fr action cache w
    = (Ok (Some m), w).
Proof.
  intros Hearly. unfold getUnexpectedStateShapeWarningMessage.
  destruct (action_has_type_ok action INIT) as [isInit HI].
  run_M. rewrite HI.
  destruct (Nat.eqb_spec (length (keys fr)) 0) as [Hlen|Hlen]; [eauto|].
  destruct Hearly as [Hk|Hp].
  - rewrite Hk in Hlen. contradiction.
  - rewrite Hp. simpl. eauto.
Qed.

Lemma diagnostic_ok (c : combined) (s : object) (action : value) (w : world) :
  well_formed c -> diagnosed call c s ->
  exists w',
    diagnostic call c (VObject s) action w = (Ok tt, w') /\
    next_id w' = next_id w.
Proof.
  intros (Hkeys & _ & _ & Hcache) Hdiag. unfold diagnostic.
  destruct production eqn:Hprod; simpl; [eauto|].
  destruct (Hcache eq_refl) as [ref Href]. rewrite Href.
  assert (Hm : exists m w1,
    getUnexpectedStateShapeWarningMessage call (VObject s) (finalReducers c)
      action (Some ref) w = (Ok m, w1)).
  { assert (Hdec : keys (finalReducers c) = [] \/ keys (finalReducers c) <> [])
      by (destruct (keys (finalReducers c)); [now left | now right]).
    destruct Hdec as [Hk|Hk].
    - destruct (warning_message_early (VObject s) (finalReducers c) action
                  (Some ref) w (or_introl Hk)) as [m Hm]. eauto.
    - destruct (isPlainObject (VObject s)) eqn:Hp.
      + destruct (warning_message_run s (finalReducers c) action ref w Hk Hp)
          as (m & Hm & _); [|eauto].
        apply Hdiag; [exact Hprod | now rewrite Hkeys | assumption].
      + destruct (warning_message_early (VObject s) (finalReducers c) action
                    (Some ref) w (or_intror Hp)) as [m Hm]. eauto. }
  destruct Hm as (m & w1 & Hm).
  destruct (warning_message_quiet _ _ _ _ _ _ _ Hm) as [_ Hid].
  run_M. rewrite Hm. destruct m as [message|]; simpl; eauto.
Qed.

Lemma diagnostic_inv (c : combined) (s : object) (action : value)
    (w w' : world) (u : unit) :
  well_formed c ->
  diagnostic call c (VObject s) action w = (Ok u, w') ->
  diagnosed call c s /\ next_id w' = next_id w.
Proof.
  intros (Hkeys & _ & _ & Hcache). unfold diagnostic, diagnosed.
  destruct production eqn:Hprod; simpl.
  - intros [= _ <-]. split; [discriminate | reflexivity].
  - run_M.
    destruct (getUnexpectedStateShapeWarningMessage call (VObject s)
                (finalReducers c) action (unexpectedKeyCache c) w)
      as [[m|e] w1] eqn:Hm; [|discriminate].
    destruct (warning_message_quiet _ _ _ _ _ _ _ Hm) as [_ Hid].
    intros Hw. split.
    + intros _ Hne Hplain. rewrite Hkeys in Hne.
      eapply warning_message_inv; eassumption.
    + destruct m as [message|]; injection Hw as _ <-; simpl; assumption.
Qed.

(** What the diagnostic writes to the console: at most one line, and none
    in a production build. *)
Lemma diagnostic_console (c : combined) (state action : value) (w w' : world)
    (r : result unit) :
  diagnostic call c state action w = (r, w') ->
  exists lines,
    console w' = console w ++ lines /\ length lines <= 1 /\
    (production = true -> lines = []).
Proof.
  unfold diagnostic. destruct production eqn:Hprod; simpl.
  - intros [= _ <-]. exists []. rewrite app_nil_r. repeat split. simpl. lia.
  - run_M.
    destruct (getUnexpectedStateShapeWarningMessage call state
                (finalReducers c) action (unexpectedKeyCache c) w)
      as [[m|e] w1] eqn:Hm;
      destruct (warning_message_quiet _ _ _ _ _ _ _ Hm) as [Hcons _].
    + destruct m as [line|]; intros [= _ <-]; simpl.
      * exists [line]. rewrite Hcons.
        split; [reflexivity|]. split; [simpl; lia | discriminate].
      * exists []. rewrite app_nil_r.
        split; [assumption|]. split; [simpl; lia | discriminate].
    + intros [= _ <-]. exists []. rewrite app_nil_r.
      split; [assumption|]. split; [simpl; lia | discriminate].
Qed.

(** *** The loop over the slices *)

Lemma slices_spec (c : combined) (s : object) (action : value)
    (ks : list string) (hasChanged : bool) (nextState : list (string * value))
    (w : world) :
  (Forall (slice_defined call c s action) ks ->
   slices call c ks (VObject s) action hasChanged nextState w =
   (Ok (hasChanged ||
        existsb (fun key =>
                   negb (strict_eq (slice_next call c s action key) (get s key)))
                ks,
        fold_left (fun ns key => set key (slice_next call c s action key) ns)
                  ks nextState),
    w)) /\
  (forall r w',
     slices call c ks (VObject s) action hasChanged nextState w = (Ok r, w') ->
     Forall (slice_defined call c s action) ks).
Proof.
  revert hasChanged nextState.
  induction ks as [|key ks IH]; intros hasChanged nextState.
  - split; [intros _ | intros; constructor].
    simpl. now rewrite orb_false_r.
  - simpl. run_M. unfold slice_defined, slice_next, slice_call in *.
    destruct (apply_function call (get (finalReducers c) key)
                [get s key; action]) as [v|e] eqn:Hcall.
    + destruct (is_undefined v) eqn:Hu.
      * split.
        -- intros Hall. inversion Hall as [|? ? (v' & Hv' & Hu') _]; subst.
           rewrite Hcall in Hv'. congruence.
        -- intros r w'. destruct (getUndefinedStateErrorMessage key action);
             discriminate.
      * destruct (IH (hasChanged || negb (strict_eq v (get s key)))
                     (set key v nextState)) as [IH1 IH2].
        split.
        -- intros Hall. inversion Hall; subst. rewrite IH1 by assumption.
           now rewrite orb_assoc.
        -- intros r w' Hr. constructor; [eauto | eapply IH2, Hr].
    + split.
      * intros Hall. inversion Hall as [|? ? (v' & Hv' & Hu') _]; subst.
        rewrite Hcall in Hv'. discriminate.
      * intros r w'. discriminate.
Qed.

(** The reducers are functions of their arguments: the loop over the slices
    leaves the world as it is, however it ends. *)
Lemma slices_world (c : combined) (ks : list string) (state action : value)
    (hasChanged : bool) (nextState : list (string * value)) (w w' : world)
    (r : result (bool * list (string * value))) :
  slices call c ks state action hasChanged nextState w = (r, w') -> w' = w.
Proof.
  revert hasChanged nextState.
  induction ks as [|key ks IH]; intros hasChanged nextState; simpl.
  - now intros [= _ <-].
  - run_M. destruct (get_value state key) as [prev|e]; [|now intros [= _ <-]].
    destruct (apply_function call _ _) as [v|e]; [|now intros [= _ <-]].
    destruct (is_undefined v).
    + destruct (getUndefinedStateErrorMessage key action);
        now intros [= _ <-].
    + apply IH.
Qed.

Lemma slices_undefined (c : combined) (s : object) (action : value)
    (pre post : list string) (key : string) (hasChanged : bool)
    (nextState : list (string * value)) (w : world) :
  Forall (slice_defined call c s action) pre ->
  slice_call call c s action key = Ok VUndefined ->
  slices call c (pre ++ key :: post) (VObject s) action hasChanged nextState w
  = (match getUndefinedStateErrorMessage key action with
     | Ok message => Throw (Error message)
     | Throw e => Throw e
     end, w).
Proof.
  intros Hpre Hkey. unfold slice_call in Hkey. revert hasChanged nextState.
  induction Hpre as [|k pre (v & Hv & Hu) _ IH]; intros hasChanged nextState.
  - simpl. run_M. rewrite Hkey. simpl.
    now destruct (getUndefinedStateErrorMessage key action).
  - unfold slice_call in Hv. simpl. run_M. rewrite Hv, Hu. apply IH.
Qed.

(** *** The combined reducer on a state object *)

(** The steps of a call: the recorded exception, if it is truthy; the
    diagnostic; the slices; the choice of the result. *)
Lemma combination_steps (c : combined) (s : object) (action : value)
    (w : world) :
  combination call c (VObject s) action w =
  match rethrown c with
  | Some e => (Throw e, w)
  | None =>
      match diagnostic call c (VObject s) action w with
      | (Throw e, w1) => (Throw e, w1)
      | (Ok _, w1) =>
          match slices call c (finalReducerKeys c) (VObject s) action false []
                  (snd (alloc w1)) with
          | (Ok (hasChanged, nextState), w2) =>
              (Ok (if hasChanged ||
                      negb (Nat.eqb (length (finalReducerKeys c))
                                    (length (keys s)))
                   then literal (next_id w1) nextState
                   else VObject s), w2)
          | (Throw e, w2) => (Throw e, w2)
          end
      end
  end.
Proof.
  unfold combination.
  change (strict_eq (VObject s) VUndefined) with false. cbv iota.
  unfold mbind at 1, M_bind at 1. unfold mret at 1, M_ret at 1.
  destruct (rethrown c) as [e|]; [reflexivity|].
  unfold mbind at 1, M_bind at 1.
  destruct (diagnostic call c (VObject s) action w) as [[u|e] w1];
    [|reflexivity].
  unfold mbind at 1, M_bind at 1. unfold alloc at 1. cbv iota.
  unfold mbind at 1, M_bind at 1.
  change (snd (alloc w1)) with
    {| next_id := S (next_id w1); draws := draws w1; console := console w1;
       caches := caches w1 |}.
  destruct (slices call c (finalReducerKeys c) (VObject s) action false [] _)
    as [[[hasChanged nextState]|e] w2]; reflexivity.
Qed.


(** What the combined reducer returns for a state object when the
    diagnostic comes to an end and every slice reducer keeps the
    contract. *)
Lemma combination_result (c : combined) (s : object) (action : value)
    (w : world) :
  well_formed c -> rethrown c = None -> diagnosed call c s ->
  Forall (slice_defined call c s action) (finalReducerKeys c) ->
  exists w',
    next_id w' = S (next_id w) /\
    combination call c (VObject s) action w =
    (Ok (if existsb
              (fun key =>
                 negb (strict_eq (slice_next call c s action key) (get s key)))
              (finalReducerKeys c)
            || negb (Nat.eqb (length (finalReducerKeys c)) (length (keys s)))
         then literal (next_id w)
                (map (fun key => (key, slice_next call c s action key))
                     (finalReducerKeys c))
         else VObject s),
     w').
Proof.
  intros Hwf Hshape Hdiag Hdef.
  destruct (diagnostic_ok c s action w Hwf Hdiag) as (w1 & Hd & Hid).
  rewrite combination_steps, Hshape, Hd.
  destruct (slices_spec c s action (finalReducerKeys c) false []
              (snd (alloc w1))) as [Hs _].
  rewrite (Hs Hdef). clear Hs.
  destruct Hwf as (Hkeys & Hnd & Hord & _).
  rewrite fold_set_fresh by (simpl; rewrite Hkeys; assumption).
  rewrite Hid. simpl. eexists. split; [|reflexivity]. simpl. now rewrite Hid.
Qed.

(** A call that returns went through all of it. *)
Lemma combination_inv (c : combined) (s : object) (action : value)
    (w w' : world) (v : value) :
  well_formed c ->
  combination call c (VObject s) action w = (Ok v, w') ->
  rethrown c = None /\ diagnosed call c s /\
  Forall (slice_defined call c s action) (finalReducerKeys c).
Proof.
  intros Hwf. rewrite combination_steps.
  destruct (rethrown c) as [e|]; [discriminate|].
  destruct (diagnostic call c (VObject s) action w) as [[u|e] w1] eqn:Hd;
    [|discriminate].
  destruct (diagnostic_inv c s action w w1 u Hwf Hd) as [Hdiag _].
  destruct (slices_spec c s action (finalReducerKeys c) false []
              (snd (alloc w1))) as [_ Hinv].
  destruct (slices call c (finalReducerKeys c) (VObject s) action false []
              (snd (alloc w1))) as [[[hasChanged nextState]|e] w2] eqn:Hsl;
    [|discriminate].
  intros _. repeat split; [assumption|]. eapply Hinv. reflexivity.
Qed.

(** A call without a state is a call on the object [{}] created for it. *)
Lemma combination_default (c : combined) (action : value) (w : world) :
  combination call c VUndefined action w =
  combination call c (literal (next_id w) []) action (snd (alloc w)).
Proof. reflexivity. Qed.

(** *** What [combineReducers] returns *)

Lemma put_cases (o o' : object) (key : string) (v : value) :
  put o key v = Ok o' ->
  obj_id o' = obj_id o /\
  (obj_props o' = obj_props o \/
   obj_props o' = set key v (obj_props o)).
Proof.
  destruct o as [id cl proto ps]. unfold put.
  destruct (_ && _).
  - intros [= <-]. destruct v; simpl; auto.
  - destruct (refuses _ _); [discriminate|]. intros [= <-]. simpl. auto.
Qed.

Lemma put_total (o : object) (key : string) (v : value) :
  (exists o', put o key v = Ok o') \/
  (exists message, put o key v = Throw (TypeError message)).
Proof.
  destruct o as [id cl proto ps]. unfold put.
  destruct (_ && _); [left; eauto|].
  destruct (refuses _ _); [right | left]; eauto.
Qed.

(** An object made as [{}] accepts every assignment as long as its
    prototype is [Object.prototype]. *)
Lemma put_plain (id : nat) (ps : list (string * value)) (key : string)
    (v : value) :
  key <> "__proto__" ->
  put (Obj id false (Some Object_prototype) ps) key v =
  Ok (Obj id false (Some Object_prototype) (set key v ps)).
Proof.
  intros Hne. unfold put.
  apply String.eqb_neq in Hne. rewrite Hne. cbn [andb].
  cbn [refuses Object_prototype]. destruct (assoc key ps); reflexivity.
Qed.

Lemma retain_warns (entry : value) (key : string) (w : world) :
  (if negb production then
     if is_undefined entry
     then warning ("No reducer provided for key " +:+ dq +:+ key +:+ dq)
     else mret tt
   else mret tt) w =
  (Ok tt,
   {| next_id := next_id w; draws := draws w;
      console :=
        console w ++
        (if production then []
         else if is_undefined entry
              then ["No reducer provided for key " +:+ dq +:+ key +:+ dq]
              else []);
      caches := caches w |}).
Proof.
  destruct w as [n d cs ch]. destruct production; simpl.
  - now rewrite app_nil_r.
  - destruct (is_undefined entry); simpl; [reflexivity|].
    now rewrite app_nil_r.
Qed.

(** One turn of the loop that retains the reducers. *)
Lemma retain_turn (reducers : value) (k : string) (ks : list string)
    (acc : object) (w : world) (entry : value) :
  get_value reducers k = Ok entry ->
  retain reducers (k :: ks) acc w =
  match (if is_function entry then put acc k entry else Ok acc) with
  | Ok acc' =>
      retain reducers ks acc'
        {| next_id := next_id w; draws := draws w;
           console :=
             console w ++
             (if production then []
              else if is_undefined entry
                   then ["No reducer provided for key " +:+ dq +:+ k +:+ dq]
                   else []);
           caches := caches w |}
  | Throw e =>
      (Throw e,
       {| next_id := next_id w; draws := draws w;
          console :=
            console w ++
            (if production then []
             else if is_undefined entry
                  then ["No reducer provided for key " +:+ dq +:+ k +:+ dq]
                  else []);
          caches := caches w |})
  end.
Proof.
  intros Hentry.
  cbn [retain]. unfold mbind at 1, M_bind at 1.
  unfold lift at 1. rewrite Hentry.
  cbv iota. unfold mbind at 1, M_bind at 1. rewrite retain_warns.
  unfold mbind at 1, M_bind at 1.
  destruct (is_function entry); [|reflexivity].
  unfold lift. destruct (put acc k entry); reflexivity.
Qed.

Lemma retain_step (reducers : object) (k : string) (ks : list string)
    (acc : object) (w : world) :
  retain (VObject reducers) (k :: ks) acc w =
  match (if is_function (get reducers k) then put acc k (get reducers k)
         else Ok acc) with
  | Ok acc' =>
      retain (VObject reducers) ks acc'
        {| next_id := next_id w; draws := draws w;
           console :=
             console w ++
             (if production then []
              else if is_undefined (get reducers k)
                   then ["No reducer provided for key " +:+ dq +:+ k +:+ dq]
                   else []);
           caches := caches w |}
  | Throw e =>
      (Throw e,
       {| next_id := next_id w; draws := draws w;
          console :=
            console w ++
            (if production then []
             else if is_undefined (get reducers k)
                  then ["No reducer provided for key " +:+ dq +:+ k +:+ dq]
                  else []);
          caches := caches w |})
  end.
Proof. now apply retain_turn. Qed.

(** When the loop that retains the reducers comes to an end, it has
    written one line for every entry that is [undefined], and what it
    added to [finalReducers] are functions of [reducers] under their
    keys. *)
Lemma retain_spec (reducers : object) (ks : list string) (acc fr : object)
    (w w' : world) :
  retain (VObject reducers) ks acc w = (Ok fr, w') ->
  w' =
  {| next_id := next_id w; draws := draws w;
     console :=
       console w ++
       (if production then []
        else map (fun key => "No reducer provided for key " +:+ dq +:+ key +:+ dq)
                 (List.filter (fun key => is_undefined (get reducers key)) ks));
     caches := caches w |} /\
  obj_id fr = obj_id acc /\
  (NoDup (keys acc) -> NoDup (keys fr)) /\
  (key_order (keys acc) -> key_order (keys fr)) /\
  (forall key v,
     assoc key (obj_props fr) = Some v ->
     assoc key (obj_props acc) = Some v \/
     (In key ks /\ is_function (get reducers key) = true /\
      v = get reducers key)).
Proof.
  revert acc w. induction ks as [|k ks IH]; intros acc w.
  - simpl. intros [= <- <-]. split; [|auto].
    destruct w as [n d cs ch]. simpl.
    destruct production; now rewrite app_nil_r.
  - rewrite retain_step.
    destruct (if is_function (get reducers k) then put acc k (get reducers k)
              else Ok acc) as [acc'|e] eqn:Hput; [|discriminate].
    intros Hrun.
    destruct (IH acc' _ Hrun) as (Hw & Hid & Hnd & Hord & Hget).
    assert (Hacc : obj_id acc' = obj_id acc /\
                   (obj_props acc' = obj_props acc \/
                    (is_function (get reducers k) = true /\
                     obj_props acc' = set k (get reducers k) (obj_props acc)))).
    { destruct (is_function (get reducers k)).
      - destruct (put_cases _ _ _ _ Hput) as [Hi [Hp|Hp]]; auto.
      - injection Hput as <-. auto. }
    destruct Hacc as [Hid' Hprops].
    split; [|split; [|split; [|split]]].
    + rewrite Hw. simpl. f_equal.
      destruct production; [now rewrite !app_nil_r|].
      rewrite <- app_assoc. f_equal.
      destruct (is_undefined (get reducers k)); reflexivity.
    + congruence.
    + intros Hacc. apply Hnd. unfold keys in *.
      destruct Hprops as [->|[_ ->]]; [assumption|].
      now apply NoDup_keys_set.
    + intros Hacc. apply Hord. unfold keys in *.
      destruct Hprops as [->|[_ ->]]; [assumption|].
      now apply key_order_set.
    + intros key v Hv. destruct (Hget key v Hv) as [Ha|(Hin & Hf & Heq)].
      * destruct Hprops as [Hp|[Hf Hp]]; rewrite Hp in Ha; [now left|].
        rewrite assoc_set in Ha.
        destruct (String.eqb_spec k key) as [->|Hne]; [|now left].
        right. injection Ha as <-. repeat split; [now left | assumption].
      * right. repeat split; [now right | assumption | assumption].
Qed.

(** The loop comes to an end with the reducers retained, or with the
    [TypeError] of an assignment that was refused. *)
Lemma retain_total (reducers : object) (ks : list string) (acc : object)
    (w : world) :
  (exists fr w', retain (VObject reducers) ks acc w = (Ok fr, w')) \/
  (exists message w',
     retain (VObject reducers) ks acc w = (Throw (TypeError message), w')).
Proof.
  revert acc w. induction ks as [|k ks IH]; intros acc w.
  - left. simpl. eauto.
  - rewrite retain_step.
    destruct (is_function (get reducers k)); [|apply IH].
    destruct (put_total acc k (get reducers k)) as [[acc' ->]|[m ->]];
      [apply IH | right; eauto].
Qed.

(** No assignment is refused when no function is given under the name
    [__proto__]: the prototype of [finalReducers] stays
    [Object.prototype]. *)
Lemma retain_accepts (reducers : object) (ks : list string) (id : nat)
    (ps : list (string * value)) (w : world) :
  (forall key, In key ks -> is_function (get reducers key) = true ->
               key <> "__proto__") ->
  exists fr w',
    retain (VObject reducers) ks (Obj id false (Some Object_prototype) ps) w
    = (Ok fr, w').
Proof.
  revert ps w. induction ks as [|k ks IH]; intros ps w Hproto.
  - simpl. eauto.
  - rewrite retain_step.
    assert (Hrest : forall key, In key ks ->
              is_function (get reducers key) = true -> key <> "__proto__").
    { intros key Hin. apply Hproto. now right. }
    destruct (is_function (get reducers k)) eqn:Hfun; [|now apply IH].
    rewrite put_plain by (apply Hproto; [now left | assumption]).
    now apply IH.
Qed.

(** What the loop raises, it raises for a function given under the name
    [__proto__]. *)
Lemma retain_refused (reducers : object) (ks : list string) (id : nat)
    (ps : list (string * value)) (w w' : world) (e : exn) :
  retain (VObject reducers) ks (Obj id false (Some Object_prototype) ps) w
  = (Throw e, w') ->
  In "__proto__" ks /\ is_function (get reducers "__proto__") = true.
Proof.
  revert ps w. induction ks as [|k ks IH]; intros ps w.
  - discriminate.
  - rewrite retain_step.
    destruct (is_function (get reducers k)) eqn:Hfun.
    + destruct (String.eqb_spec k "__proto__") as [->|Hne].
      * intros _. split; [now left | assumption].
      * rewrite put_plain by assumption. intros Hrun.
        apply IH in Hrun as [Hin Hf]. split; [now right | assumption].
    + intros Hrun. apply IH in Hrun as [Hin Hf].
      split; [now right | assumption].
Qed.

(** For distinct keys in the order of the runtime, the entries retained are
    the functions, in the order of the keys.  An entry under the key
    [__proto__] is not among them: assigning it changes the prototype of
    [finalReducers]. *)
Lemma retain_run (reducers : object) (ks : list string) (acc fr : object)
    (w w' : world) :
  retain (VObject reducers) ks acc w = (Ok fr, w') ->
  NoDup (keys acc ++ ks) -> key_order (keys acc ++ ks) ->
  inherits_proto_accessor acc = true ->
  obj_props fr =
  obj_props acc ++
  map (fun key => (key, get reducers key))
      (List.filter
         (fun key =>
            is_function (get reducers key) && negb (String.eqb key "__proto__"))
         ks).
Proof.
  assert (Hgen : forall ks acc w,
    retain (VObject reducers) ks acc w = (Ok fr, w') ->
    NoDup (keys acc ++ ks) -> key_order (keys acc ++ ks) ->
    assoc "__proto__" (obj_props acc) = None ->
    inherits_proto_accessor acc = true \/ ~ In "__proto__" ks ->
    obj_props fr =
    obj_props acc ++
    map (fun key => (key, get reducers key))
        (List.filter
           (fun key =>
              is_function (get reducers key) &&
              negb (String.eqb key "__proto__"))
           ks)).
  { clear ks acc w. intros ks. induction ks as [|k ks IH]; intros acc w.
    - simpl. intros [= <- _] _ _ _ _. now rewrite app_nil_r.
    - rewrite retain_step.
      intros Hrun Hnd Hord Hown Hacc.
      assert (Hk : ~ In k (keys acc)).
      { apply NoDup_app in Hnd as (_ & Hd & _). intros Hin.
        apply (Hd k); [now apply list_elem_of_In | left]. }
      assert (Hks : ~ In k ks).
      { apply NoDup_app in Hnd as (_ & _ & Hd).
        apply NoDup_cons in Hd as [Hd _]. now rewrite list_elem_of_In in Hd. }
      destruct (key_order_app_last _ _ _ Hord) as [Hlast _].
      destruct acc as [id cl proto ps]. unfold keys in *. simpl in *.
      destruct (is_function (get reducers k)) eqn:Hfun; simpl.
      + destruct (String.eqb_spec k "__proto__") as [->|Hne]; simpl.
        * (* the setter of __proto__ *)
          destruct Hacc as [Hacc|Hacc]; [|exfalso; apply Hacc; now left].
          simpl in Hrun. rewrite Hown in *. rewrite Hacc in Hrun.
          destruct (get reducers "__proto__") as [| | | | |p] eqn:Hentry;
            try discriminate Hfun.
          eapply IH in Hrun; simpl in *.
          -- exact Hrun.
          -- apply NoDup_app in Hnd as (Ha & Hd & Hb).
             apply NoDup_app. repeat split; [assumption | | now inversion Hb].
             intros x Hx Hin. apply (Hd x Hx). now right.
          -- clear -Hord. induction ps as [|[k0 v0] ps IHp]; simpl in *.
             ++ apply key_order_cons in Hord. tauto.
             ++ apply key_order_cons in Hord as [Hs Hall].
                apply key_order_cons. split; [now apply IHp|].
                rewrite Forall_app in *. destruct Hall as [H1 H2].
                split; [assumption | now inversion H2].
          -- assumption.
          -- now right.
        * simpl in Hrun.
          match type of Hrun with
          | context [if ?b then Throw _ else _] =>
              destruct b; [discriminate|]
          end.
          eapply IH in Hrun; simpl in *.
          -- rewrite Hrun, set_last by assumption. now rewrite <- app_assoc.
          -- rewrite set_last by assumption. rewrite map_app. simpl.
             now rewrite <- app_assoc.
          -- rewrite set_last by assumption. rewrite map_app. simpl.
             now rewrite <- app_assoc.
          -- rewrite assoc_set.
             destruct (String.eqb_spec k "__proto__"); [contradiction|].
             assumption.
          -- destruct Hacc as [Hacc|Hacc]; [left | right; tauto].
             rewrite assoc_set.
             destruct (String.eqb_spec k "__proto__"); [contradiction|].
             rewrite Hown in *. assumption.
      + eapply IH in Hrun; simpl in *.
        * exact Hrun.
        * apply NoDup_app in Hnd as (Ha & Hd & Hb).
          apply NoDup_app. repeat split; [assumption | | now inversion Hb].
          intros x Hx Hin. apply (Hd x Hx). now right.
        * clear -Hord. induction ps as [|[k0 v0] ps IHp]; simpl in *.
          -- apply key_order_cons in Hord. tauto.
          -- apply key_order_cons in Hord as [Hs Hall].
             apply key_order_cons. split; [now apply IHp|].
             rewrite Forall_app in *. destruct Hall as [H1 H2].
             split; [assumption | now inversion H2].
        * assumption.
        * destruct Hacc as [Hacc|Hacc]; [now left | right; tauto]. }
  intros Hrun Hnd Hord Hacc. eapply Hgen; eauto.
  destruct acc as [id cl proto ps]. simpl in *.
  destruct (assoc "__proto__" ps); [discriminate | reflexivity].
Qed.

(** [combineReducers] on an object, after the loop that retains the
    reducers. *)
Lemma combineReducers_after (reducers : object) (w : world) (fr : object)
    (w1 : world) :
  retain (VObject reducers) (keys reducers)
    (Obj (next_id w) false (Some Object_prototype) []) (snd (alloc w))
  = (Ok fr, w1) ->
  exists cache w2,
    console w2 = console w1 /\
    (production = false -> exists ref, cache = Some ref) /\
    combineReducers call (VObject reducers) w =
    (Ok {| finalReducers := fr;
           finalReducerKeys := keys fr;
           unexpectedKeyCache := cache;
           shapeAssertionError :=
             match fst (assertReducerShape call fr w2) with
             | Ok _ => None
             | Throw e => Some e
             end |},
     snd (assertReducerShape call fr w2)).
Proof.
  intros Hr. unfold combineReducers. run_M. simpl in Hr. rewrite Hr.
  assert (Hc : exists cache w2,
    (if negb production
     then mbind (M := M) (fun ref => mret (Some ref)) new_cache
     else mret None) w1 = (Ok cache, w2) /\
    console w2 = console w1 /\
    (production = false -> exists ref, cache = Some ref)).
  { destruct production; simpl.
    - exists None, w1. repeat split. discriminate.
    - run_M. eexists _, _. repeat split. eauto. }
  destruct Hc as (cache & w2 & Hc & Hcons & Hcache). run_M. rewrite Hc.
  exists cache, w2. split; [assumption|]. split; [assumption|].
  destruct (assertReducerShape call fr w2) as [[[]|e] w3]; reflexivity.
Qed.

(** What escapes [combineReducers] on an object is what the loop that
    retains the reducers raises. *)
Lemma combineReducers_raises (reducers : object) (w w1 : world) (e : exn) :
  retain (VObject reducers) (keys reducers)
    (Obj (next_id w) false (Some Object_prototype) []) (snd (alloc w))
  = (Throw e, w1) ->
  combineReducers call (VObject reducers) w = (Throw e, w1).
Proof.
  intros Hr. unfold combineReducers. run_M. simpl in Hr. now rewrite Hr.
Qed.

(** [combineReducers] on an object, step by step. *)
Lemma combineReducers_run (reducers : object) (w : world) (c : combined)
    (w' : world) :
  combineReducers call (VObject reducers) w = (Ok c, w') ->
  exists fr w1 cache w2,
    retain (VObject reducers) (keys reducers)
      (Obj (next_id w) false (Some Object_prototype) []) (snd (alloc w))
    = (Ok fr, w1) /\
    console w1 =
    console w ++
    (if production then []
     else map (fun key => "No reducer provided for key " +:+ dq +:+ key +:+ dq)
              (List.filter (fun key => is_undefined (get reducers key))
                           (keys reducers))) /\
    console w2 = console w1 /\
    (production = false -> exists ref, cache = Some ref) /\
    combineReducers call (VObject reducers) w =
    (Ok {| finalReducers := fr;
           finalReducerKeys := keys fr;
           unexpectedKeyCache := cache;
           shapeAssertionError :=
             match fst (assertReducerShape call fr w2) with
             | Ok _ => None
             | Throw e => Some e
             end |},
     snd (assertReducerShape call fr w2)).
Proof.
  intros Hc.
  destruct (retain (VObject reducers) (keys reducers)
              (Obj (next_id w) false (Some Object_prototype) [])
              (snd (alloc w))) as [[fr|e] w1] eqn:Hr.
  - destruct (combineReducers_after reducers w fr w1 Hr)
      as (cache & w2 & Hcons & Hcache & Heq).
    exists fr, w1, cache, w2. split; [reflexivity|].
    destruct (retain_spec _ _ _ _ _ _ Hr) as (-> & _). simpl.
    repeat split; assumption.
  - rewrite (combineReducers_raises reducers w w1 e Hr) in Hc. discriminate.
Qed.

(** [combineReducers] on an object returns a combined reducer, or raises
    the [TypeError] of an assignment to [finalReducers] that was refused,
    which takes a function under the name [__proto__]. *)
Lemma combineReducers_total (reducers : object) (w : world) :
  (exists c w', combineReducers call (VObject reducers) w = (Ok c, w')) \/
  (exists message w',
     combineReducers call (VObject reducers) w
     = (Throw (TypeError message), w') /\
     In "__proto__" (keys reducers) /\
     is_function (get reducers "__proto__") = true).
Proof.
  destruct (retain_total reducers (keys reducers)
              (Obj (next_id w) false (Some Object_prototype) [])
              (snd (alloc w))) as [(fr & w1 & Hr)|(message & w1 & Hr)].
  - left. destruct (combineReducers_after reducers w fr w1 Hr)
      as (cache & w2 & _ & _ & Heq). eauto.
  - right. exists message, w1.
    split; [now apply combineReducers_raises|].
    now apply retain_refused in Hr.
Qed.

Lemma combineReducers_returns (reducers : object) (w : world) :
  (forall key, In key (keys reducers) ->
               is_function (get reducers key) = true -> key <> "__proto__") ->
  exists c w', combineReducers call (VObject reducers) w = (Ok c, w').
Proof.
  intros Hproto.
  destruct (combineReducers_total reducers w)
    as [Hok|(message & w' & _ & Hin & Hfun)]; [assumption|].
  now destruct (Hproto "__proto__" Hin Hfun).
Qed.

Lemma combineReducers_well_formed (reducers : object) (w0 w1 : world)
    (c : combined) :
  combineReducers call (VObject reducers) w0 = (Ok c, w1) -> well_formed c.
Proof.
  intros Hc.
  destruct (combineReducers_run reducers w0 c w1 Hc)
    as (fr & wa & cache & wb & Hr & _ & _ & Hcache & Heq).
  rewrite Heq in Hc. injection Hc as <- _.
  destruct (retain_spec _ _ _ _ _ _ Hr) as (_ & _ & Hnd & Hord & _).
  split; [reflexivity|]. split; [|split; [|assumption]].
  - apply Hnd. constructor.
  - apply Hord. constructor.
Qed.

(** A retained key is a key of [reducers] that holds a function, and the
    function is the one retained. *)
Lemma retained_key (reducers : object) (w0 w1 : world) (c : combined)
    (key : string) :
  combineReducers call (VObject reducers) w0 = (Ok c, w1) ->
  In key (finalReducerKeys c) ->
  In key (keys reducers) /\ is_function (get reducers key) = true /\
  get (finalReducers c) key = get reducers key.
Proof.
  intros Hc Hin.
  destruct (combineReducers_run reducers w0 c w1 Hc)
    as (fr & wa & cache & wb & Hr & _ & _ & _ & Heq).
  rewrite Heq in Hc. injection Hc as <- _. simpl in *.
  destruct (retain_spec _ _ _ _ _ _ Hr) as (_ & _ & _ & _ & Hget).
  destruct (in_keys_assoc _ _ Hin) as [v Hv].
  destruct (Hget key v Hv) as [Ha|(Hk & Hf & ->)]; [discriminate|].
  repeat split; [assumption | assumption | now apply get_own].
Qed.

(** *** The shape assertion *)

(** The probes of [assertReducerShape] write nothing: they take identities
    and draws only. *)
Lemma assertReducerShape_from_quiet (fr : object) (ks : list string)
    (w w' : world) (r : result unit) :
  assertReducerShape_from call fr ks w = (r, w') ->
  console w' = console w /\ caches w' = caches w.
Proof.
  revert w. induction ks as [|k ks IH]; intros w; [now intros [= _ <-]|].
  cbn [assertReducerShape_from]. unfold mbind at 1, M_bind at 1.
  assert (Hk : forall rk wk,
            assertReducerShape_key call fr k w = (rk, wk) ->
            console wk = console w /\ caches wk = caches w).
  { unfold assertReducerShape_key, new_literal, probe_type. run_M.
    intros rk wk.
    destruct (apply_function call (get fr k) _) as [v|e]; simpl;
      [|now intros [= _ <-]].
    destruct (is_undefined v); simpl; [now intros [= _ <-]|].
    destruct (apply_function call (get fr k) _) as [v'|e']; simpl;
      [|now intros [= _ <-]].
    destruct (is_undefined v'); simpl; now intros [= _ <-]. }
  destruct (assertReducerShape_key call fr k w) as [[[]|e] w1] eqn:Hkey.
  - intros Hrest. apply IH in Hrest as [-> ->]. now apply (Hk (Ok tt)).
  - intros [= _ <-]. now apply (Hk (Throw e)).
Qed.

Lemma assertReducerShape_from_passes (fr : object) (ks : list string)
    (w : world) :
  (forall key, In key ks -> passes_probe call (get fr key)) ->
  fst (assertReducerShape_from call fr ks w) = Ok tt.
Proof.
  revert w. induction ks as [|k ks IH]; intros w Hall; [reflexivity|].
  cbn [assertReducerShape_from]. unfold mbind at 1, M_bind at 1.
  assert (Hk : fst (assertReducerShape_key call fr k w) = Ok tt).
  { destruct (Hall k (or_introl eq_refl)) as [Hinit Hprobe].
    unfold assertReducerShape_key, new_literal, probe_type. run_M.
    destruct (Hinit (next_id w)) as (v & -> & ->). simpl.
    destruct (Hprobe (S (next_id w)) (draws w)) as (v' & -> & ->).
    reflexivity. }
  destruct (assertReducerShape_key call fr k w) as [[[]|e] w1];
    [|discriminate].
  apply IH. intros key Hin. apply Hall. now right.
Qed.


(** *** The claims *)

Lemma unchanged_existsb (c : combined) (s : object) (action : value)
    (ks : list string) :
  Forall (slice_defined call c s action) ks ->
  existsb (fun key =>
             negb (strict_eq (slice_next call c s action key) (get s key))) ks
  = false <->
  Forall (slice_unchanged call c s action) ks.
Proof.
  induction 1 as [|key ks (v & Hv & _) _ IH]; simpl.
  - split; [constructor | reflexivity].
  - rewrite orb_false_iff, IH, negb_false_iff.
    unfold slice_next. rewrite Hv. split.
    + intros [Heq Hall]. constructor; [|assumption]. exists v. auto.
    + intros Hall. inversion Hall as [|? ? (v' & Hv' & Heq) Hrest]; subst.
      split; [congruence | assumption].
Qed.



(** C10.  Whenever the combined reducer returns an object other than the
    state it was given, the keys of that object are the retained slice keys,
    in their order: a key of the prior state that no retained reducer owns
    is not in the result. *)
Theorem combination_drops_unknown_keys (reducers : object) (w0 w1 : world)
    (c : combined) (s : object) (action : value) (w w' : world) (v : value) :
  combineReducers call (VObject reducers) w0 = (Ok c, w1) ->
  combination call c (VObject s) action w = (Ok v, w') ->
  v <> VObject s ->
  exists o,
    v = VObject o /\
    keys o = finalReducerKeys c /\
    forall key,
      In key (keys s) -> ~ In key (finalReducerKeys c) -> ~ In key (keys o).
Proof.
  intros Hc Hrun Hnew.
  pose proof (combineReducers_well_formed _ _ _ _ Hc) as Hwf.
  destruct (combination_inv c s action w w' v Hwf Hrun)
    as (Hshape & Hdiag & Hdef).
  destruct (combination_result c s action w Hwf Hshape Hdiag Hdef)
    as (wa & _ & Heq).
  rewrite Hrun in Heq. injection Heq as -> _.
  destruct (_ || _); [|contradiction].
  eexists. split; [reflexivity|].
  assert (Hkeys : keys (Obj (next_id w) false (Some Object_prototype)
                          (map (fun key => (key, slice_next call c s action key))
                               (finalReducerKeys c)))
                  = finalReducerKeys c).
  { unfold keys. simpl. rewrite map_map. simpl. apply map_id. }
  split; [exact Hkeys|].
  intros key _ Hnot. now rewrite Hkeys.
Qed.

(** *** What [combineReducers] retains and reports *)

(** For an argument that has keys, the loop that retains the reducers
    comes to an end or raises a [TypeError]. *)
Lemma retain_returns (reducers : value) (ks : list string) (acc : object)
    (w : world) :
  reducers <> VUndefined -> reducers <> VNull ->
  (exists fr w', retain reducers ks acc w = (Ok fr, w')) \/
  (exists message w',
     retain reducers ks acc w = (Throw (TypeError message), w')).
Proof.
  intros Hu Hn. revert acc w. induction ks as [|k ks IH]; intros acc w.
  - left. simpl. eauto.
  - assert (Hv : exists entry, get_value reducers k = Ok entry)
      by (destruct reducers; simpl; try contradiction; eauto).
    destruct Hv as [entry Hv]. rewrite (retain_turn _ _ _ _ _ _ Hv).
    destruct (is_function entry); [|apply IH].
    destruct (put_total acc k entry) as [[acc' ->]|[m ->]];
      [apply IH | right; eauto].
Qed.

(** What [combineReducers] makes of its argument.  [undefined] and [null]
    have no keys: the call raises a [TypeError].  For every other value it
    returns a combined reducer, or raises the [TypeError] of an assignment
    to [finalReducers] that was refused; for an object that gives no
    function under the name [__proto__] it returns.  The combined reducer
    of an object keeps the keys that hold a function, in their order, each
    with the function it held; an entry that is not a function is left
    out, whatever it is, and so is an entry under the key [__proto__],
    which becomes the prototype of [finalReducers] instead. *)
Theorem combineReducers_retains_functions (w : world) :
  (forall reducers,
     reducers = VUndefined \/ reducers = VNull ->
     exists message,
       combineReducers call reducers w = (Throw (TypeError message), w)) /\
  (forall reducers,
     reducers <> VUndefined -> reducers <> VNull ->
     (exists c w', combineReducers call reducers w = (Ok c, w')) \/
     (exists message w',
        combineReducers call reducers w = (Throw (TypeError message), w'))) /\
  (forall reducers : object,
     (forall key, In key (keys reducers) ->
                  is_function (get reducers key) = true ->
                  key <> "__proto__") ->
     exists c w', combineReducers call (VObject reducers) w = (Ok c, w')) /\
  (forall (reducers : object) c w',
     NoDup (keys reducers) -> key_order (keys reducers) ->
     combineReducers call (VObject reducers) w = (Ok c, w') ->
     finalReducerKeys c =
     List.filter
       (fun key =>
          is_function (get reducers key) && negb (String.eqb key "__proto__"))
       (keys reducers) /\
     (forall key, In key (finalReducerKeys c) ->
                  get (finalReducers c) key = get reducers key)).
Proof.
  split; [|split; [|split]].
  - intros reducers [->| ->]; eexists; reflexivity.
  - intros reducers Hu Hn.
    assert (Hrun : exists r,
      combineReducers call reducers w = r /\
      ((exists c w', r = (Ok c, w')) \/
       (exists message w', r = (Throw (TypeError message), w')))).
    { unfold combineReducers.
      assert (Hk : exists ks, keys_value reducers = Ok ks)
        by (destruct reducers; simpl; try contradiction; eauto).
      destruct Hk as [ks Hk]. unfold mbind at 1, M_bind at 1.
      unfold lift at 1. rewrite Hk. cbv iota.
      unfold mbind at 1, M_bind at 1. unfold alloc at 1. cbv iota.
      unfold mbind at 1, M_bind at 1.
      destruct (retain_returns reducers ks
                  (Obj (next_id w) false (Some Object_prototype) [])
                  {| next_id := S (next_id w); draws := draws w;
                     console := console w; caches := caches w |} Hu Hn)
        as [(fr & w1 & ->)|(message & w1 & ->)];
        [|eexists; split; [reflexivity | right; eauto]].
      unfold mbind at 1, M_bind at 1.
      assert (Hc : exists cache w2,
        (if negb production
         then mbind (M := M) (fun ref => mret (Some ref)) new_cache
         else mret None) w1 = (Ok cache, w2)).
      { destruct production; simpl; [eauto|]. run_M. eauto. }
      destruct Hc as (cache & w2 & ->).
      unfold mbind at 1, M_bind at 1. unfold try_catch.
      unfold mbind at 1, M_bind at 1.
      destruct (assertReducerShape call fr w2) as [[[]|e] w3];
        (eexists; split; [reflexivity | left; eauto]). }
    destruct Hrun as (r & -> & Hr). exact Hr.
  - intros reducers. apply combineReducers_returns.
  - intros reducers c w' Hnd Hord Hc.
    destruct (combineReducers_run reducers w c w' Hc)
      as (fr & w1 & cache & w2 & Hr & _ & _ & _ & Heq).
    assert (Hacc : inherits_proto_accessor
                     (Obj (next_id w) false (Some Object_prototype) []) = true)
      by (simpl; apply orb_true_r).
    pose proof (retain_run reducers (keys reducers) _ fr _ w1 Hr Hnd Hord
                  Hacc) as Hprops.
    simpl in Hprops. split.
    + rewrite Heq in Hc. injection Hc as <- _.
      simpl. unfold keys at 1. rewrite Hprops, map_map. simpl. apply map_id.
    + intros key Hin.
      destruct (retained_key reducers w _ _ key Hc Hin) as (_ & _ & Hget).
      exact Hget.
Qed.

(** What [combineReducers] writes to the console: in a development build one
    line for every key of [reducers] whose value is [undefined], in the
    order of the keys, and nothing for an entry that is neither a function
    nor [undefined]; in a production build nothing.  It returns, at the
    least, for reducers that give no function under the name
    [__proto__]. *)
Theorem combineReducers_console (reducers : object) (w : world) :
  ((forall key, In key (keys reducers) ->
                is_function (get reducers key) = true -> key <> "__proto__") ->
   exists c w', combineReducers call (VObject reducers) w = (Ok c, w')) /\
  forall c w',
    combineReducers call (VObject reducers) w = (Ok c, w') ->
    console w' =
    console w ++
    (if production then []
     else map (fun key => "No reducer provided for key " +:+ dq +:+ key +:+ dq)
              (List.filter (fun key => is_undefined (get reducers key))
                           (keys reducers))).
Proof.
  split; [apply combineReducers_returns|].
  intros c w' Hc.
  destruct (combineReducers_run reducers w c w' Hc)
    as (fr & w1 & cache & w2 & Hr & Hw1 & Hcons & _ & Heq).
  rewrite Heq in Hc. injection Hc as _ <-.
  destruct (assertReducerShape_from_quiet fr (keys fr) w2 _ _
              (surjective_pairing _)) as [Hq _].
  unfold assertReducerShape. rewrite Hq, Hcons, Hw1. reflexivity.
Qed.

(** The converse of the shape assertion: when every entry of [reducers]
    that is a function passes the probes, the combined reducer holds no
    assertion error, so its calls go on to the slices.  There is a
    combined reducer, at the least, for reducers that give no function
    under the name [__proto__]. *)
Theorem probes_pass (reducers : object) (w : world) :
  (forall key,
     In key (keys reducers) -> is_function (get reducers key) = true ->
     passes_probe call (get reducers key)) ->
  ((forall key, In key (keys reducers) ->
                is_function (get reducers key) = true -> key <> "__proto__") ->
   exists c w', combineReducers call (VObject reducers) w = (Ok c, w')) /\
  forall c w',
    combineReducers call (VObject reducers) w = (Ok c, w') ->
    shapeAssertionError c = None.
Proof.
  intros Hall. split; [apply combineReducers_returns|].
  intros c w' Hc.
  destruct (combineReducers_run reducers w c w' Hc)
    as (fr & w1 & cache & w2 & Hr & _ & _ & _ & Heq).
  assert (Hpass : forall key, In key (keys fr) ->
            passes_probe call (get fr key)).
  { intros key Hin.
    destruct (retained_key reducers w _ _ key Heq Hin) as (Hk & Hfun & Hget).
    simpl in Hget. rewrite Hget. now apply Hall. }
  rewrite Heq in Hc. injection Hc as <- _. simpl.
  unfold assertReducerShape. now rewrite assertReducerShape_from_passes.
Qed.

(** *** More on the combined reducer *)

(** On a state mapping, for a combined reducer that raises no recorded
    error on entry and once the diagnostic of a development build has come
    to an end: when a slice reducer answers [undefined], and those of the
    keys before it kept the contract, the combined reducer raises an
    [Error] whose message names the slice and the action, or what the
    conversion of the action type to a string raised.  The reducers of the
    keys after it are not consulted, and no state is returned. *)
Theorem combination_undefined_slice (reducers : object) (w0 w1 : world)
    (c : combined) (s : object) (action : value) (pre post : list string)
    (key : string) (w : world) :
  combineReducers call (VObject reducers) w0 = (Ok c, w1) ->
  rethrown c = None ->
  state_mapping s = true ->
  diagnosed call c s ->
  finalReducerKeys c = pre ++ key :: post ->
  Forall (slice_defined call c s action) pre ->
  slice_call call c s action key = Ok VUndefined ->
  exists w',
    combination call c (VObject s) action w =
    (match getUndefinedStateErrorMessage key action with
     | Ok message => Throw (Error message)
     | Throw e => Throw e
     end, w').
Proof.
  intros Hc Hshape _ Hdiag Hkeys Hpre Hkey.
  pose proof (combineReducers_well_formed _ _ _ _ Hc) as Hwf.
  destruct (diagnostic_ok c s action w Hwf Hdiag) as (wd & Hd & _).
  rewrite combination_steps, Hshape, Hd, Hkeys.
  rewrite (slices_undefined c s action pre post key false [] _ Hpre Hkey).
  destruct (getUndefinedStateErrorMessage key action); eauto.
Qed.

(** The object the combined reducer returns holds exactly the retained
    keys, so on that object the key count never differs: a later call on
    it, when its diagnostic comes to an end and the slice reducers keep the
    contract, returns it unchanged exactly when every slice reducer hands
    back its slice. *)
Theorem combination_settles (reducers : object) (w0 w1 : world)
    (c : combined) (s : object) (action : value) (w w' : world) (v : value) :
  combineReducers call (VObject reducers) w0 = (Ok c, w1) ->
  combination call c (VObject s) action w = (Ok v, w') ->
  v <> VObject s ->
  exists o,
    v = VObject o /\
    isPlainObject v = true /\
    forall action' w2,
      next_id w' <= next_id w2 ->
      diagnosed call c o ->
      Forall (slice_defined call c o action') (finalReducerKeys c) ->
      exists v' w3,
        combination call c v action' w2 = (Ok v', w3) /\
        (v' = v <->
         Forall (slice_unchanged call c o action') (finalReducerKeys c)).
Proof.
  intros Hc Hrun Hnew.
  pose proof (combineReducers_well_formed _ _ _ _ Hc) as Hwf.
  destruct (combination_inv c s action w w' v Hwf Hrun)
    as (Hshape & Hdiag & Hdef).
  destruct (combination_result c s action w Hwf Hshape Hdiag Hdef)
    as (wa & Hida & Heqa).
  rewrite Hrun in Heqa. injection Heqa as Hv Hw'. subst wa.
  destruct (_ || _) in Hv; [|contradiction].
  set (o := Obj (next_id w) false (Some Object_prototype)
              (map (fun key => (key, slice_next call c s action key))
                   (finalReducerKeys c))).
  exists o. split; [exact Hv|]. split; [now rewrite Hv|].
  intros action' w2 Hlater Hdiag' Hdef'.
  destruct (combination_result c o action' w2 Hwf Hshape Hdiag' Hdef')
    as (wb & _ & Heqb).
  assert (Hkeys : keys o = finalReducerKeys c).
  { unfold keys, o. simpl. rewrite map_map. simpl. apply map_id. }
  rewrite Hkeys, Nat.eqb_refl, orb_false_r in Heqb.
  rewrite Hv. eexists _, _. split; [exact Heqb|].
  pose proof (unchanged_existsb c o action' _ Hdef') as Hun.
  destruct (existsb _ (finalReducerKeys c)) eqn:Hex.
  - split.
    + intros Heq. exfalso. injection Heq as Hid _. lia.
    + intros Hall. apply Hun in Hall. discriminate.
  - split; [intros _; now apply Hun | reflexivity].
Qed.

Lemma get_empty (id : nat) (key : string) :
  get (Obj id false (Some Object_prototype) []) key = empty_slice key.
Proof.
  assert (Hproto : forall receiver,
            get_from receiver Object_prototype key =
            default VUndefined (Object_prototype_member receiver key)).
  { intros receiver. unfold Object_prototype. cbn [get_from assoc Nat.eqb].
    now destruct (Object_prototype_member receiver key). }
  unfold get, empty_slice. cbn [get_from assoc]. rewrite Hproto.
  unfold Object_prototype_member. cbn [getPrototypeOf obj_proto].
  destruct (Nat.eqb id 0); destruct (String.eqb key "__proto__");
    try reflexivity;
    destruct (assoc key Object_prototype_methods); reflexivity.
Qed.

(** A call without a state, as [createStore] makes it to build the first
    state tree, is a call on a new object [{}]: when every retained reducer
    answers a defined value for the slice of that object ([undefined], or
    for a key such as [toString] what [Object.prototype] holds), the
    combined reducer returns a new object that holds these answers under
    the retained keys.  With no reducer retained it returns the empty
    object it took for the state. *)
Theorem combination_initial_state (reducers : object) (w0 w1 : world)
    (c : combined) (action : value) (w : world) :
  combineReducers call (VObject reducers) w0 = (Ok c, w1) ->
  rethrown c = None ->
  Forall (fun key => exists v, initial_slice call c action key = Ok v /\
                               is_undefined v = false)
         (finalReducerKeys c) ->
  exists w',
    combination call c VUndefined action w =
    (Ok (literal
           (match finalReducerKeys c with
            | [] => next_id w
            | _ :: _ => S (next_id w)
            end)
           (map (fun key =>
                   (key, match initial_slice call c action key with
                         | Ok v => v
                         | Throw _ => VUndefined
                         end))
                (finalReducerKeys c))),
     w').
Proof.
  intros Hc Hshape Hdef.
  pose proof (combineReducers_well_formed _ _ _ _ Hc) as Hwf.
  rewrite combination_default.
  assert (Hdiag : diagnosed call c
                    (Obj (next_id w) false (Some Object_prototype) []))
    by (intros _ _ _; constructor).
  assert (Hdef' : Forall (slice_defined call c
                            (Obj (next_id w) false (Some Object_prototype) [])
                            action) (finalReducerKeys c)).
  { eapply Forall_impl; [exact Hdef|]. intros key (v & Hv & Hu).
    exists v. split; [|assumption].
    unfold slice_call. rewrite get_empty. exact Hv. }
  destruct (combination_result c (Obj (next_id w) false (Some Object_prototype) [])
              action (snd (alloc w)) Hwf Hshape Hdiag Hdef') as (w' & _ & Heq).
  exists w'. unfold literal in *. rewrite Heq. f_equal.
  assert (Hmap : map (fun key =>
                        (key, slice_next call c
                                (Obj (next_id w) false (Some Object_prototype) [])
                                action key)) (finalReducerKeys c) =
                 map (fun key =>
                        (key, match initial_slice call c action key with
                              | Ok v => v
                              | Throw _ => VUndefined
                              end)) (finalReducerKeys c)).
  { apply map_ext. intros key. unfold slice_next, slice_call.
    now rewrite get_empty. }
  rewrite Hmap.
  destruct (finalReducerKeys c) as [|k ks] eqn:Hks; simpl.
  - reflexivity.
  - rewrite orb_true_r. reflexivity.
Qed.

(** *** The diagnostics of a development build *)



(** In a development build, the console after a call of the combined
    reducer on a state object: the diagnostic's line if there is one, and
    the cache as the diagnostic left it, whether the call returns or a
    slice reducer makes it raise. *)
Lemma combination_world (c : combined) (s : object) (action : value)
    (ref : nat) (w w' wd : world) (m : option string) (r : result value) :
  production = false -> unexpectedKeyCache c = Some ref ->
  rethrown c = None ->
  getUnexpectedStateShapeWarningMessage
    call (VObject s) (finalReducers c) action (Some ref) w = (Ok m, wd) ->
  combination call c (VObject s) action w = (r, w') ->
  console w' = console wd ++ match m with Some line => [line] | None => [] end /\
  caches w' = caches wd.
Proof.
  intros Hdev Hcache Hshape Hm. rewrite combination_steps, Hshape.
  unfold diagnostic. rewrite Hcache, Hdev.
  unfold negb. cbv iota.
  unfold mbind at 1, M_bind at 1. rewrite Hm.
  assert (Hw : exists wm,
    match m with Some message => warning message | None => mret tt end wd
    = (Ok tt, wm) /\
    console wm = console wd ++ match m with Some line => [line] | None => [] end /\
    caches wm = caches wd).
  { destruct m as [line|]; simpl; eexists; repeat split.
    now rewrite app_nil_r. }
  destruct Hw as (wm & -> & Hcons & Hcaches).
  destruct (slices call c (finalReducerKeys c) (VObject s) action false [] _)
    as [[[hasChanged nextState]|e] w3] eqn:Hsl;
    apply slices_world in Hsl; subst w3.
  - intros [= _ <-]. simpl. auto.
  - intros [= _ <-]. simpl. auto.
Qed.


(** What a call of the combined reducer writes to the console: at most one
    line, and none in a production build. *)
Lemma combination_console (c : combined) (state action : value)
    (w w' : world) (r : result value) :
  combination call c state action w = (r, w') ->
  exists lines,
    console w' = console w ++ lines /\ length lines <= 1 /\
    (production = true -> lines = []).
Proof.
  unfold combination.
  unfold mbind at 1, M_bind at 1.
  assert (Hstate : exists state0 wa,
    (if strict_eq state VUndefined then new_literal [] else mret state) w
    = (Ok state0, wa) /\ console wa = console w).
  { destruct (strict_eq state VUndefined); eexists _, _; split; reflexivity. }
  destruct Hstate as (state0 & wa & -> & <-).
  destruct (rethrown c) as [e|].
  { intros [= _ <-]. exists []. rewrite app_nil_r. repeat split. simpl. lia. }
  unfold mbind at 1, M_bind at 1.
  destruct (diagnostic call c state0 action wa) as [[u|e] wd] eqn:Hd;
    destruct (diagnostic_console _ _ _ _ _ _ Hd)
      as (lines & Hcons & Hlen & Hprod).
  - unfold mbind at 1, M_bind at 1. unfold alloc at 1. cbv iota.
    unfold mbind at 1, M_bind at 1.
    destruct (slices call c (finalReducerKeys c) state0 action false [] _)
      as [[[hasChanged nextState]|e] w3] eqn:Hsl;
      apply slices_world in Hsl; subst w3.
    + unfold mbind at 1, M_bind at 1. unfold lift.
      destruct (keys_value state0); intros [= _ <-]; exists lines; auto.
    + intros [= _ <-]. exists lines. auto.
  - intros [= _ <-]. exists lines. auto.
Qed.

(** *** A combined reducer without reducers *)

(** When no entry of [reducers] is a function, the combined reducer keeps
    nothing of the state: it returns the state object itself when that has
    no key, and a new empty object otherwise.  In a development build every
    such call writes the same line to the console (this diagnostic is not
    cached); a production build writes nothing. *)
Theorem combination_without_reducers (reducers : object) (w0 w1 : world)
    (c : combined) (s : object) (action : value) (w : world) :
  combineReducers call (VObject reducers) w0 = (Ok c, w1) ->
  finalReducerKeys c = [] ->
  exists w',
    combination call c (VObject s) action w =
    (Ok (if Nat.eqb (length (keys s)) 0 then VObject s
         else literal (next_id w) []),
     w') /\
    console w' =
    console w ++
    (if production then []
     else ["Store does not have a valid reducer. Make sure the argument passed " +:+
           "to combineReducers is an object whose values are reducers."]).
Proof.
  intros Hc Hnone.
  pose proof (combineReducers_well_formed _ _ _ _ Hc) as Hwf.
  assert (Hshape : rethrown c = None).
  { destruct (combineReducers_run reducers w0 c w1 Hc)
      as (fr & wa & cache & wb & _ & _ & _ & _ & Heq).
    rewrite Heq in Hc. injection Hc as <- _. unfold rethrown. simpl in *.
    unfold assertReducerShape. rewrite Hnone. reflexivity. }
  assert (Hdiag : diagnosed call c s) by (intros _ Hne; contradiction).
  assert (Hdef : Forall (slice_defined call c s action) (finalReducerKeys c))
    by (rewrite Hnone; constructor).
  destruct (combination_result c s action w Hwf Hshape Hdiag Hdef)
    as (w' & _ & Heq).
  rewrite Hnone in Heq. simpl in Heq.
  exists w'. split.
  - rewrite Heq. f_equal.
    destruct (length (keys s)); reflexivity.
  - destruct production eqn:Hprod.
    + destruct (combination_console c (VObject s) action w w' _ Heq)
        as (lines & Hcons & _ & Hlines).
      now rewrite Hcons, (Hlines Hprod).
    + destruct Hwf as (Hkeys & _ & _ & Hcache).
      destruct (Hcache Hprod) as [ref Href].
      rewrite Hkeys in Hnone.
      destruct (warning_message_early (VObject s) (finalReducers c) action
                  (Some ref) w (or_introl Hnone)) as [m Hm].
      destruct (combination_world c s action ref w w' w _ _ Hprod Href Hshape
                  Hm Heq) as [Hcons _].
      rewrite Hcons. f_equal. f_equal.
      revert Hm. unfold getUnexpectedStateShapeWarningMessage.
      destruct (action_has_type_ok action INIT) as [isInit HI].
      run_M. rewrite HI, Hnone. simpl. now intros [= <-].
Qed.

(** *** Slices that hold [NaN] *)

Lemma strict_eq_nan (v : value) : strict_eq v (VNumber PrimFloat.nan) = false.
Proof.
  destruct v as [| | b | x | t | o]; try reflexivity.
  simpl. rewrite FloatAxioms.eqb_spec.
  replace (FloatOps.Prim2SF PrimFloat.nan) with SpecFloat.S754_nan
    by reflexivity.
  unfold SpecFloat.SFeqb, SpecFloat.SFcompare.
  destruct (FloatOps.Prim2SF x); reflexivity.
Qed.

(** A state with a slice that holds [NaN] never comes back as it is:
    whatever the reducer of that slice answers, the answer is not [===] to
    [NaN], so the combined reducer returns a new object on every call. *)
Theorem nan_slice_always_changed (reducers : object) (w0 w1 : world)
    (c : combined) (s : object) (action : value) (key : string)
    (w w' : world) (v : value) :
  combineReducers call (VObject reducers) w0 = (Ok c, w1) ->
  In key (finalReducerKeys c) ->
  get s key = VNumber PrimFloat.nan ->
  obj_id s < next_id w ->
  combination call c (VObject s) action w = (Ok v, w') ->
  v = literal (next_id w)
        (map (fun key => (key, slice_next call c s action key))
             (finalReducerKeys c)) /\
  v <> VObject s.
Proof.
  intros Hc Hin Hnan Hfresh Hrun.
  pose proof (combineReducers_well_formed _ _ _ _ Hc) as Hwf.
  destruct (combination_inv c s action w w' v Hwf Hrun)
    as (Hshape & Hdiag & Hdef).
  destruct (combination_result c s action w Hwf Hshape Hdiag Hdef)
    as (wa & _ & Heq).
  rewrite Hrun in Heq. injection Heq as -> _.
  replace (existsb _ (finalReducerKeys c)) with true.
  - simpl. split; [reflexivity|].
    intros Heq. injection Heq as Hid. destruct s as [i cl p ps].
    simpl in Hfresh. injection Hid as Hi _. lia.
  - symmetry. apply existsb_exists. exists key. split; [exact Hin|].
    now rewrite Hnan, strict_eq_nan.
Qed.

End Facts.

(** The claims on the demo application. *)

Lemma demo_diagnosed (call : nat -> list value -> result value)
    (c : combined) (s : object) :
  get (finalReducers c) "hasOwnProperty" = Object_hasOwnProperty ->
  Forall (key_tested call (finalReducers c)) (keys s).
Proof.
  intros Hget. apply List.Forall_forall. intros key _.
  unfold key_tested, own_property_test. rewrite Hget. simpl. eauto.
Qed.




Lemma combination_drops_unknown_keys_witness :
  exists o,
    literal 26 [("counter", VNumber 6%float); ("name", VString "redux")]
    = VObject o /\
    keys o = finalReducerKeys Demo.combined /\
    forall key,
      In key (keys Demo.state) -> ~ In key (finalReducerKeys Demo.combined) ->
      ~ In key (keys o).
Proof.
  apply (combination_drops_unknown_keys (H := Demo.runtime) Demo.call
           Demo.reducers Demo.world Demo.world_combined Demo.combined
           Demo.state Demo.increment Demo.world_combined
           (snd (combination (H := Demo.runtime) Demo.call Demo.combined
                   (VObject Demo.state) Demo.increment Demo.world_combined))).
  - vm_compute. reflexivity.
  - vm_compute. reflexivity.
  - discriminate.
Defined.

(** A slice that holds [NaN]: the reducer hands it back as it is, and the
    combined reducer still returns a new object, since [NaN !== NaN]. *)
Example nan_slice_counts_as_changed :
  slice_call Demo.call Demo.combined_name Demo.nan_state Demo.increment "name"
  = Ok (get Demo.nan_state "name") /\
  length (finalReducerKeys Demo.combined_name) = length (keys Demo.nan_state) /\
  fst (combination (H := Demo.runtime) Demo.call Demo.combined_name
         (VObject Demo.nan_state) Demo.increment Demo.world_combined)
  = Ok (literal 26 [("name", VNumber PrimFloat.nan)]).
Proof. vm_compute. repeat split. Qed.

(** *** Names that [Object.prototype] has too *)

(** [{ constructor: keeper }] on the state [{ x: 1 }]: the slice read is
    [state.constructor], which is [Object]; the reducer hands it back and
    the combined reducer returns the state it was given, after a warning
    about the key [x]. *)
Example constructor_slice_is_inherited :
  finalReducerKeys (Demo.combined_members Demo.constructor_reducers)
  = ["constructor"] /\
  get Demo.x_state "constructor" = builtin 100 /\
  fst (combination (H := Demo.runtime) Demo.call_members
         (Demo.combined_members Demo.constructor_reducers)
         (VObject Demo.x_state) Demo.drop
         (Demo.world_members Demo.constructor_reducers))
  = Ok (VObject Demo.x_state) /\
  length (console
            (snd (combination (H := Demo.runtime) Demo.call_members
                    (Demo.combined_members Demo.constructor_reducers)
                    (VObject Demo.x_state) Demo.drop
                    (Demo.world_members Demo.constructor_reducers)))) = 1.
Proof. vm_compute. repeat split. Qed.

(** [{ hasOwnProperty: strict }]: in a development build the test
    [reducers.hasOwnProperty(key)] calls the reducer with the key for
    state and no action, and what the reducer raises then is raised by the
    combined reducer. *)
Example own_property_test_calls_reducer :
  finalReducerKeys (Demo.combined_members Demo.strict_reducers)
  = ["hasOwnProperty"] /\
  shapeAssertionError (Demo.combined_members Demo.strict_reducers) = None /\
  fst (combination (H := Demo.runtime) Demo.call_members
         (Demo.combined_members Demo.strict_reducers)
         (VObject Demo.x_state) Demo.drop
         (Demo.world_members Demo.strict_reducers))
  = Throw (TypeError "Cannot read properties of undefined (reading 'type')").
Proof. vm_compute. repeat split. Qed.

(** [{ hasOwnProperty: zero, counter }]: every key is reported as no key
    of the reducers.  The key [hasOwnProperty] of the state passes, since
    [unexpectedKeyCache.hasOwnProperty] is the inherited function; the key
    [counter] of the second state is warned about, though it has a
    reducer. *)
Example own_property_test_answers_falsy :
  let c := Demo.combined_members Demo.zero_reducers in
  let w1 := snd (combination (H := Demo.runtime) Demo.call_members c
                   (VObject Demo.zero_state1) Demo.drop
                   (Demo.world_members Demo.zero_reducers)) in
  let w2 := snd (combination (H := Demo.runtime) Demo.call_members c
                   (VObject Demo.zero_state2) Demo.drop w1) in
  console w1 = console (Demo.world_members Demo.zero_reducers) /\
  length (console w2) = S (length (console w1)).
Proof. vm_compute. split; reflexivity. Qed.

(** [{ touchy }]: the probe raises the number 0, which is recorded and,
    being falsy, never raised again: the combined reducer works. *)
Example falsy_exception_not_rethrown :
  shapeAssertionError (Demo.combined_members Demo.touchy_reducers)
  = Some (Thrown (VNumber 0%float)) /\
  rethrown (Demo.combined_members Demo.touchy_reducers) = None /\
  fst (combination (H := Demo.runtime) Demo.call_members
         (Demo.combined_members Demo.touchy_reducers)
         (VObject Demo.touchy_state) Demo.drop
         (Demo.world_members Demo.touchy_reducers))
  = Ok (VObject Demo.touchy_state).
Proof. vm_compute. repeat split. Qed.

(** [{ ['__proto__']: counter, name }]: the first assignment makes
    [counter] the prototype of [finalReducers], and the second, to [name],
    is refused: the [name] of a function is read-only.  [combineReducers]
    raises. *)
Example combineReducers_refused_assignment :
  exists message,
    fst (combineReducers (H := Demo.runtime) Demo.call
           (VObject Demo.proto_reducers) Demo.world)
    = Throw (TypeError message).
Proof. eexists. vm_compute. reflexivity. Qed.

(** [combineReducers(null)] and [combineReducers(undefined)] raise where
    [Object.keys] does. *)
Example combineReducers_of_null :
  (exists message,
     fst (combineReducers (H := Demo.runtime) Demo.call VNull Demo.world)
     = Throw (TypeError message)) /\
  (exists message,
     fst (combineReducers (H := Demo.runtime) Demo.call VUndefined Demo.world)
     = Throw (TypeError message)).
Proof. split; eexists; vm_compute; reflexivity. Qed.

(** The further properties on the demo application. *)

Lemma probes_pass_witness :
  exists c w',
    combineReducers (H := Demo.runtime) Demo.call (VObject Demo.reducers)
      Demo.world = (Ok c, w') /\
    shapeAssertionError c = None.
Proof.
  destruct (probes_pass (H := Demo.runtime) Demo.call Demo.reducers
              Demo.world) as [Hret Hnone].
  { intros key Hin Hfun. simpl in Hin.
    destruct Hin as [<-|[<-|[<-|[]]]]; [| |discriminate Hfun];
      split; intros; eexists; split; reflexivity. }
  destruct Hret as (c & w' & Hc).
  { intros key Hin _ ->. vm_compute in Hin. intuition discriminate. }
  exists c, w'. split; [exact Hc | exact (Hnone c w' Hc)].
Defined.

Lemma combination_undefined_slice_witness :
  exists w',
    combination (H := Demo.runtime) Demo.call_fussy Demo.combined_fussy
      (VObject Demo.fussy_state) Demo.drop Demo.world_combined
    = (match getUndefinedStateErrorMessage (H := Demo.runtime) "fussy"
               Demo.drop with
       | Ok message => Throw (Error message)
       | Throw e => Throw e
       end, w').
Proof.
  apply (combination_undefined_slice (H := Demo.runtime) Demo.call_fussy
           Demo.fussy_reducers Demo.world Demo.world_combined
           Demo.combined_fussy Demo.fussy_state Demo.drop ["counter"] []
           "fussy").
  - vm_compute. reflexivity.
  - vm_compute. reflexivity.
  - reflexivity.
  - intros _ _ _. now apply demo_diagnosed.
  - vm_compute. reflexivity.
  - repeat constructor. eexists. split; vm_compute; reflexivity.
  - vm_compute. reflexivity.
Defined.

Lemma combination_settles_witness :
  exists o,
    literal 26 [("counter", VNumber 6%float); ("name", VString "redux")]
    = VObject o /\
    isPlainObject
      (literal 26 [("counter", VNumber 6%float); ("name", VString "redux")])
    = true /\
    forall action' w2,
      next_id (snd (combination (H := Demo.runtime) Demo.call Demo.combined
                      (VObject Demo.state) Demo.increment Demo.world_combined))
      <= next_id w2 ->
      diagnosed (H := Demo.runtime) Demo.call Demo.combined o ->
      Forall (slice_defined Demo.call Demo.combined o action')
             (finalReducerKeys Demo.combined) ->
      exists v' w3,
        combination (H := Demo.runtime) Demo.call Demo.combined
          (literal 26 [("counter", VNumber 6%float); ("name", VString "redux")])
          action' w2 = (Ok v', w3) /\
        (v' = literal 26 [("counter", VNumber 6%float);
                          ("name", VString "redux")] <->
         Forall (slice_unchanged Demo.call Demo.combined o action')
                (finalReducerKeys Demo.combined)).
Proof.
  apply (combination_settles (H := Demo.runtime) Demo.call
           Demo.reducers Demo.world Demo.world_combined Demo.combined
           Demo.state Demo.increment Demo.world_combined
           (snd (combination (H := Demo.runtime) Demo.call Demo.combined
                   (VObject Demo.state) Demo.increment Demo.world_combined))).
  - vm_compute. reflexivity.
  - vm_compute. reflexivity.
  - discriminate.
Defined.

Lemma combination_initial_state_witness :
  exists w',
    combination (H := Demo.runtime) Demo.call Demo.combined VUndefined
      Demo.increment Demo.world_combined =
    (Ok (literal
           (match finalReducerKeys Demo.combined with
            | [] => next_id Demo.world_combined
            | _ :: _ => S (next_id Demo.world_combined)
            end)
           (map (fun key =>
                   (key, match initial_slice Demo.call Demo.combined
                                 Demo.increment key with
                         | Ok v => v
                         | Throw _ => VUndefined
                         end))
                (finalReducerKeys Demo.combined))),
     w').
Proof.
  apply (combination_initial_state (H := Demo.runtime) Demo.call
           Demo.reducers Demo.world Demo.world_combined).
  - vm_compute. reflexivity.
  - vm_compute. reflexivity.
  - repeat constructor; eexists; split; vm_compute; reflexivity.
Defined.


Lemma combination_without_reducers_witness :
  exists w',
    combination (H := Demo.runtime) Demo.call Demo.combined_none
      (VObject Demo.state) Demo.increment Demo.world_combined =
    (Ok (if Nat.eqb (length (keys Demo.state)) 0 then VObject Demo.state
         else literal (next_id Demo.world_combined) []),
     w') /\
    console w' =
    console Demo.world_combined ++
    (if production (Runtime := Demo.runtime) then []
     else ["Store does not have a valid reducer. Make sure the argument passed " +:+
           "to combineReducers is an object whose values are reducers."]).
Proof.
  apply (combination_without_reducers (H := Demo.runtime) Demo.call
           Demo.no_reducers Demo.world
           (snd (combineReducers (H := Demo.runtime) Demo.call
                   (VObject Demo.no_reducers) Demo.world))).
  - vm_compute. reflexivity.
  - vm_compute. reflexivity.
Defined.

Lemma nan_slice_always_changed_witness :
  literal 26 [("name", VNumber PrimFloat.nan)] =
  literal (next_id Demo.world_combined)
    (map (fun key =>
            (key, slice_next Demo.call Demo.combined_name Demo.nan_state
                    Demo.increment key))
         (finalReducerKeys Demo.combined_name)) /\
  literal 26 [("name", VNumber PrimFloat.nan)] <> VObject Demo.nan_state.
Proof.
  apply (nan_slice_always_changed (H := Demo.runtime) Demo.call
           Demo.name_only Demo.world
           (snd (combineReducers (H := Demo.runtime) Demo.call
                   (VObject Demo.name_only) Demo.world))
           Demo.combined_name Demo.nan_state Demo.increment "name"
           Demo.world_combined
           (snd (combination (H := Demo.runtime) Demo.call Demo.combined_name
                   (VObject Demo.nan_state) Demo.increment Demo.world_combined))).
  - vm_compute. reflexivity.
  - vm_compute. tauto.
  - reflexivity.
  - vm_compute. lia.
  - vm_compute. reflexivity.
Defined.

End CombineReducersFacts.


(** ** The store engine *)

Module CreateStoreFacts.
Import JS ActionTypes IsPlainObject CreateStore.

(** *** The relation [later] *)

Lemma since_mono (n m : nat) (e : event) : n <= m -> since m e -> since n e.
Proof. destruct e; simpl; lia. Qed.

Lemma step_refl (n : nat) (s : store) : step n s s.
Proof.
  constructor; auto.
  exists []. split; [now rewrite app_nil_r | constructor].
Qed.

Lemma step_trans (n m : nat) (s1 s2 s3 : store) :
  step n s1 s2 -> step m s2 s3 -> n <= m -> step n s1 s3.
Proof.
  intros H12 H23 Hnm. constructor.
  - intros Hwf. apply H23, H12, Hwf.
  - intros ref Hg. destruct (step_guarded _ _ _ H12 ref Hg) as [Hg2 He2].
    destruct (step_guarded _ _ _ H23 ref Hg2) as [Hg3 He3].
    split; [assumption | congruence].
  - pose proof (step_dispatches _ _ _ H12).
    pose proof (step_dispatches _ _ _ H23). lia.
  - destruct (step_journal _ _ _ H12) as (e1 & He1 & Hf1).
    destruct (step_journal _ _ _ H23) as (e2 & He2 & Hf2).
    exists (e1 ++ e2). split; [now rewrite He2, He1, <- app_assoc|].
    apply Forall_app. split; [assumption|].
    eapply Forall_impl; [exact Hf2|]. intros e. now apply since_mono.
Qed.

Lemma later_refl (n : nat) (s : store) : later n s s.
Proof.
  constructor; auto using step_refl. intros _. repeat split.
Qed.

Lemma later_trans (n m : nat) (s1 s2 s3 : store) :
  later n s1 s2 -> later m s2 s3 -> n <= m -> later n s1 s3.
Proof.
  intros H12 H23 Hnm. constructor.
  - eapply step_trans; [apply H12 | apply H23 | assumption].
  - rewrite (later_flag _ _ _ H23). apply (later_flag _ _ _ H12).
  - intros Hd.
    destruct (later_frozen _ _ _ H12 Hd) as (? & ? & ? & ? & ? & ?).
    assert (Hd2 : isDispatching s2 = true)
      by (now rewrite (later_flag _ _ _ H12)).
    destruct (later_frozen _ _ _ H23 Hd2) as (? & ? & ? & ? & ? & ?).
    repeat split; congruence.
Qed.

Lemma later_weaken (n m : nat) (s s' : store) :
  later m s s' -> n <= m -> later n s s'.
Proof.
  intros Hl Hnm. apply later_trans with (m := m) (s2 := s); auto.
  apply later_refl.
Qed.

(** Operations in sequence: each is numbered from where it starts. *)
Lemma later_then (s1 s2 s3 : store) :
  later (dispatches s1) s1 s2 -> later (dispatches s2) s2 s3 ->
  later (dispatches s1) s1 s3.
Proof.
  intros H12 H23. eapply later_trans; [exact H12 | exact H23 |].
  apply (step_dispatches _ _ _ (later_step _ _ _ H12)).
Qed.

(** *** The listener arrays *)

Lemma array_lookup (s : store) (ref : nat) (a : list value) :
  arrays s !! ref = Some a -> array s ref = a.
Proof. unfold array. now intros ->. Qed.

Lemma ensure_arrays (s : store) :
  exists tail,
    arrays (ensureCanMutateNextListeners s) = arrays s ++ tail.
Proof.
  unfold ensureCanMutateNextListeners. destruct (same_array s); simpl.
  - eauto.
  - exists []. now rewrite app_nil_r.
Qed.

Lemma ensure_fields (s : store) :
  let s' := ensureCanMutateNextListeners s in
  currentReducer s' = currentReducer s /\
  currentState s' = currentState s /\
  currentListeners s' = currentListeners s /\
  isDispatching s' = isDispatching s /\
  subscriptions s' = subscriptions s /\
  next_id s' = next_id s /\
  dispatches s' = dispatches s /\
  journal s' = journal s.
Proof.
  unfold ensureCanMutateNextListeners. destruct (same_array s); simpl; tauto.
Qed.

Lemma ensure_next (s : store) :
  nextListeners s < length (arrays s) ->
  (forall ref, currentListeners s = Some ref -> ref < length (arrays s)) ->
  let s' := ensureCanMutateNextListeners s in
  nextListeners s' < length (arrays s') /\
  array s' (nextListeners s') = array s (nextListeners s) /\
  currentListeners s' <> Some (nextListeners s') /\
  (forall ref, guarded ref s -> nextListeners s' <> ref).
Proof.
  intros Hn Hc. unfold ensureCanMutateNextListeners, same_array, guarded.
  destruct (currentListeners s) as [c|] eqn:Ec.
  - destruct (Nat.eqb_spec c (nextListeners s)) as [->|Hne]; simpl.
    + rewrite length_app. simpl. split; [|split; [|split]].
      * lia.
      * unfold array at 1. simpl.
        now rewrite lookup_app_r, Nat.sub_diag by lia.
      * rewrite Ec. intros [=]. lia.
      * intros ref [Hlt _]. lia.
    + split; [|split; [|split]]; auto.
      * rewrite Ec. congruence.
      * intros ref [_ Hg] Heq. specialize (Hg Heq). congruence.
  - simpl. split; [|split; [|split]]; auto.
    + rewrite Ec. discriminate.
    + intros ref [_ Hg] Heq. specialize (Hg Heq). congruence.
Qed.

Lemma active_app (subs1 subs2 : list (value * bool)) :
  active (subs1 ++ subs2) = active subs1 ++ active subs2.
Proof.
  induction subs1 as [|[l b] subs1 IH]; simpl; [reflexivity|].
  destruct b; simpl; now rewrite IH.
Qed.

Lemma subscribe_later (n : nat) (listener : value) (s s' : store)
    (r : result nat) :
  subscribe listener s = (r, s') -> later n s s'.
Proof.
  unfold subscribe.
  destruct (is_function listener) eqn:Hfun; simpl;
    [|intros [= _ <-]; apply later_refl].
  destruct (isDispatching s) eqn:Hflag; [intros [= _ <-]; apply later_refl|].
  set (s0 := set_subscriptions (subscriptions s ++ [(listener, true)]) s).
  pose proof (ensure_fields s0) as Hfields.
  pose proof (ensure_arrays s0) as [tail Htail].
  pose proof (ensure_next s0) as Hensure.
  remember (ensureCanMutateNextListeners s0) as s1 eqn:Hs1.
  cbv zeta in Hfields, Hensure.
  destruct Hfields as (_ & _ & Hcur & Hdisp & Hsubs & _ & Hnum & Hjour).
  intros [= _ <-].
  constructor; [constructor| |]; simpl.
  - intros [Hn Hc Hp Hf Hj].
    destruct (Hensure Hn Hc) as (Hn1 & Harr & _ & _).
    constructor; simpl.
    + now rewrite length_insert.
    + rewrite Hcur. intros ref Href. rewrite length_insert, Htail, length_app.
      specialize (Hc ref Href). simpl. lia.
    + unfold array at 1. simpl.
      rewrite list_lookup_insert_eq by assumption. simpl.
      rewrite Harr, Hsubs. simpl. rewrite active_app, !map_app. simpl.
      now apply Permutation_app.
    + rewrite Hsubs. simpl. apply Forall_app. split; [assumption|].
      constructor; [assumption | constructor].
    + now rewrite Hnum, Hjour.
  - intros ref [Hlt Hg].
    assert (Hg0 : guarded ref s0) by (split; assumption).
    assert (Hne : nextListeners s1 <> ref).
    { unfold ensureCanMutateNextListeners, same_array in Hs1.
      destruct (currentListeners s0) as [c|] eqn:Ec.
      - destruct (Nat.eqb_spec c (nextListeners s0)) as [->|Hc]; subst s1;
          simpl in *.
        + lia.
        + intros He. specialize (Hg He). congruence.
      - subst s1. simpl in *. intros He. specialize (Hg He). congruence. }
    unfold guarded. simpl. split.
    + split; [|intros He; contradiction].
      rewrite length_insert, Htail, length_app. simpl. lia.
    + rewrite list_lookup_insert_ne by assumption.
      rewrite Htail. simpl. now rewrite lookup_app_l.
  - now rewrite Hnum.
  - exists []. rewrite app_nil_r. split; [assumption | constructor].
  - now rewrite Hdisp.
  - intros Hd. congruence.
Qed.

Lemma ensure_not_guarded (s : store) (ref : nat) :
  guarded ref s -> nextListeners (ensureCanMutateNextListeners s) <> ref.
Proof.
  intros [Hlt Hg]. unfold ensureCanMutateNextListeners, same_array.
  destruct (currentListeners s) as [c|] eqn:Ec.
  - destruct (Nat.eqb_spec c (nextListeners s)) as [->|Hc]; simpl.
    + lia.
    + intros He. specialize (Hg He). congruence.
  - simpl. intros He. specialize (Hg He). congruence.
Qed.

Lemma function_is_object (x : value) :
  is_function x = true -> exists o, x = VObject o.
Proof. destruct x; try discriminate. eauto. Qed.

Lemma strict_eq_identity (y x : value) :
  is_function x = true ->
  strict_eq y x = true <-> identity y = identity x.
Proof.
  intros [o ->]%function_is_object.
  destruct y as [| | b | f | t | oy]; simpl; try (split; discriminate).
  rewrite Nat.eqb_eq. split; congruence.
Qed.

Lemma indexOf_found (a : list value) (x : value) :
  is_function x = true ->
  In (identity x) (map identity a) ->
  exists k y, indexOf a x = Some k /\ a !! k = Some y /\
              identity y = identity x.
Proof.
  intros Hfun. induction a as [|z a IH]; simpl; [tauto|].
  intros Hin. destruct (strict_eq z x) eqn:Hz.
  - exists 0, z. repeat split. now apply strict_eq_identity.
  - destruct Hin as [Heq|Hin].
    + apply strict_eq_identity in Heq; [congruence | assumption].
    + destruct (IH Hin) as (k & y & -> & Hk & Hy). exists (S k), y. auto.
Qed.

Lemma active_deactivate (subs : list (value * bool)) (sub : nat) (x : value) :
  subs !! sub = Some (x, true) ->
  Permutation (active subs) (x :: active (<[sub := (x, false)]> subs)).
Proof.
  revert sub. induction subs as [|[l b] subs IH]; intros sub; [discriminate|].
  destruct sub as [|sub]; simpl.
  - intros [= -> ->]. reflexivity.
  - intros Hsub. destruct b.
    + rewrite (IH _ Hsub). apply perm_swap.
    + apply IH, Hsub.
Qed.

Lemma unsubscribe_later (n : nat) (sub : nat) (s s' : store)
    (r : result value) :
  unsubscribe sub s = (r, s') -> later n s s'.
Proof.
  unfold unsubscribe.
  destruct (subscriptions s !! sub) as [[x isSubscribed]|] eqn:Hsub;
    [|intros [= _ <-]; apply later_refl].
  destruct isSubscribed; simpl; [|intros [= _ <-]; apply later_refl].
  destruct (isDispatching s) eqn:Hflag; [intros [= _ <-]; apply later_refl|].
  set (s0 := set_subscriptions (<[sub := (x, false)]> (subscriptions s)) s).
  pose proof (ensure_fields s0) as Hfields.
  pose proof (ensure_arrays s0) as [tail Htail].
  pose proof (ensure_next s0) as Hensure.
  pose proof (ensure_not_guarded s0) as Hunguarded.
  remember (ensureCanMutateNextListeners s0) as s1 eqn:Hs1.
  cbv zeta in Hfields, Hensure.
  destruct Hfields as (_ & _ & Hcur & Hdisp & Hsubs & _ & Hnum & Hjour).
  intros [= _ <-].
  constructor; [constructor| |]; simpl.
  - intros [Hn Hc Hp Hf Hj].
    destruct (Hensure Hn Hc) as (Hn1 & Harr & _ & _).
    assert (Hfun : is_function x = true).
    { eapply Forall_lookup_1 in Hf; [|exact Hsub]. exact Hf. }
    constructor; simpl.
    + now rewrite length_insert.
    + discriminate.
    + unfold array at 1. simpl.
      rewrite list_lookup_insert_eq by assumption. simpl.
      rewrite Harr, Hsubs. simpl.
      change (array s0 (nextListeners s)) with (array s (nextListeners s)).
      pose proof (active_deactivate _ _ _ Hsub) as Hact.
      destruct (indexOf_found (array s (nextListeners s)) x Hfun)
        as (k & y & -> & Hk & Hy).
      { eapply Permutation_in; [symmetry; exact Hp|].
        rewrite (Permutation_map identity Hact). now left. }
      simpl. apply delete_Permutation in Hk.
      apply (Permutation_map identity) in Hk, Hact. simpl in Hk, Hact.
      rewrite Hy in Hk.
      apply Permutation_cons_inv with (a := identity x).
      now rewrite <- Hk, <- Hact.
    + rewrite Hsubs. simpl. now apply Forall_insert.
    + now rewrite Hnum, Hjour.
  - intros ref Hg. pose proof (Hunguarded ref Hg) as Hne.
    destruct Hg as [Hlt Hg]. unfold guarded. simpl. split.
    + split; [|intros He; contradiction].
      rewrite length_insert, Htail, length_app. simpl. lia.
    + rewrite list_lookup_insert_ne by assumption.
      rewrite Htail. simpl. now rewrite lookup_app_l.
  - now rewrite Hnum.
  - exists []. rewrite app_nil_r. split; [assumption | constructor].
  - now rewrite Hdisp.
  - intros Hd. congruence.
Qed.

(** *** Subscribing and unsubscribing, step by step *)

Lemma subscribe_run (listener : value) (s : store) :
  wf s -> isDispatching s = false -> is_function listener = true ->
  exists s',
    subscribe listener s = (Ok (length (subscriptions s)), s') /\
    array s' (nextListeners s') = array s (nextListeners s) ++ [listener] /\
    subscriptions s' = subscriptions s ++ [(listener, true)] /\
    currentListeners s' = currentListeners s /\
    isDispatching s' = false /\
    currentState s' = currentState s /\
    (forall ref, currentListeners s = Some ref ->
                 arrays s' !! ref = arrays s !! ref).
Proof.
  intros [Hn Hc Hp Hf Hj] Hidle Hfun. unfold subscribe.
  rewrite Hfun, Hidle. simpl.
  set (s0 := set_subscriptions (subscriptions s ++ [(listener, true)]) s).
  pose proof (ensure_fields s0) as Hfields.
  pose proof (ensure_arrays s0) as [tail Htail].
  pose proof (ensure_next s0 Hn Hc) as Hensure.
  remember (ensureCanMutateNextListeners s0) as s1 eqn:Hs1.
  cbv zeta in Hfields, Hensure.
  destruct Hfields as (_ & Hst & Hcur & Hdisp & Hsubs & _ & _ & _).
  destruct Hensure as (Hn1 & Harr & Hne & _).
  eexists. split; [reflexivity|]. simpl. split; [|split; [|split; [|split; [|split]]]].
  - unfold array at 1. simpl. rewrite list_lookup_insert_eq by assumption.
    simpl. now rewrite Harr.
  - exact Hsubs.
  - exact Hcur.
  - now rewrite Hdisp.
  - exact Hst.
  - intros ref Href.
    rewrite list_lookup_insert_ne by (rewrite Hcur in Hne; simpl in Hne; congruence).
    rewrite Htail. simpl. apply lookup_app_l. now apply Hc.
Qed.

Lemma unsubscribe_run (sub : nat) (listener : value) (s : store) :
  wf s -> isDispatching s = false ->
  subscriptions s !! sub = Some (listener, true) ->
  exists s' k,
    unsubscribe sub s = (Ok VUndefined, s') /\
    indexOf (array s (nextListeners s)) listener = Some k /\
    array s' (nextListeners s') = delete k (array s (nextListeners s)) /\
    subscriptions s' = <[sub := (listener, false)]> (subscriptions s) /\
    currentListeners s' = None /\
    isDispatching s' = false /\
    currentState s' = currentState s /\
    (forall ref, currentListeners s = Some ref ->
                 arrays s' !! ref = arrays s !! ref).
Proof.
  intros [Hn Hc Hp Hf Hj] Hidle Hsub. unfold unsubscribe.
  rewrite Hsub, Hidle. simpl.
  set (s0 := set_subscriptions (<[sub := (listener, false)]> (subscriptions s)) s).
  pose proof (ensure_fields s0) as Hfields.
  pose proof (ensure_arrays s0) as [tail Htail].
  pose proof (ensure_next s0 Hn Hc) as Hensure.
  remember (ensureCanMutateNextListeners s0) as s1 eqn:Hs1.
  cbv zeta in Hfields, Hensure.
  destruct Hfields as (_ & Hst & Hcur & Hdisp & Hsubs & _ & _ & _).
  destruct Hensure as (Hn1 & Harr & Hne & _).
  change (array s0 (nextListeners s0)) with (array s (nextListeners s)) in Harr.
  assert (Hfun : is_function listener = true).
  { eapply Forall_lookup_1 in Hf; [|exact Hsub]. exact Hf. }
  destruct (indexOf_found (array s (nextListeners s)) listener Hfun)
    as (k & y & Hk & _ & _).
  { eapply Permutation_in; [symmetry; exact Hp|].
    rewrite (Permutation_map identity (active_deactivate _ _ _ Hsub)).
    now left. }
  eexists _, k. split; [reflexivity|]. simpl.
  split; [exact Hk|]. split; [|split; [|split; [|split; [|split]]]].
  - unfold array at 1. simpl. rewrite list_lookup_insert_eq by assumption.
    simpl. now rewrite Harr, Hk.
  - exact Hsubs.
  - reflexivity.
  - now rewrite Hdisp.
  - exact Hst.
  - intros ref Href.
    rewrite list_lookup_insert_ne by (rewrite Hcur in Hne; simpl in Hne; congruence).
    rewrite Htail. simpl. apply lookup_app_l. now apply Hc.
Qed.

Lemma indexOf_app_found (a b : list value) (x : value) (k : nat) :
  indexOf a x = Some k -> indexOf (a ++ b) x = Some k.
Proof.
  revert k. induction a as [|y a IH]; intros k; simpl; [discriminate|].
  destruct (strict_eq y x); [auto|].
  destruct (indexOf a x) as [i|]; [|discriminate].
  intros [= <-]. now rewrite (IH i eq_refl).
Qed.

Lemma indexOf_app_last (a : list value) (x : value) :
  is_function x = true -> indexOf a x = None ->
  indexOf (a ++ [x]) x = Some (length a).
Proof.
  intros [o ->]%function_is_object.
  induction a as [|y a IH]; simpl.
  - now rewrite Nat.eqb_refl.
  - destruct (strict_eq y (VObject o)); [discriminate|].
    destruct (indexOf a (VObject o)) as [i|]; [discriminate|].
    intros _. now rewrite IH.
Qed.

Lemma indexOf_bound (a : list value) (x : value) (k : nat) :
  indexOf a x = Some k -> k < length a.
Proof.
  revert k. induction a as [|y a IH]; intros k; simpl; [discriminate|].
  destruct (strict_eq y x); [intros [= <-]; lia|].
  destruct (indexOf a x) as [i|]; [|discriminate].
  intros [= <-]. specialize (IH i eq_refl). lia.
Qed.

Lemma delete_app_left {A : Type} (a b : list A) (k : nat) :
  k < length a -> delete k (a ++ b) = delete k a ++ b.
Proof.
  revert k. induction a as [|x a IH]; intros [|k]; simpl; try lia; auto.
  intros Hk. f_equal. apply IH. lia.
Qed.

Lemma active_insert_last (subs : list (value * bool)) (x : value) :
  active (<[length subs := (x, false)]> (subs ++ [(x, true)])) = active subs.
Proof.
  induction subs as [|[l b] subs IH]; simpl; [reflexivity|].
  destruct b; now rewrite IH.
Qed.

(** [subscribe] puts the listener at the end of the pending list and
    answers a new subscription.  The list a notification in progress goes
    through (the committed one) keeps its contents: the pending list is
    copied before it is changed. *)
Theorem subscribe_appends (listener : value) (s : store) :
  wf s -> isDispatching s = false -> is_function listener = true ->
  exists s',
    subscribe listener s = (Ok (length (subscriptions s)), s') /\
    wf s' /\
    array s' (nextListeners s') = array s (nextListeners s) ++ [listener] /\
    subscriptions s' !! length (subscriptions s) = Some (listener, true) /\
    (forall ref, currentListeners s = Some ref ->
                 currentListeners s' = Some ref /\ array s' ref = array s ref) /\
    currentState s' = currentState s.
Proof.
  intros Hwf Hidle Hfun.
  destruct (subscribe_run listener s Hwf Hidle Hfun)
    as (s' & Hrun & Harr & Hsubs & Hcur & _ & Hst & Hkeep).
  exists s'. split; [exact Hrun|]. split; [|split; [|split; [|split]]].
  - apply (subscribe_later 0) in Hrun. now apply Hrun.
  - exact Harr.
  - rewrite Hsubs, lookup_app_r, Nat.sub_diag by lia. reflexivity.
  - intros ref Href. split; [congruence|].
    unfold array. now rewrite (Hkeep ref Href).
  - exact Hst.
Qed.

(** The function [subscribe] returns removes one entry of the pending
    list: the first one that is the listener (so never the last entry for
    want of a match).  It marks the subscription as removed, and a second
    call does nothing.  The committed list keeps its contents. *)
Theorem unsubscribe_removes_first (sub : nat) (listener : value) (s : store) :
  wf s -> isDispatching s = false ->
  subscriptions s !! sub = Some (listener, true) ->
  exists s' k,
    unsubscribe sub s = (Ok VUndefined, s') /\
    wf s' /\
    indexOf (array s (nextListeners s)) listener = Some k /\
    array s' (nextListeners s') = delete k (array s (nextListeners s)) /\
    length (array s' (nextListeners s')) = pred (length (array s (nextListeners s))) /\
    subscriptions s' !! sub = Some (listener, false) /\
    (forall ref, currentListeners s = Some ref -> array s' ref = array s ref) /\
    unsubscribe sub s' = (Ok VUndefined, s').
Proof.
  intros Hwf Hidle Hsub.
  destruct (unsubscribe_run sub listener s Hwf Hidle Hsub)
    as (s' & k & Hrun & Hk & Harr & Hsubs & _ & _ & _ & Hkeep).
  assert (Hsub' : subscriptions s' !! sub = Some (listener, false)).
  { rewrite Hsubs. apply list_lookup_insert_eq.
    now apply lookup_lt_Some in Hsub. }
  exists s', k. split; [exact Hrun|].
  split; [|split; [|split; [|split; [|split; [|split]]]]].
  - apply (unsubscribe_later 0) in Hrun. now apply Hrun.
  - exact Hk.
  - exact Harr.
  - rewrite Harr, length_delete; [lia|].
    apply lookup_lt_is_Some. now apply indexOf_bound in Hk.
  - exact Hsub'.
  - intros ref Href. unfold array. now rewrite (Hkeep ref Href).
  - unfold unsubscribe. now rewrite Hsub'.
Qed.

(** Subscribing a listener and calling the function returned right away
    gives back the pending list as it was, when the listener was not in it.
    When it was, the entry taken out is the earlier one: the listener is
    then called after those that came between. *)
Theorem subscribe_then_unsubscribe (listener : value) (s : store) :
  wf s -> isDispatching s = false -> is_function listener = true ->
  exists s1 s2,
    subscribe listener s = (Ok (length (subscriptions s)), s1) /\
    unsubscribe (length (subscriptions s)) s1 = (Ok VUndefined, s2) /\
    active (subscriptions s2) = active (subscriptions s) /\
    currentState s2 = currentState s /\
    (indexOf (array s (nextListeners s)) listener = None ->
     array s2 (nextListeners s2) = array s (nextListeners s)) /\
    (forall k,
       indexOf (array s (nextListeners s)) listener = Some k ->
       array s2 (nextListeners s2) =
       delete k (array s (nextListeners s)) ++ [listener]).
Proof.
  intros Hwf Hidle Hfun.
  destruct (subscribe_run listener s Hwf Hidle Hfun)
    as (s1 & Hrun1 & Harr1 & Hsubs1 & _ & Hidle1 & Hst1 & _).
  assert (Hwf1 : wf s1).
  { pose proof (subscribe_later 0 _ _ _ _ Hrun1) as Hl. now apply Hl. }
  assert (Hsub : subscriptions s1 !! length (subscriptions s)
                 = Some (listener, true)).
  { rewrite Hsubs1, lookup_app_r, Nat.sub_diag by lia. reflexivity. }
  destruct (unsubscribe_run _ listener s1 Hwf1 Hidle1 Hsub)
    as (s2 & k & Hrun2 & Hk & Harr2 & Hsubs2 & _ & _ & Hst2 & _).
  exists s1, s2. split; [exact Hrun1|]. split; [exact Hrun2|].
  split; [|split; [|split]].
  - rewrite Hsubs2, Hsubs1. apply active_insert_last.
  - congruence.
  - intros Hnone. rewrite Harr2. rewrite Harr1 in Hk |- *.
    rewrite (indexOf_app_last _ _ Hfun Hnone) in Hk. injection Hk as <-.
    rewrite delete_middle. apply app_nil_r.
  - intros k0 Hk0. rewrite Harr2. rewrite Harr1 in Hk |- *.
    rewrite (indexOf_app_found _ [listener] _ _ Hk0) in Hk. injection Hk as <-.
    apply indexOf_bound in Hk0. now apply delete_app_left.
Qed.

(** *** Steps that are not whole operations *)

Lemma step_same (n : nat) (s s' : store) :
  arrays s' = arrays s -> currentListeners s' = currentListeners s ->
  nextListeners s' = nextListeners s -> subscriptions s' = subscriptions s ->
  dispatches s' = dispatches s -> journal s' = journal s ->
  step n s s'.
Proof.
  intros Ha Hc Hn Hs Hd Hj. constructor.
  - intros [W1 W2 W3 W4 W5]. constructor; unfold array in *;
      rewrite ?Ha, ?Hc, ?Hn, ?Hs, ?Hd, ?Hj; assumption.
  - unfold guarded. rewrite Ha, Hc, Hn. auto.
  - lia.
  - exists []. rewrite app_nil_r. split; [assumption | constructor].
Qed.

Lemma step_record (n : nat) (e : event) (s : store) :
  before (dispatches s) e -> since n e -> step n s (record e s).
Proof.
  intros Hb Hs. constructor; simpl.
  - intros [W1 W2 W3 W4 W5]. constructor; simpl; try assumption.
    apply Forall_app. split; [assumption | now constructor].
  - auto.
  - lia.
  - exists [e]. split; [reflexivity | now constructor].
Qed.

Lemma step_enter (action : value) (s : store) :
  step (dispatches s) s (enter action s).
Proof.
  constructor; simpl.
  - intros [W1 W2 W3 W4 W5]. constructor; simpl; try assumption.
    apply Forall_app. split.
    + eapply Forall_impl; [exact W5|]. intros [m a|m l|l]; simpl; lia.
    + constructor; [simpl; lia | constructor].
  - auto.
  - lia.
  - eexists. split; [reflexivity|]. constructor; [simpl; lia | constructor].
Qed.

Lemma step_commit (n : nat) (nextState : value) (s : store) :
  step n s (commit nextState s).
Proof.
  constructor; simpl.
  - intros [W1 W2 W3 W4 W5]. constructor; simpl; try assumption.
    intros ref [= <-]. assumption.
  - unfold guarded. simpl. intros ref [Hlt Hg]. repeat split; auto.
  - lia.
  - exists []. rewrite app_nil_r. split; [reflexivity | constructor].
Qed.

Lemma later_record_traced (n : nat) (label : string) (s : store) :
  later n s (record (Traced label) s).
Proof.
  constructor; simpl; [|reflexivity|tauto].
  apply step_record; exact I.
Qed.

(** *** The journal *)

Lemma notified_app (n : nat) (j1 j2 : list event) :
  notified n (j1 ++ j2) = notified n j1 ++ notified n j2.
Proof.
  induction j1 as [|[m a|m l|l] j1 IH]; simpl; auto.
  destruct (Nat.eqb m n); simpl; now rewrite IH.
Qed.

Lemma notified_since (n m : nat) (j : list event) :
  Forall (since m) j -> n < m -> notified n j = [].
Proof.
  intros Hj Hnm. induction Hj as [|[k a|k l|l] j Hk _ IH]; simpl in *; auto.
  destruct (Nat.eqb_spec k n); [lia | assumption].
Qed.

Lemma notified_before (n : nat) (j : list event) :
  Forall (before n) j -> notified n j = [].
Proof.
  intros Hj. induction Hj as [|[k a|k l|l] j Hk _ IH]; simpl in *; auto.
  destruct (Nat.eqb_spec k n); [lia | assumption].
Qed.

(** *** Every operation of the store is a whole operation *)

Section EngineFacts.
Context `{Runtime}.
Variable body : nat -> list value -> prog value.
Variable public : value -> prog value.

Lemma apply_later (run : prog value -> store -> outcome value)
    (f : value) (args : list value) :
  sound run -> sound (fun _ : unit => apply body run f args).
Proof.
  intros Hrun [] s r s'. unfold apply.
  destruct f as [| | | | |o]; try (intros [= _ <-]; apply later_refl).
  destruct (obj_callable o); [apply Hrun|].
  intros [= _ <-]; apply later_refl.
Qed.

Lemma notify_later (run : prog value -> store -> outcome value) :
  sound run ->
  forall fuel n listeners i s r s',
    n < dispatches s ->
    notify body run fuel n listeners i s = Some (r, s') -> later n s s'.
Proof.
  intros Hrun. induction fuel as [|fuel IH]; intros n listeners i s r s' Hn;
    simpl; [discriminate|].
  destruct (array s listeners !! i) as [listener|];
    [|intros [= _ <-]; apply later_refl].
  assert (Hrec : later n s (record (Notified n listener) s)).
  { constructor; simpl; [|reflexivity|tauto].
    apply step_record; simpl; lia. }
  destruct (apply body run listener [] (record (Notified n listener) s))
    as [[[v|e] s1]|] eqn:Happ; [| |discriminate].
  - apply (apply_later run listener [] Hrun tt) in Happ. simpl in Happ.
    apply later_weaken with (n := n) in Happ; [|lia].
    pose proof (step_dispatches _ _ _ (later_step _ _ _ Happ)) as Hle.
    simpl in Hle.
    intros Hrest. apply IH in Hrest; [|lia].
    apply later_trans with (m := n) (s2 := record (Notified n listener) s);
      [exact Hrec | | lia].
    apply later_trans with (m := n) (s2 := s1); [exact Happ | exact Hrest | lia].
  - apply (apply_later run listener [] Hrun tt) in Happ. simpl in Happ.
    apply later_weaken with (n := n) in Happ; [|lia].
    intros [= _ <-].
    apply later_trans with (m := n) (s2 := record (Notified n listener) s);
      [exact Hrec | exact Happ | lia].
Qed.

(** [dispatch] either refuses the action, leaving the store as it is, or
    accepts it and goes through the reducer and the listeners. *)
Lemma dispatch_cases (run : prog value -> store -> outcome value)
    (fuel : nat) (action : value) (s : store) :
  (exists e, dispatch body run fuel action s = Some (Throw e, s)) \/
  (accepted action s /\
   dispatch body run fuel action s = proceed body run fuel action s).
Proof.
  unfold dispatch, accepted.
  destruct (isPlainObject action); simpl; [|eauto].
  destruct (get_value action "type") as [type|e]; [|eauto].
  destruct (is_undefined type) eqn:Htype; [eauto|].
  destruct (isDispatching s); [eauto|].
  right. split; [|reflexivity]. eauto.
Qed.

Lemma dispatch_accepted (run : prog value -> store -> outcome value)
    (fuel : nat) (action : value) (s : store) :
  accepted action s ->
  dispatch body run fuel action s = proceed body run fuel action s.
Proof.
  intros (Hplain & (type & Htype & Hdef) & Hidle).
  unfold dispatch. now rewrite Hplain, Htype, Hdef, Hidle.
Qed.

Lemma dispatch_later (run : prog value -> store -> outcome value)
    (fuel : nat) :
  sound run -> sound (dispatch body run fuel).
Proof.
  intros Hrun action s r s'.
  destruct (dispatch_cases run fuel action s) as [[e ->]|[Hacc ->]];
    [intros [= _ <-]; apply later_refl|].
  destruct Hacc as (_ & _ & Hidle).
  unfold proceed, reducer_call.
  destruct (apply body run _ _ (enter action s)) as [[res s1]|] eqn:Hred;
    [|discriminate].
  apply (apply_later run _ _ Hrun tt) in Hred.
  assert (Hstep : step (dispatches s) s s1).
  { eapply step_trans; [apply step_enter | apply Hred | simpl; lia]. }
  pose proof (step_dispatches _ _ _ (later_step _ _ _ Hred)) as Hle.
  simpl in Hle.
  destruct res as [nextState|e].
  - destruct (notify body run fuel (dispatches s) (nextListeners s1) 0
                (commit nextState s1)) as [[res s2]|] eqn:Hloop;
      [|discriminate].
    apply (notify_later run Hrun) in Hloop; [|simpl; lia].
    intros Hr.
    assert (s' = s2) by (destruct res; congruence). subst s'.
    constructor.
    + eapply step_trans; [exact Hstep | | reflexivity].
      eapply step_trans; [apply (step_commit (dispatches s)) | apply Hloop |].
      reflexivity.
    + rewrite (later_flag _ _ _ Hloop). simpl. congruence.
    + congruence.
  - intros [= _ <-]. constructor.
    + eapply step_trans; [exact Hstep | | reflexivity].
      now apply step_same.
    + simpl. congruence.
    + congruence.
Qed.

Lemma replaceReducer_later (raw : value -> store -> outcome value) :
  sound raw -> sound (replaceReducer raw).
Proof.
  intros Hraw nextReducer s r s'. unfold replaceReducer.
  destruct (is_function nextReducer); simpl;
    [|intros [= _ <-]; apply later_refl].
  match goal with
  | |- context [raw ?a ?s0] =>
      destruct (raw a s0) as [[res s1]|] eqn:Hr; [|discriminate];
      assert (Hs0 : later (dispatches s) s s0)
  end.
  { constructor; simpl; [now apply step_same | reflexivity | tauto]. }
  apply Hraw in Hr. simpl in Hr.
  intros Hres. assert (s' = s1) by (destruct res; congruence). subst s'.
  eapply later_trans; [exact Hs0 | exact Hr | reflexivity].
Qed.

Lemma exec_later (pub raw : value -> store -> outcome value) :
  sound pub -> sound raw ->
  forall (A : Type) (p : prog A) s r s',
    exec pub raw p s = Some (r, s') -> later (dispatches s) s s'.
Proof.
  intros Hpub Hraw A p.
  induction p as [a|e|k IH|action k IH|action k IH|listener k IH|sub k IH
                 |nextReducer k IH|label k IH]; intros s r s'; simpl.
  - intros [= _ <-]. apply later_refl.
  - intros [= _ <-]. apply later_refl.
  - destruct (getState s) as [r0 s0] eqn:Hg. intros Hk. apply IH in Hk.
    unfold getState in Hg. destruct (isDispatching s); injection Hg as <- <-;
      exact Hk.
  - destruct (pub action s) as [[r0 s0]|] eqn:Hp; [|discriminate].
    intros Hk. apply IH in Hk. apply Hpub in Hp.
    eapply later_then; eassumption.
  - destruct (raw action s) as [[r0 s0]|] eqn:Hp; [|discriminate].
    intros Hk. apply IH in Hk. apply Hraw in Hp.
    eapply later_then; eassumption.
  - destruct (subscribe listener s) as [r0 s0] eqn:Hp.
    intros Hk. apply IH in Hk. apply (subscribe_later (dispatches s)) in Hp.
    eapply later_then; eassumption.
  - destruct (unsubscribe sub s) as [r0 s0] eqn:Hp.
    intros Hk. apply IH in Hk. apply (unsubscribe_later (dispatches s)) in Hp.
    eapply later_then; eassumption.
  - destruct (replaceReducer raw nextReducer s) as [[r0 s0]|] eqn:Hp;
      [|discriminate].
    intros Hk. apply IH in Hk. apply (replaceReducer_later raw Hraw) in Hp.
    eapply later_then; eassumption.
  - intros Hk. apply IH in Hk. simpl in Hk.
    eapply later_then; [apply later_record_traced | exact Hk].
Qed.

Lemma run_later (fuel : nat) (A : Type) : sound (run body public fuel A).
Proof.
  revert A. induction fuel as [|fuel IH]; intros A p s r s'; simpl;
    [discriminate|].
  apply exec_later.
  - intros action s0 r0 s0'. apply IH.
  - apply dispatch_later. apply IH.
Qed.

Lemma raw_dispatch_later (fuel : nat) : sound (raw_dispatch body public fuel).
Proof. apply dispatch_later, run_later. Qed.

(** *** Fuel

    A run that comes to an end with some fuel comes to the same end with
    more: the answer of an operation does not depend on the fuel. *)

Lemma apply_extends (run run' : prog value -> store -> outcome value)
    (f : value) (args : list value) :
  extends run run' ->
  extends (fun _ : unit => apply body run f args)
          (fun _ : unit => apply body run' f args).
Proof.
  intros Hrun [] s x. unfold apply.
  destruct f as [| | | | |o]; auto. destruct (obj_callable o); auto.
Qed.

Lemma notify_extends (run run' : prog value -> store -> outcome value) :
  extends run run' ->
  forall fuel fuel' n listeners i s x,
    fuel <= fuel' ->
    notify body run fuel n listeners i s = Some x ->
    notify body run' fuel' n listeners i s = Some x.
Proof.
  intros Hrun. induction fuel as [|fuel IH];
    intros fuel' n listeners i s x Hle; simpl; [discriminate|].
  destruct fuel' as [|fuel']; [lia|]. simpl.
  destruct (array s listeners !! i) as [listener|]; [|auto].
  destruct (apply body run listener [] _) as [[r s1]|] eqn:Happ;
    [|discriminate].
  apply (apply_extends run run' listener [] Hrun tt) in Happ.
  rewrite Happ. destruct r as [v|e]; [|auto].
  apply IH. lia.
Qed.

Lemma dispatch_extends (run run' : prog value -> store -> outcome value)
    (fuel fuel' : nat) :
  extends run run' -> fuel <= fuel' ->
  extends (dispatch body run fuel) (dispatch body run' fuel').
Proof.
  intros Hrun Hle action s x. unfold dispatch.
  destruct (negb (isPlainObject action)); [auto|].
  destruct (get_value action "type") as [type|e]; [|auto].
  destruct (is_undefined type); [auto|].
  destruct (isDispatching s); [auto|].
  match goal with
  | |- context [apply body run ?f ?args ?s0] =>
      destruct (apply body run f args s0) as [[r s1]|] eqn:Happ;
        [|discriminate];
      apply (apply_extends run run' f args Hrun tt) in Happ; rewrite Happ
  end.
  destruct r as [nextState|e]; [|auto].
  match goal with
  | |- context [notify body run fuel ?n ?l 0 ?s0] =>
      destruct (notify body run fuel n l 0 s0) as [[r s2]|] eqn:Hloop;
        [|discriminate];
      apply (notify_extends run run' Hrun _ fuel') in Hloop; [|exact Hle];
      rewrite Hloop
  end.
  auto.
Qed.

Lemma replaceReducer_extends (raw raw' : value -> store -> outcome value) :
  extends raw raw' -> extends (replaceReducer raw) (replaceReducer raw').
Proof.
  intros Hraw nextReducer s x. unfold replaceReducer.
  destruct (negb (is_function nextReducer)); [auto|].
  match goal with
  | |- context [raw ?a ?s0] =>
      destruct (raw a s0) as [[r s1]|] eqn:Hr; [|discriminate];
      apply Hraw in Hr; rewrite Hr
  end.
  auto.
Qed.

Lemma exec_extends (pub pub' raw raw' : value -> store -> outcome value) :
  extends pub pub' -> extends raw raw' ->
  forall (A : Type) (p : prog A) s x,
    exec pub raw p s = Some x -> exec pub' raw' p s = Some x.
Proof.
  intros Hpub Hraw A p.
  induction p as [a|e|k IH|action k IH|action k IH|listener k IH|sub k IH
                 |nextReducer k IH|label k IH]; intros s x; simpl; auto.
  - destruct (getState s) as [r0 s0]. apply IH.
  - destruct (pub action s) as [[r0 s0]|] eqn:Hp; [|discriminate].
    apply Hpub in Hp. rewrite Hp. apply IH.
  - destruct (raw action s) as [[r0 s0]|] eqn:Hp; [|discriminate].
    apply Hraw in Hp. rewrite Hp. apply IH.
  - destruct (subscribe listener s) as [r0 s0]. apply IH.
  - destruct (unsubscribe sub s) as [r0 s0]. apply IH.
  - destruct (replaceReducer raw nextReducer s) as [[r0 s0]|] eqn:Hp;
      [|discriminate].
    apply (replaceReducer_extends raw raw' Hraw) in Hp. rewrite Hp. apply IH.
Qed.

Lemma run_extends (fuel fuel' : nat) (A : Type) :
  fuel <= fuel' -> extends (run body public fuel A) (run body public fuel' A).
Proof.
  revert fuel' A. induction fuel as [|fuel IH]; intros fuel' A Hle p s x;
    simpl; [discriminate|].
  destruct fuel' as [|fuel']; [lia|]. simpl.
  apply exec_extends.
  - intros action s0 x0. apply IH. lia.
  - apply dispatch_extends; [|lia]. apply IH. lia.
Qed.

Lemma raw_dispatch_extends (fuel fuel' : nat) :
  fuel <= fuel' ->
  extends (raw_dispatch body public fuel) (raw_dispatch body public fuel').
Proof.
  intros Hle. unfold raw_dispatch.
  apply dispatch_extends; [|exact Hle]. now apply run_extends.
Qed.

(** *** The claims on the dispatching flag *)

(** C3, as the code has it.  While the store is dispatching, that is inside
    a transition function: [getState], [subscribe], [dispatch], and an
    [unsubscribe] function whose subscription still stands, all raise an
    error and leave the store as it is; an [unsubscribe] function whose
    subscription was already removed returns without an error and does
    nothing.  The store stays dispatching through whatever a body does in
    that state, so this holds for every call a transition function makes. *)
Theorem reentrancy_guard (s : store) :
  isDispatching s = true ->
  (exists message, getState s = (Throw (Error message), s)) /\
  (forall listener,
     exists message, subscribe listener s = (Throw (Error message), s)) /\
  (forall subscription listener,
     subscriptions s !! subscription = Some (listener, true) ->
     exists message, unsubscribe subscription s = (Throw (Error message), s)) /\
  (forall subscription listener,
     subscriptions s !! subscription = Some (listener, false) ->
     unsubscribe subscription s = (Ok VUndefined, s)) /\
  (forall run fuel action,
     exists message,
       dispatch body run fuel action s = Some (Throw (Error message), s)) /\
  (forall fuel (A : Type) (p : prog A) r s',
     run body public fuel A p s = Some (r, s') -> isDispatching s' = true).
Proof.
  intros Hflag. repeat split.
  - unfold getState. rewrite Hflag. eauto.
  - intros listener. unfold subscribe. rewrite Hflag.
    destruct (is_function listener); simpl; eauto.
  - intros sub listener Hsub. unfold unsubscribe. rewrite Hsub, Hflag.
    simpl. eauto.
  - intros sub listener Hsub. unfold unsubscribe. now rewrite Hsub.
  - intros run fuel action. unfold dispatch. rewrite Hflag.
    destruct (isPlainObject action) eqn:Hplain; simpl; [|eauto].
    destruct action as [| | | | |o]; try discriminate. simpl.
    destruct (is_undefined (get o "type")); eauto.
  - intros fuel A p r s' Hrun. apply run_later in Hrun.
    rewrite (later_flag _ _ _ Hrun). exact Hflag.
Qed.

(** C4.  When the transition function raises during the dispatch of an
    accepted action, [dispatch] raises the same exception, and in the store
    it leaves [isDispatching] is false and the state is the one from before
    the dispatch; so a later dispatch of a well-formed action passes the
    re-entrancy check and goes on to the reducer. *)
Theorem failed_dispatch_restores (fuel : nat) (action : value) (s s1 : store)
    (e : exn) :
  accepted action s ->
  reducer_call body (run body public fuel value) action s = Some (Throw e, s1) ->
  exists s',
    raw_dispatch body public fuel action s = Some (Throw e, s') /\
    isDispatching s' = false /\
    getState s' = (Ok (currentState s), s') /\
    forall fuel' action',
      accepted action' s ->
      accepted action' s' /\
      raw_dispatch body public fuel' action' s' =
      proceed body (run body public fuel' value) fuel' action' s'.
Proof.
  intros Hacc Hred. exists (set_isDispatching false s1).
  unfold raw_dispatch. rewrite (dispatch_accepted _ _ _ _ Hacc).
  unfold proceed. rewrite Hred. split; [reflexivity|]. split; [reflexivity|].
  split.
  - unfold reducer_call in Hred.
    apply (apply_later _ _ _ (run_later fuel value) tt) in Hred.
    destruct (later_frozen _ _ _ Hred eq_refl) as (Hstate & _).
    unfold getState. simpl. now rewrite Hstate.
  - intros fuel' action' (Hplain & Htype & _).
    assert (Hacc' : accepted action' (set_isDispatching false s1))
      by (repeat split; assumption).
    split; [exact Hacc'|]. now apply dispatch_accepted.
Qed.

(** C5.  For an action [dispatch] accepts: whatever [dispatch] returns is
    the very action it was given; and it does return it whenever the
    transition function and the notification of the listeners complete
    without raising. *)
Theorem dispatch_returns_action (fuel : nat) (action : value) (s : store) :
  accepted action s ->
  (forall r s',
     raw_dispatch body public fuel action s = Some (Ok r, s') -> r = action) /\
  (forall nextState s1 u s2,
     reducer_call body (run body public fuel value) action s
     = Some (Ok nextState, s1) ->
     notify body (run body public fuel value) fuel (dispatches s)
       (nextListeners s1) 0 (commit nextState s1) = Some (Ok u, s2) ->
     raw_dispatch body public fuel action s = Some (Ok action, s2)).
Proof.
  intros Hacc. unfold raw_dispatch. rewrite (dispatch_accepted _ _ _ _ Hacc).
  unfold proceed. split.
  - intros r s'.
    destruct (reducer_call _ _ _ _) as [[[nextState|e] s1]|]; try discriminate.
    destruct (notify _ _ _ _ _ _ _) as [[[u|e] s2]|]; try discriminate.
    congruence.
  - intros nextState s1 u s2 -> ->. reflexivity.
Qed.

(** *** The listener snapshot *)

(** The loop calls the listeners of the array as it was when the loop
    started, whatever the listeners do to the store meanwhile. *)
Lemma notify_snapshot (run : prog value -> store -> outcome value) :
  sound run ->
  forall fuel n listeners i s r s',
    n < dispatches s -> guarded listeners s ->
    notify body run fuel n listeners i s = Some (Ok r, s') ->
    notified n (journal s') =
    notified n (journal s) ++ drop i (array s listeners).
Proof.
  intros Hrun. induction fuel as [|fuel IH];
    intros n listeners i s r s' Hn Hg; simpl; [discriminate|].
  destruct (array s listeners !! i) as [listener|] eqn:Hi.
  - destruct (apply body run listener [] (record (Notified n listener) s))
      as [[[v|e] s1]|] eqn:Happ; try discriminate.
    apply (apply_later run listener [] Hrun tt) in Happ. simpl in Happ.
    pose proof (later_step _ _ _ Happ) as Hstep.
    destruct (step_guarded _ _ _ Hstep listeners) as [Hg1 Harr];
      [exact Hg|].
    pose proof (step_dispatches _ _ _ Hstep) as Hle. simpl in Hle.
    destruct (step_journal _ _ _ Hstep) as (ext & Hext & Hsince).
    simpl in Hext, Harr.
    intros Hrest. apply IH in Hrest; [|lia|exact Hg1].
    rewrite Hrest, Hext, !notified_app.
    rewrite (notified_since n _ ext Hsince Hn). simpl.
    rewrite Nat.eqb_refl, app_nil_r, <- app_assoc. simpl.
    unfold array in *. rewrite Harr.
    now rewrite (drop_S _ _ _ Hi).
  - intros [= _ <-]. apply lookup_ge_None in Hi.
    now rewrite drop_ge, app_nil_r.
Qed.

(** *** Subscriptions are never reused *)

Lemma kept_refl (s : store) : subscriptions_kept s s.
Proof. intros sub l b Hs. eauto. Qed.

Lemma kept_trans (s1 s2 s3 : store) :
  subscriptions_kept s1 s2 -> subscriptions_kept s2 s3 ->
  subscriptions_kept s1 s3.
Proof.
  intros H12 H23 sub l b Hs.
  destruct (H12 sub l b Hs) as (b2 & Hs2 & Hb2).
  destruct (H23 sub l b2 Hs2) as (b3 & Hs3 & Hb3).
  exists b3. split; [assumption | auto].
Qed.

Lemma kept_same (s s' : store) :
  subscriptions s' = subscriptions s -> subscriptions_kept s s'.
Proof. intros Heq sub l b Hs. rewrite Heq. eauto. Qed.

Lemma subscribe_kept (listener : value) (s s' : store) (r : result nat) :
  subscribe listener s = (r, s') -> subscriptions_kept s s'.
Proof.
  unfold subscribe.
  destruct (is_function listener); simpl;
    [|intros [= _ <-]; apply kept_refl].
  destruct (isDispatching s); [intros [= _ <-]; apply kept_refl|].
  intros [= _ <-] sub l b Hs. simpl.
  match goal with
  | |- context [ensureCanMutateNextListeners ?s0] =>
      destruct (ensure_fields s0) as (_ & _ & _ & _ & -> & _)
  end.
  simpl. exists b. split; [|auto].
  rewrite lookup_app_l; [assumption|]. eapply lookup_lt_Some, Hs.
Qed.

(** What a call of an [unsubscribe] function leaves of its subscription,
    in a store that is not dispatching: it is removed. *)
Lemma unsubscribe_removed (sub : nat) (listener : value) (b : bool)
    (s : store) :
  isDispatching s = false ->
  subscriptions s !! sub = Some (listener, b) ->
  subscriptions (snd (unsubscribe sub s)) !! sub = Some (listener, false).
Proof.
  intros Hidle Hs. unfold unsubscribe. rewrite Hs.
  destruct b; simpl; [|assumption].
  rewrite Hidle. simpl.
  match goal with
  | |- context [ensureCanMutateNextListeners ?s0] =>
      destruct (ensure_fields s0) as (_ & _ & _ & _ & -> & _)
  end.
  simpl. apply list_lookup_insert_eq. eapply lookup_lt_Some, Hs.
Qed.

Lemma unsubscribe_kept (sub : nat) (s s' : store) (r : result value) :
  unsubscribe sub s = (r, s') -> subscriptions_kept s s'.
Proof.
  unfold unsubscribe.
  destruct (subscriptions s !! sub) as [[x isSubscribed]|] eqn:Hsub;
    [|intros [= _ <-]; apply kept_refl].
  destruct isSubscribed; simpl; [|intros [= _ <-]; apply kept_refl].
  destruct (isDispatching s); [intros [= _ <-]; apply kept_refl|].
  intros [= _ <-] sub' l b Hs. simpl.
  match goal with
  | |- context [ensureCanMutateNextListeners ?s0] =>
      destruct (ensure_fields s0) as (_ & _ & _ & _ & -> & _)
  end.
  simpl. destruct (Nat.eq_dec sub sub') as [<-|Hne].
  - rewrite Hsub in Hs. injection Hs as <- <-. exists false.
    split; [|reflexivity].
    apply list_lookup_insert_eq. eapply lookup_lt_Some, Hsub.
  - exists b. split; [|auto]. now rewrite list_lookup_insert_ne.
Qed.

Lemma apply_keeping (run : prog value -> store -> outcome value)
    (f : value) (args : list value) :
  keeping run -> keeping (fun _ : unit => apply body run f args).
Proof.
  intros Hrun [] s r s'. unfold apply.
  destruct f as [| | | | |o]; try (intros [= _ <-]; apply kept_refl).
  destruct (obj_callable o); [apply Hrun|].
  intros [= _ <-]; apply kept_refl.
Qed.

Lemma notify_keeping (run : prog value -> store -> outcome value) :
  keeping run ->
  forall fuel n listeners i s r s',
    notify body run fuel n listeners i s = Some (r, s') ->
    subscriptions_kept s s'.
Proof.
  intros Hrun. induction fuel as [|fuel IH]; intros n listeners i s r s';
    simpl; [discriminate|].
  destruct (array s listeners !! i) as [listener|];
    [|intros [= _ <-]; apply kept_refl].
  destruct (apply body run listener [] (record (Notified n listener) s))
    as [[[v|e] s1]|] eqn:Happ; [| |discriminate];
    apply (apply_keeping run listener [] Hrun tt) in Happ.
  - intros Hrest. apply IH in Hrest.
    eapply kept_trans; [|exact Hrest].
    eapply kept_trans; [|exact Happ]. now apply kept_same.
  - intros [= _ <-]. eapply kept_trans; [|exact Happ]. now apply kept_same.
Qed.

Lemma dispatch_keeping (run : prog value -> store -> outcome value)
    (fuel : nat) :
  keeping run -> keeping (dispatch body run fuel).
Proof.
  intros Hrun action s r s'.
  destruct (dispatch_cases run fuel action s) as [[e ->]|[Hacc ->]];
    [intros [= _ <-]; apply kept_refl|].
  unfold proceed, reducer_call.
  destruct (apply body run _ _ (enter action s)) as [[res s1]|] eqn:Hred;
    [|discriminate].
  apply (apply_keeping run _ _ Hrun tt) in Hred.
  assert (Hs1 : subscriptions_kept s s1).
  { eapply kept_trans; [|exact Hred]. now apply kept_same. }
  destruct res as [nextState|e].
  - destruct (notify body run fuel (dispatches s) (nextListeners s1) 0
                (commit nextState s1)) as [[res s2]|] eqn:Hloop;
      [|discriminate].
    apply (notify_keeping run Hrun) in Hloop.
    intros Hr. assert (s' = s2) by (destruct res; congruence). subst s'.
    eapply kept_trans; [exact Hs1|].
    eapply kept_trans; [|exact Hloop]. now apply kept_same.
  - intros [= _ <-]. eapply kept_trans; [exact Hs1|]. now apply kept_same.
Qed.

Lemma replaceReducer_keeping (raw : value -> store -> outcome value) :
  keeping raw -> keeping (replaceReducer raw).
Proof.
  intros Hraw nextReducer s r s'. unfold replaceReducer.
  destruct (is_function nextReducer); simpl;
    [|intros [= _ <-]; apply kept_refl].
  match goal with
  | |- context [raw ?a ?s0] =>
      destruct (raw a s0) as [[res s1]|] eqn:Hr; [|discriminate]
  end.
  apply Hraw in Hr.
  intros Hres. assert (s' = s1) by (destruct res; congruence). subst s'.
  eapply kept_trans; [|exact Hr]. now apply kept_same.
Qed.

Lemma exec_keeping (pub raw : value -> store -> outcome value) :
  keeping pub -> keeping raw ->
  forall (A : Type) (p : prog A) s r s',
    exec pub raw p s = Some (r, s') -> subscriptions_kept s s'.
Proof.
  intros Hpub Hraw A p.
  induction p as [a|e|k IH|action k IH|action k IH|listener k IH|sub k IH
                 |nextReducer k IH|label k IH]; intros s r s'; simpl.
  - intros [= _ <-]. apply kept_refl.
  - intros [= _ <-]. apply kept_refl.
  - destruct (getState s) as [r0 s0] eqn:Hg.
    assert (s0 = s) by (unfold getState in Hg; destruct (isDispatching s);
                        congruence). subst s0. apply IH.
  - destruct (pub action s) as [[r0 s0]|] eqn:Hp; [|discriminate].
    intros Hk. apply IH in Hk. apply Hpub in Hp.
    eapply kept_trans; eassumption.
  - destruct (raw action s) as [[r0 s0]|] eqn:Hp; [|discriminate].
    intros Hk. apply IH in Hk. apply Hraw in Hp.
    eapply kept_trans; eassumption.
  - destruct (subscribe listener s) as [r0 s0] eqn:Hp.
    intros Hk. apply IH in Hk. apply subscribe_kept in Hp.
    eapply kept_trans; eassumption.
  - destruct (unsubscribe sub s) as [r0 s0] eqn:Hp.
    intros Hk. apply IH in Hk. apply unsubscribe_kept in Hp.
    eapply kept_trans; eassumption.
  - destruct (replaceReducer raw nextReducer s) as [[r0 s0]|] eqn:Hp;
      [|discriminate].
    intros Hk. apply IH in Hk. apply (replaceReducer_keeping raw Hraw) in Hp.
    eapply kept_trans; eassumption.
  - intros Hk. apply IH in Hk.
    eapply kept_trans; [|exact Hk]. now apply kept_same.
Qed.

Lemma run_keeping (fuel : nat) (A : Type) : keeping (run body public fuel A).
Proof.
  revert A. induction fuel as [|fuel IH]; intros A p s r s'; simpl;
    [discriminate|].
  apply exec_keeping.
  - intros action s0 r0 s0'. apply IH.
  - apply dispatch_keeping. apply IH.
Qed.

(** A body that begins with a call of an [unsubscribe] function, run in a
    store that is not dispatching, leaves that subscription removed. *)
Lemma run_unsubscribe (fuel : nat) (sub : nat) (k : result value -> prog value)
    (listener : value) (b : bool) (s s' : store) (r : result value) :
  isDispatching s = false ->
  subscriptions s !! sub = Some (listener, b) ->
  run body public fuel value (Unsubscribe sub k) s = Some (r, s') ->
  subscriptions s' !! sub = Some (listener, false).
Proof.
  intros Hidle Hs. destruct fuel as [|fuel]; simpl; [discriminate|].
  pose proof (unsubscribe_removed sub listener b s Hidle Hs) as Hgone.
  destruct (unsubscribe sub s) as [r0 s0]. simpl in Hgone.
  intros Hk. apply exec_keeping in Hk.
  - destruct (Hk sub listener false Hgone) as (b' & Hs' & Hb').
    now rewrite Hs', Hb'.
  - intros action s1 r1 s1'. apply run_keeping.
  - apply dispatch_keeping. apply run_keeping.
Qed.

(** A listener of the list under notification that unsubscribes [sub]:
    when the notification completes, [sub] is removed. *)
Lemma notify_unsubscribes (fuelR : nat) (unsubscriber : object) (sub : nat)
    (k : result value -> prog value) (listener : value) :
  obj_callable unsubscriber = true ->
  (forall args, body (obj_id unsubscriber) args = Unsubscribe sub k) ->
  forall fuel n listeners i s r s' b,
    n < dispatches s -> guarded listeners s -> isDispatching s = false ->
    notify body (run body public fuelR value) fuel n listeners i s
    = Some (Ok r, s') ->
    In (VObject unsubscriber) (drop i (array s listeners)) ->
    subscriptions s !! sub = Some (listener, b) ->
    subscriptions s' !! sub = Some (listener, false).
Proof.
  intros Hcall Hbody. induction fuel as [|fuel IH];
    intros n listeners i s r s' b Hn Hg Hidle; simpl; [discriminate|].
  destruct (array s listeners !! i) as [l|] eqn:Hi.
  - destruct (apply body (run body public fuelR value) l []
                (record (Notified n l) s)) as [[[v|e] s1]|] eqn:Happ;
      try discriminate.
    pose proof (apply_later _ l [] (run_later fuelR value) tt _ _ _ Happ)
      as Hlater.
    pose proof (apply_keeping _ l [] (run_keeping fuelR value) tt _ _ _ Happ)
      as Hkept.
    simpl in Hlater, Hkept.
    pose proof (later_step _ _ _ Hlater) as Hstep.
    destruct (step_guarded _ _ _ Hstep listeners) as [Hg1 Harr];
      [exact Hg|].
    pose proof (step_dispatches _ _ _ Hstep) as Hle. simpl in Hle.
    pose proof (later_flag _ _ _ Hlater) as Hflag. simpl in Hflag.
    simpl in Harr.
    intros Hrest Hin Hs.
    rewrite (drop_S _ _ _ Hi) in Hin. destruct Hin as [->|Hin].
    + (* this listener is the one that unsubscribes *)
      unfold apply in Happ. rewrite Hcall, Hbody in Happ.
      apply (run_unsubscribe _ _ _ listener b) in Happ;
        [|exact Hidle|exact Hs].
      apply (notify_keeping _ (run_keeping fuelR value)) in Hrest.
      destruct (Hrest sub listener false Happ) as (b' & Hs' & Hb').
      now rewrite Hs', Hb'.
    + destruct (Hkept sub listener b Hs) as (b1 & Hs1 & _).
      eapply (IH n listeners (S i) s1 r s' b1); try eassumption.
      * lia.
      * congruence.
      * unfold array in *. now rewrite Harr.
  - intros _ Hin. apply lookup_ge_None in Hi.
    rewrite drop_ge in Hin by assumption. destruct Hin.
Qed.

Lemma active_standing (subs : list (value * bool)) (x : option nat) :
  In x (map identity (active subs)) ->
  exists sub l, subs !! sub = Some (l, true) /\ identity l = x.
Proof.
  induction subs as [|[l b] subs IH]; simpl; [tauto|].
  destruct b; simpl.
  - intros [<-|Hin].
    + exists 0, l. split; reflexivity.
    + destruct (IH Hin) as (sub & l' & Hs & Hl). exists (S sub), l'. auto.
  - intros Hin. destruct (IH Hin) as (sub & l' & Hs & Hl).
    exists (S sub), l'. auto.
Qed.

(** C6.  A dispatch that completes calls exactly the listeners of the
    pending list as it stood when the dispatch began, in order, each once
    per subscription: a subscription made or removed by a listener during
    the notification does not change who is called.  So every listener
    subscribed when dispatch N began is called during dispatch N; and a
    listener left with no standing subscription when dispatch N ends is not
    called during the next dispatch.  In particular, when a listener of the
    list calls the [unsubscribe] function of another subscription during
    dispatch N, the listener of that subscription is still called during
    dispatch N, the subscription is removed when dispatch N ends, and the
    listener is not called during dispatch N+1, unless another of its
    subscriptions stands. *)
Theorem listener_snapshot (fuel : nat) (action : value) (s s1 : store)
    (r : value) :
  wf s ->
  raw_dispatch body public fuel action s = Some (Ok r, s1) ->
  notified (dispatches s) (journal s1) = array s (nextListeners s) /\
  (forall subscription listener,
     subscriptions s !! subscription = Some (listener, true) ->
     In (identity listener)
        (map identity (notified (dispatches s) (journal s1)))) /\
  (forall listener fuel' action' r' s2,
     ~ In (identity listener) (map identity (active (subscriptions s1))) ->
     raw_dispatch body public fuel' action' s1 = Some (Ok r', s2) ->
     ~ In (identity listener)
          (map identity (notified (dispatches s1) (journal s2)))) /\
  (forall (unsubscriber : object) subscription k listener,
     In (VObject unsubscriber) (array s (nextListeners s)) ->
     obj_callable unsubscriber = true ->
     (forall args,
        body (obj_id unsubscriber) args = Unsubscribe subscription k) ->
     subscriptions s !! subscription = Some (listener, true) ->
     In (identity listener)
        (map identity (notified (dispatches s) (journal s1))) /\
     subscriptions s1 !! subscription = Some (listener, false) /\
     forall fuel' action' r' s2,
       (forall other l,
          subscriptions s1 !! other = Some (l, true) ->
          identity l <> identity listener) ->
       raw_dispatch body public fuel' action' s1 = Some (Ok r', s2) ->
       ~ In (identity listener)
            (map identity (notified (dispatches s1) (journal s2)))).
Proof.
  assert (Hsnap : forall fuel action s s1 r,
    wf s -> raw_dispatch body public fuel action s = Some (Ok r, s1) ->
    notified (dispatches s) (journal s1) = array s (nextListeners s)).
  { clear. intros fuel action s s1 r Hwf Hrun. unfold raw_dispatch in Hrun.
    destruct (dispatch_cases (run body public fuel value) fuel action s)
      as [[e He]|[Hacc He]]; rewrite He in Hrun; [discriminate|].
    unfold proceed, reducer_call in Hrun.
    destruct (apply body _ _ _ (enter action s)) as [[[nextState|e] s2]|]
      eqn:Hred; try discriminate.
    apply (apply_later _ _ _ (run_later fuel value) tt) in Hred.
    destruct (later_frozen _ _ _ Hred eq_refl)
      as (_ & _ & Hnext & Harr & _ & Hnum).
    destruct (step_journal _ _ _ (later_step _ _ _ Hred))
      as (ext & Hext & Hsince).
    simpl in Hnext, Harr, Hnum, Hext, Hsince.
    destruct (notify _ _ _ _ _ _ (commit nextState s2)) as [[[u|e] s3]|]
      eqn:Hloop; try discriminate.
    injection Hrun as _ <-.
    apply (notify_snapshot _ (run_later fuel value)) in Hloop.
    - rewrite Hloop. simpl. rewrite Hext, !notified_app. simpl.
      rewrite (notified_before _ _ (wf_journal _ Hwf)).
      rewrite (notified_since _ _ ext Hsince) by lia. simpl.
      unfold array. simpl. now rewrite Harr, Hnext.
    - simpl. lia.
    - split; simpl; [|reflexivity]. rewrite Harr, Hnext. apply Hwf. }
  assert (Hcalled : forall subscription listener,
    wf s -> raw_dispatch body public fuel action s = Some (Ok r, s1) ->
    subscriptions s !! subscription = Some (listener, true) ->
    In (identity listener)
       (map identity (notified (dispatches s) (journal s1)))).
  { intros sub listener Hwf Hrun Hsub. rewrite (Hsnap _ _ _ _ _ Hwf Hrun).
    eapply Permutation_in; [symmetry; apply (wf_pending _ Hwf)|].
    apply in_map.
    eapply Permutation_in; [symmetry; apply (active_deactivate _ _ _ Hsub)|].
    now left. }
  assert (Hnext : forall listener fuel' action' r' s2,
    wf s -> raw_dispatch body public fuel action s = Some (Ok r, s1) ->
    ~ In (identity listener) (map identity (active (subscriptions s1))) ->
    raw_dispatch body public fuel' action' s1 = Some (Ok r', s2) ->
    ~ In (identity listener)
         (map identity (notified (dispatches s1) (journal s2)))).
  { intros listener fuel' action' r' s2 Hwf Hrun Hgone Hrun'.
    assert (Hwf1 : wf s1).
    { apply raw_dispatch_later in Hrun. now apply Hrun. }
    rewrite (Hsnap _ _ _ _ _ Hwf1 Hrun').
    intros Hin. apply Hgone.
    eapply Permutation_in; [apply (wf_pending _ Hwf1) | exact Hin]. }
  intros Hwf Hrun. split; [|split; [|split]].
  - eapply Hsnap; eassumption.
  - intros sub listener Hsub. now apply (Hcalled sub).
  - intros listener fuel' action' r' s2. now apply Hnext.
  - intros unsubscriber sub k listener Hin Hcall Hbody Hsub.
    split; [now apply (Hcalled sub)|].
    assert (Hgone : subscriptions s1 !! sub = Some (listener, false)).
    { pose proof Hrun as Hrun0. unfold raw_dispatch in Hrun0.
      destruct (dispatch_cases (run body public fuel value) fuel action s)
        as [[e He]|[Hacc He]]; rewrite He in Hrun0; [discriminate|].
      unfold proceed, reducer_call in Hrun0.
      destruct (apply body _ _ _ (enter action s)) as [[[nextState|e] s2]|]
        eqn:Hred; try discriminate.
      apply (apply_later _ _ _ (run_later fuel value) tt) in Hred.
      destruct (later_frozen _ _ _ Hred eq_refl)
        as (_ & _ & Hnx & Harr & Hsubs & Hnum).
      simpl in Hnx, Harr, Hsubs, Hnum.
      destruct (notify _ _ _ _ _ _ (commit nextState s2)) as [[[u|e] s3]|]
        eqn:Hloop; try discriminate.
      injection Hrun0 as _ <-.
      eapply (notify_unsubscribes fuel unsubscriber sub k listener Hcall Hbody)
        in Hloop; [exact Hloop | | | | |].
      - simpl. lia.
      - split; simpl; [|reflexivity]. rewrite Harr, Hnx. apply Hwf.
      - reflexivity.
      - rewrite drop_0. unfold array. simpl. rewrite Harr, Hnx. exact Hin.
      - simpl. rewrite Hsubs. exact Hsub. }
    split; [exact Hgone|].
    intros fuel' action' r' s2 Hothers. apply Hnext; try assumption.
    intros Hact. apply active_standing in Hact as (other & l & Hl & Hid).
    now apply (Hothers other l).
Qed.

(** The store [createStore] returns satisfies the invariant. *)
Lemma createStore_wf (fuel id : nat)
    (reducer preloadedState enhancer fourth : value) (s : store) :
  createStore body public fuel id reducer preloadedState enhancer fourth
  = Some (Ok (Created s)) ->
  wf s.
Proof.
  unfold createStore.
  destruct (_ || _); [discriminate|].
  destruct (if is_function preloadedState && is_undefined enhancer
            then (preloadedState, VUndefined)
            else (enhancer, preloadedState)) as [enh pre].
  destruct (negb (is_undefined enh)).
  { destruct (negb (is_function enh)); discriminate. }
  destruct (negb (is_function reducer)); [discriminate|].
  destruct (raw_dispatch _ _ _ _ _) as [[[v|e] s']|] eqn:Hinit;
    try discriminate.
  intros [= <-]. apply raw_dispatch_later in Hinit. apply Hinit.
  constructor; simpl.
  - lia.
  - intros ref [= <-]. lia.
  - reflexivity.
  - constructor.
  - constructor.
Qed.

(** *** Bodies in sequence *)

Lemma exec_bind (pub raw : value -> store -> outcome value) (A B : Type)
    (p : prog A) (f : A -> prog B) (s : store) :
  exec pub raw (bind p f) s =
  match exec pub raw p s with
  | Some (Ok a, s1) => exec pub raw (f a) s1
  | Some (Throw e, s1) => Some (Throw e, s1)
  | None => None
  end.
Proof.
  revert s.
  induction p as [a|e|k IH|action k IH|action k IH|listener k IH|sub k IH
                 |nextReducer k IH|label k IH]; intros s; simpl;
    try reflexivity.
  - destruct (getState s) as [r0 s0]. apply IH.
  - destruct (pub action s) as [[r0 s0]|]; [apply IH | reflexivity].
  - destruct (raw action s) as [[r0 s0]|]; [apply IH | reflexivity].
  - destruct (subscribe listener s) as [r0 s0]. apply IH.
  - destruct (unsubscribe sub s) as [r0 s0]. apply IH.
  - destruct (replaceReducer raw nextReducer s) as [[r0 s0]|];
      [apply IH | reflexivity].
  - apply IH.
Qed.

Lemma exec_rethrow_any (pub raw : value -> store -> outcome value)
    (A : Type) (r : result A) (s : store) :
  exec pub raw (rethrow r) s = Some (r, s).
Proof. destruct r; reflexivity. Qed.

Lemma exec_call (pub raw : value -> store -> outcome value) (f : value)
    (args : list value) (s : store) :
  exec pub raw (call_function body f args) s =
  apply body (fun p s => exec pub raw p s) f args s.
Proof.
  unfold call_function, apply. destruct f as [| | | | |o]; try reflexivity.
  now destruct (obj_callable o).
Qed.

(** *** What a dispatch does to the store *)

(** An accepted dispatch is numbered and journaled, whatever comes of it. *)
Lemma dispatch_counts (run : prog value -> store -> outcome value)
    (fuel : nat) (action : value) (s s' : store) (r : result value) :
  sound run -> accepted action s ->
  dispatch body run fuel action s = Some (r, s') ->
  dispatches s < dispatches s' /\
  exists ext, journal s' = journal s ++ Reduced (dispatches s) action :: ext.
Proof.
  intros Hrun Hacc. rewrite (dispatch_accepted _ _ _ _ Hacc).
  unfold proceed, reducer_call.
  destruct (apply body run _ _ (enter action s)) as [[res s1]|] eqn:Hred;
    [|discriminate].
  apply (apply_later run _ _ Hrun tt) in Hred.
  pose proof (step_dispatches _ _ _ (later_step _ _ _ Hred)) as Hle.
  destruct (step_journal _ _ _ (later_step _ _ _ Hred)) as (ext1 & Hext1 & _).
  simpl in Hle, Hext1.
  destruct res as [nextState|e].
  - destruct (notify body run fuel (dispatches s) (nextListeners s1) 0
                (commit nextState s1)) as [[res s2]|] eqn:Hloop;
      [|discriminate].
    apply (notify_later run Hrun) in Hloop; [|simpl; lia].
    pose proof (step_dispatches _ _ _ (later_step _ _ _ Hloop)) as Hle2.
    destruct (step_journal _ _ _ (later_step _ _ _ Hloop)) as (ext2 & Hext2 & _).
    simpl in Hle2, Hext2.
    intros Hr. assert (s' = s2) by (destruct res; congruence). subst s'.
    split; [lia|]. exists (ext1 ++ ext2).
    rewrite Hext2, Hext1, <- !app_assoc. reflexivity.
  - intros [= _ <-]. simpl. split; [lia|]. exists ext1.
    rewrite Hext1, <- app_assoc. reflexivity.
Qed.

(** Every dispatch that comes to an end either went to the reducer, for an
    action that passed the three checks, or raised an [Error] for an action
    that did not, and then the store is as it was: no state change, no
    listener called, nothing journaled. *)
Theorem dispatch_refuses_or_reduces (fuel : nat) (action : value)
    (s s' : store) (r : result value) :
  raw_dispatch body public fuel action s = Some (r, s') ->
  (accepted action s /\
   dispatches s < dispatches s' /\
   exists ext, journal s' = journal s ++ Reduced (dispatches s) action :: ext) \/
  (~ accepted action s /\ s' = s /\ exists message, r = Throw (Error message)).
Proof.
  unfold raw_dispatch. intros Hrun.
  destruct (isPlainObject action) eqn:Hplain.
  - destruct action as [| | | | |o]; try discriminate.
    destruct (is_undefined (get o "type")) eqn:Htype.
    + right. unfold dispatch in Hrun. rewrite Hplain in Hrun. simpl in Hrun.
      rewrite Htype in Hrun. injection Hrun as <- <-.
      split; [|split; [reflexivity | eauto]].
      intros (_ & (type & [= <-] & Hdef) & _). congruence.
    + destruct (isDispatching s) eqn:Hflag.
      * right. unfold dispatch in Hrun. rewrite Hplain in Hrun. simpl in Hrun.
        rewrite Htype, Hflag in Hrun. injection Hrun as <- <-.
        split; [|split; [reflexivity | eauto]].
        intros (_ & _ & Hidle). congruence.
      * left. assert (Hacc : accepted (VObject o) s).
        { split; [exact Hplain|]. split; [|exact Hflag].
          exists (get o "type"). split; [reflexivity | exact Htype]. }
        split; [exact Hacc|].
        eapply dispatch_counts; [apply run_later | exact Hacc | exact Hrun].
  - right. unfold dispatch in Hrun. rewrite Hplain in Hrun. simpl in Hrun.
    injection Hrun as <- <-. split; [|split; [reflexivity | eauto]].
    intros (Hp & _). congruence.
Qed.

(** *** The state between dispatches *)

Lemma settled_chain (s s0 s' : store) :
  dispatches s <= dispatches s0 -> dispatches s0 <= dispatches s' ->
  (dispatches s0 = dispatches s -> currentState s0 = currentState s) ->
  (dispatches s' = dispatches s0 -> currentState s' = currentState s0) ->
  dispatches s' = dispatches s -> currentState s' = currentState s.
Proof.
  intros H1 H2 H3 H4 H5. rewrite H4 by lia. apply H3. lia.
Qed.

Lemma subscribe_state (listener : value) (s s' : store) (r : result nat) :
  subscribe listener s = (r, s') ->
  currentState s' = currentState s /\ dispatches s' = dispatches s.
Proof.
  unfold subscribe.
  destruct (is_function listener); simpl; [|now intros [= _ <-]].
  destruct (isDispatching s); [now intros [= _ <-]|].
  intros [= _ <-]. simpl.
  match goal with
  | |- context [ensureCanMutateNextListeners ?s0] =>
      destruct (ensure_fields s0) as (_ & -> & _ & _ & _ & _ & -> & _)
  end.
  split; reflexivity.
Qed.

Lemma unsubscribe_state (sub : nat) (s s' : store) (r : result value) :
  unsubscribe sub s = (r, s') ->
  currentState s' = currentState s /\ dispatches s' = dispatches s.
Proof.
  unfold unsubscribe.
  destruct (subscriptions s !! sub) as [[x isSubscribed]|];
    [|now intros [= _ <-]].
  destruct isSubscribed; simpl; [|now intros [= _ <-]].
  destruct (isDispatching s); [now intros [= _ <-]|].
  intros [= _ <-]. simpl.
  match goal with
  | |- context [ensureCanMutateNextListeners ?s0] =>
      destruct (ensure_fields s0) as (_ & -> & _ & _ & _ & _ & -> & _)
  end.
  split; reflexivity.
Qed.

Lemma apply_settled (run : prog value -> store -> outcome value)
    (f : value) (args : list value) :
  settled run -> settled (fun _ : unit => apply body run f args).
Proof.
  intros Hrun [] s r s'. unfold apply.
  destruct f as [| | | | |o]; try (now intros [= _ <-]).
  destruct (obj_callable o); [apply Hrun | now intros [= _ <-]].
Qed.

Lemma notify_settled (run : prog value -> store -> outcome value) :
  sound run -> settled run ->
  forall fuel n listeners i s r s',
    n < dispatches s ->
    notify body run fuel n listeners i s = Some (r, s') ->
    dispatches s' = dispatches s -> currentState s' = currentState s.
Proof.
  intros Hsound Hrun. induction fuel as [|fuel IH];
    intros n listeners i s r s' Hn; simpl; [discriminate|].
  destruct (array s listeners !! i) as [listener|]; [|now intros [= _ <-]].
  destruct (apply body run listener [] (record (Notified n listener) s))
    as [[[v|e] s1]|] eqn:Happ; [| |discriminate].
  - pose proof (apply_later run listener [] Hsound tt _ _ _ Happ) as Hl.
    pose proof (step_dispatches _ _ _ (later_step _ _ _ Hl)) as Hle.
    pose proof (apply_settled run listener [] Hrun tt _ _ _ Happ) as Hst.
    simpl in Hle, Hst. intros Hrest.
    assert (Hn1 : n < dispatches s1) by lia.
    pose proof (notify_later run Hsound _ _ _ _ _ _ _ Hn1 Hrest) as Hl2.
    pose proof (step_dispatches _ _ _ (later_step _ _ _ Hl2)) as Hle2.
    apply (settled_chain s s1 s'); try assumption.
    eapply IH; [|exact Hrest]. lia.
  - pose proof (apply_settled run listener [] Hrun tt _ _ _ Happ) as Hst.
    simpl in Hst. now intros [= _ <-].
Qed.

Lemma dispatch_settled (run : prog value -> store -> outcome value)
    (fuel : nat) :
  sound run -> settled (dispatch body run fuel).
Proof.
  intros Hsound action s r s' Hd Heq.
  destruct (dispatch_cases run fuel action s) as [[e He]|[Hacc _]].
  - rewrite He in Hd. now injection Hd as _ <-.
  - destruct (dispatch_counts run fuel action s s' r Hsound Hacc Hd). lia.
Qed.

Lemma replaceReducer_settled (raw : value -> store -> outcome value) :
  settled raw -> settled (replaceReducer raw).
Proof.
  intros Hraw nextReducer s r s'. unfold replaceReducer.
  destruct (is_function nextReducer); simpl; [|now intros [= _ <-]].
  match goal with
  | |- context [raw ?a ?s0] =>
      destruct (raw a s0) as [[res s1]|] eqn:Hr; [|discriminate]
  end.
  apply Hraw in Hr. simpl in Hr.
  intros Hres. assert (s' = s1) by (destruct res; congruence). now subst s'.
Qed.

Lemma exec_settled (pub raw : value -> store -> outcome value) :
  sound pub -> sound raw -> settled pub -> settled raw ->
  forall (A : Type) (p : prog A) s r s',
    exec pub raw p s = Some (r, s') ->
    dispatches s' = dispatches s -> currentState s' = currentState s.
Proof.
  intros Spub Sraw Hpub Hraw A p.
  assert (Hmono : forall (q : prog A) s r s',
            exec pub raw q s = Some (r, s') -> dispatches s <= dispatches s').
  { intros q s r s' Hq. apply (exec_later pub raw Spub Sraw) in Hq.
    apply (step_dispatches _ _ _ (later_step _ _ _ Hq)). }
  induction p as [a|e|k IH|action k IH|action k IH|listener k IH|sub k IH
                 |nextReducer k IH|label k IH]; intros s r s'; simpl.
  - now intros [= _ <-].
  - now intros [= _ <-].
  - destruct (getState s) as [r0 s0] eqn:Hg.
    assert (s0 = s) by (unfold getState in Hg; destruct (isDispatching s);
                        congruence). subst s0. apply IH.
  - destruct (pub action s) as [[r0 s0]|] eqn:Hp; [|discriminate].
    intros Hk. apply (settled_chain s s0 s').
    + apply Spub in Hp. apply (step_dispatches _ _ _ (later_step _ _ _ Hp)).
    + eapply Hmono, Hk.
    + eapply Hpub, Hp.
    + eapply IH, Hk.
  - destruct (raw action s) as [[r0 s0]|] eqn:Hp; [|discriminate].
    intros Hk. apply (settled_chain s s0 s').
    + apply Sraw in Hp. apply (step_dispatches _ _ _ (later_step _ _ _ Hp)).
    + eapply Hmono, Hk.
    + eapply Hraw, Hp.
    + eapply IH, Hk.
  - destruct (subscribe listener s) as [r0 s0] eqn:Hp.
    apply subscribe_state in Hp as [Hst Hd].
    intros Hk. apply (settled_chain s s0 s'); [lia | eapply Hmono, Hk | auto |].
    eapply IH, Hk.
  - destruct (unsubscribe sub s) as [r0 s0] eqn:Hp.
    apply unsubscribe_state in Hp as [Hst Hd].
    intros Hk. apply (settled_chain s s0 s'); [lia | eapply Hmono, Hk | auto |].
    eapply IH, Hk.
  - destruct (replaceReducer raw nextReducer s) as [[r0 s0]|] eqn:Hp;
      [|discriminate].
    intros Hk. apply (settled_chain s s0 s').
    + apply (replaceReducer_later raw Sraw) in Hp.
      apply (step_dispatches _ _ _ (later_step _ _ _ Hp)).
    + eapply Hmono, Hk.
    + eapply (replaceReducer_settled raw Hraw), Hp.
    + eapply IH, Hk.
  - intros Hk. apply (IH _ _ _ Hk).
Qed.

Lemma run_settled (fuel : nat) (A : Type) : settled (run body public fuel A).
Proof.
  revert A. induction fuel as [|fuel IH]; intros A p s r s'; simpl;
    [discriminate|].
  apply exec_settled.
  - intros action s0 r0 s0'. apply run_later.
  - apply dispatch_later, run_later.
  - intros action s0 r0 s0'. apply IH.
  - apply dispatch_settled, run_later.
Qed.

Lemma dispatch_state (fuel : nat) (action : value) (s s1 s' : store)
    (nextState : value) (r : result value) :
  accepted action s ->
  reducer_call body (run body public fuel value) action s
  = Some (Ok nextState, s1) ->
  raw_dispatch body public fuel action s = Some (r, s') ->
  dispatches s' = S (dispatches s) ->
  getState s' = (Ok nextState, s') /\ (forall v, r = Ok v -> v = action).
Proof.
  intros Hacc Hred. unfold raw_dispatch.
  rewrite (dispatch_accepted _ _ _ _ Hacc). unfold proceed. rewrite Hred.
  destruct (notify _ _ _ _ _ _ _) as [[res s2]|] eqn:Hloop; [|discriminate].
  intros Hr Hnum. assert (s' = s2) by (destruct res; congruence). subst s2.
  split; [|intros v ->; destruct res; congruence].
  unfold reducer_call in Hred.
  apply (apply_later _ _ _ (run_later fuel value) tt) in Hred.
  destruct (later_frozen _ _ _ Hred eq_refl) as (_ & _ & _ & _ & _ & Hd1).
  simpl in Hd1.
  assert (Hn : dispatches s < dispatches (commit nextState s1))
    by (simpl; lia).
  pose proof (notify_later _ (run_later fuel value) _ _ _ _ _ _ _ Hn Hloop)
    as Hl.
  pose proof (later_flag _ _ _ Hl) as Hflag. simpl in Hflag.
  pose proof (notify_settled _ (run_later fuel value) (run_settled fuel value)
                _ _ _ _ _ _ _ Hn Hloop) as Hst.
  simpl in Hst. unfold getState. rewrite Hflag, Hst by lia. reflexivity.
Qed.

(** When a dispatch ends, by returning or by a listener's exception, and no
    other dispatch reached the reducer meanwhile, the state is what the
    reducer returned for the state before and the action: listeners change
    the state only by dispatching. *)
Theorem dispatch_commits (fuel : nat) (action : value) (s s1 s' : store)
    (nextState : value) (r : result value) :
  accepted action s ->
  reducer_call body (run body public fuel value) action s
  = Some (Ok nextState, s1) ->
  raw_dispatch body public fuel action s = Some (r, s') ->
  dispatches s' = S (dispatches s) ->
  getState s' = (Ok nextState, s').
Proof.
  intros Hacc Hred Hrun Hnum.
  destruct (dispatch_state fuel action s s1 s' nextState r) as [Hstate _];
    assumption.
Qed.


(** *** A listener that raises *)

Lemma notify_stops (run : prog value -> store -> outcome value) :
  sound run ->
  forall fuel n listeners i s e s',
    n < dispatches s -> guarded listeners s ->
    notify body run fuel n listeners i s = Some (Throw e, s') ->
    exists k,
      i <= k < length (array s listeners) /\
      notified n (journal s') =
      notified n (journal s) ++ take (S k - i) (drop i (array s listeners)).
Proof.
  intros Hrun. induction fuel as [|fuel IH];
    intros n listeners i s e s' Hn Hg; simpl; [discriminate|].
  destruct (array s listeners !! i) as [listener|] eqn:Hi; [|discriminate].
  pose proof (lookup_lt_Some _ _ _ Hi) as Hlt.
  destruct (apply body run listener [] (record (Notified n listener) s))
    as [[[v|e0] s1]|] eqn:Happ; [| |discriminate];
    apply (apply_later run listener [] Hrun tt) in Happ; simpl in Happ;
    pose proof (later_step _ _ _ Happ) as Hstep;
    destruct (step_journal _ _ _ Hstep) as (ext & Hext & Hsince);
    simpl in Hext.
  - destruct (step_guarded _ _ _ Hstep listeners) as [Hg1 Harr];
      [exact Hg|].
    pose proof (step_dispatches _ _ _ Hstep) as Hle. simpl in Hle, Harr.
    intros Hrest. apply IH in Hrest as (k & Hk & Hrest); [|lia|exact Hg1].
    assert (Harr' : array s1 listeners = array s listeners)
      by (unfold array; now rewrite Harr).
    rewrite Harr' in Hk, Hrest.
    exists k. split; [lia|].
    rewrite Hrest, Hext, !notified_app.
    rewrite (notified_since n _ ext Hsince Hn). simpl.
    rewrite Nat.eqb_refl, app_nil_r, <- app_assoc. simpl.
    rewrite (drop_S _ _ _ Hi).
    replace (S k - i) with (S (S k - S i)) by lia. reflexivity.
  - intros [= _ <-]. exists i. split; [lia|].
    rewrite Hext, !notified_app.
    rewrite (notified_since n _ ext Hsince Hn). simpl.
    rewrite Nat.eqb_refl, !app_nil_r.
    rewrite (drop_S _ _ _ Hi).
    replace (S i - i) with 1 by lia. reflexivity.
Qed.

(** When a listener raises, [dispatch] raises the same exception and the
    listeners after it are not called: those called are the first ones of
    the pending list as it stood when the dispatch began, up to the one
    that raised.  The store is left not dispatching. *)
Theorem listener_failure_stops_notification (fuel : nat) (action : value)
    (s s1 s' : store) (nextState : value) (e : exn) :
  wf s -> accepted action s ->
  reducer_call body (run body public fuel value) action s
  = Some (Ok nextState, s1) ->
  raw_dispatch body public fuel action s = Some (Throw e, s') ->
  exists k,
    k < length (array s (nextListeners s)) /\
    notified (dispatches s) (journal s') = take (S k) (array s (nextListeners s)) /\
    isDispatching s' = false.
Proof.
  intros Hwf Hacc Hred. unfold raw_dispatch.
  rewrite (dispatch_accepted _ _ _ _ Hacc). unfold proceed. rewrite Hred.
  destruct (notify _ _ _ _ _ _ _) as [[[u|e0] s2]|] eqn:Hloop;
    try discriminate.
  intros [= -> ->].
  unfold reducer_call in Hred.
  apply (apply_later _ _ _ (run_later fuel value) tt) in Hred.
  destruct (later_frozen _ _ _ Hred eq_refl)
    as (_ & _ & Hnext & Harr & _ & Hnum).
  destruct (step_journal _ _ _ (later_step _ _ _ Hred))
    as (ext & Hext & Hsince).
  simpl in Hnext, Harr, Hnum, Hext, Hsince.
  assert (Hn : dispatches s < dispatches (commit nextState s1))
    by (simpl; lia).
  pose proof (notify_later _ (run_later fuel value) _ _ _ _ _ _ _ Hn Hloop)
    as Hl.
  pose proof (later_flag _ _ _ Hl) as Hflag. simpl in Hflag.
  apply (notify_stops _ (run_later fuel value)) in Hloop
    as (k & Hk & Hloop).
  - assert (Hsame : array (commit nextState s1) (nextListeners s1)
                    = array s (nextListeners s)).
    { unfold array. simpl. now rewrite Harr, Hnext. }
    rewrite Hsame in Hk, Hloop. exists k. split; [lia|]. split; [|exact Hflag].
    rewrite Hloop. simpl. rewrite Hext, !notified_app. simpl.
    rewrite (notified_before _ _ (wf_journal _ Hwf)).
    rewrite (notified_since _ _ ext Hsince) by lia. reflexivity.
  - simpl. lia.
  - split; simpl; [|reflexivity]. rewrite Harr, Hnext. apply Hwf.
Qed.

(** *** Replacing the reducer *)

(** [replaceReducer] has no check of its own on the dispatching flag: it
    first installs the reducer, then dispatches.  Called from inside a
    reducer it raises, by the check of [dispatch], but the store is left
    with the new reducer, which the next dispatch will call. *)
Theorem replaceReducer_while_dispatching (fuel : nat) (nextReducer : value)
    (s : store) :
  isDispatching s = true -> is_function nextReducer = true ->
  exists s',
    store_replaceReducer body public fuel nextReducer s
    = Some (Throw (Error "Reducers may not dispatch actions."), s') /\
    currentReducer s' = nextReducer /\
    currentState s' = currentState s /\
    isDispatching s' = true /\
    journal s' = journal s.
Proof.
  intros Hflag Hfun.
  unfold store_replaceReducer, replaceReducer, raw_dispatch, dispatch.
  rewrite Hfun. simpl. rewrite Hflag.
  eexists. split; [reflexivity|]. simpl. auto.
Qed.

(** *** Creating the store *)

Lemma function_not_undefined (v : value) :
  is_function v = true -> is_undefined v = false.
Proof.
  destruct v as [| | | | |o]; try discriminate.
  simpl. unfold is_function, is_undefined. simpl.
  now destruct (obj_callable o).
Qed.

Lemma undefined_not_function (v : value) :
  is_undefined v = true -> is_function v = false.
Proof.
  destruct v as [| | | | |o]; try reflexivity.
  unfold is_undefined. simpl. now destruct (obj_callable o).
Qed.

(** How [createStore] reads its arguments.  Two functions among the
    second, third and fourth arguments (in these positions) are refused.  A
    function given as the second argument with no third is taken as the
    enhancer.  With an enhancer, [createStore] hands over to it without
    looking at the reducer; an enhancer that is not a function is refused;
    and without an enhancer, so is a reducer that is not a function.  None
    of these answers runs any code of the caller. *)
Theorem createStore_arguments (fuel id : nat)
    (reducer preloadedState enhancer fourth : value) :
  ((is_function preloadedState && is_function enhancer) ||
   (is_function enhancer && is_function fourth) = true ->
   createStore body public fuel id reducer preloadedState enhancer fourth
   = Some (Throw (Error
       ("It looks like you are passing several store enhancers to " +:+
        "createStore(). This is not supported. Instead, compose them " +:+
        "together to a single function.")))) /\
  (is_function preloadedState = false -> is_function enhancer = true ->
   is_function fourth = false ->
   createStore body public fuel id reducer preloadedState enhancer fourth
   = Some (Ok (Enhanced enhancer reducer preloadedState))) /\
  (is_function preloadedState = true -> is_undefined enhancer = true ->
   createStore body public fuel id reducer preloadedState enhancer fourth
   = Some (Ok (Enhanced preloadedState reducer VUndefined))) /\
  (is_undefined enhancer = false -> is_function enhancer = false ->
   createStore body public fuel id reducer preloadedState enhancer fourth
   = Some (Throw (Error "Expected the enhancer to be a function."))) /\
  (is_function preloadedState = false -> is_undefined enhancer = true ->
   is_function reducer = false ->
   createStore body public fuel id reducer preloadedState enhancer fourth
   = Some (Throw (Error "Expected the reducer to be a function."))).
Proof.
  unfold createStore. split; [|split; [|split; [|split]]].
  - now intros ->.
  - intros Hpre Henh Hfourth. rewrite Hpre, Henh, Hfourth. simpl.
    now rewrite (function_not_undefined _ Henh), Henh.
  - intros Hpre Hundef.
    pose proof (undefined_not_function _ Hundef) as Henh.
    rewrite Hpre, Hundef, Henh. simpl.
    now rewrite (function_not_undefined _ Hpre), Hpre.
  - intros Hundef Hfun. rewrite Hfun, Hundef, !andb_false_r. simpl.
    now rewrite Hundef, Hfun.
  - intros Hpre Hundef Hfun.
    pose proof (undefined_not_function _ Hundef) as Henh.
    rewrite Hpre, Henh, Hundef. simpl. now rewrite Hundef, Hfun.
Qed.

(** The store [createStore] returns: its state is what the reducer
    answered to the preloaded state and the init action, it is not
    dispatching, it has no listener, since the reducer cannot subscribe
    one, and it satisfies the invariant of the store. *)
Theorem createStore_initial_state (fuel id : nat)
    (reducer preloadedState enhancer fourth : value) (s : store) :
  createStore body public fuel id reducer preloadedState enhancer fourth
  = Some (Ok (Created s)) ->
  exists nextState s1,
    apply body (run body public fuel value) reducer
      [preloadedState; literal id [("type", VString INIT)]]
      (enter (literal id [("type", VString INIT)])
         (fresh_store reducer preloadedState id))
    = Some (Ok nextState, s1) /\
    getState s = (Ok nextState, s) /\
    subscriptions s = [] /\
    array s (nextListeners s) = [] /\
    dispatches s = 1 /\
    wf s.
Proof.
  intros Hcreate.
  pose proof (createStore_wf _ _ _ _ _ _ _ Hcreate) as Hwf. revert Hcreate.
  unfold createStore.
  destruct (_ || _); [discriminate|].
  destruct (is_function preloadedState && is_undefined enhancer) eqn:Hswap.
  { apply andb_true_iff in Hswap as [Hpre _].
    rewrite (function_not_undefined _ Hpre), Hpre. discriminate. }
  destruct (negb (is_undefined enhancer)).
  { destruct (negb (is_function enhancer)); discriminate. }
  destruct (negb (is_function reducer)); [discriminate|].
  fold (fresh_store reducer preloadedState id).
  set (action := literal id [("type", VString INIT)]).
  destruct (raw_dispatch _ _ _ _ _) as [[[v|e] s']|] eqn:Hinit;
    try discriminate.
  intros [= <-].
  assert (Hacc : accepted action (fresh_store reducer preloadedState id)).
  { split; [reflexivity|]. split; [|reflexivity].
    eexists. split; reflexivity. }
  unfold raw_dispatch in Hinit.
  rewrite (dispatch_accepted _ _ _ _ Hacc) in Hinit.
  unfold proceed, reducer_call in Hinit.
  change (currentReducer (enter action (fresh_store reducer preloadedState id)))
    with reducer in Hinit.
  change (currentState (enter action (fresh_store reducer preloadedState id)))
    with preloadedState in Hinit.
  destruct (apply body _ reducer _ _) as [[[nextState|e] s1]|] eqn:Hred;
    try discriminate.
  exists nextState, s1. split; [reflexivity|].
  apply (apply_later _ _ _ (run_later fuel value) tt) in Hred.
  destruct (later_frozen _ _ _ Hred eq_refl)
    as (_ & _ & Hnext & Harr & Hsubs & Hnum).
  simpl in Hnext, Harr, Hsubs, Hnum.
  destruct fuel as [|fuel]; [discriminate|]. simpl in Hinit.
  unfold array in Hinit. simpl in Hinit.
  rewrite Harr, Hnext in Hinit. simpl in Hinit.
  injection Hinit as _ <-. unfold getState, array in *. simpl.
  rewrite Harr, Hnext. auto.
Qed.

End EngineFacts.

(** The claims on the demo store. *)

Lemma demo_accepted (action : value) (type : string) (id : nat) :
  action = literal id [("type", VString type)] ->
  accepted (H := Demo.runtime) action Demo.store2.
Proof.
  intros ->. split; [reflexivity|]. split; [|reflexivity].
  eexists. split; reflexivity.
Qed.

Lemma reentrancy_guard_witness :
  isDispatching (enter Demo.increment Demo.store2) = true /\
  (exists message,
     getState (enter Demo.increment Demo.store2)
     = (Throw (Error message), enter Demo.increment Demo.store2)) /\
  (forall listener,
     exists message,
       subscribe listener (enter Demo.increment Demo.store2)
       = (Throw (Error message), enter Demo.increment Demo.store2)) /\
  (forall subscription listener,
     subscriptions (enter Demo.increment Demo.store2) !! subscription
     = Some (listener, true) ->
     exists message,
       unsubscribe subscription (enter Demo.increment Demo.store2)
       = (Throw (Error message), enter Demo.increment Demo.store2)) /\
  (forall subscription listener,
     subscriptions (enter Demo.increment Demo.store2) !! subscription
     = Some (listener, false) ->
     unsubscribe subscription (enter Demo.increment Demo.store2)
     = (Ok VUndefined, enter Demo.increment Demo.store2)) /\
  (forall run fuel action,
     exists message,
       dispatch (H := Demo.runtime) Demo.body run fuel action
         (enter Demo.increment Demo.store2)
       = Some (Throw (Error message), enter Demo.increment Demo.store2)) /\
  (forall fuel (A : Type) (p : prog A) r s',
     run (H := Demo.runtime) Demo.body Demo.plain fuel A p
       (enter Demo.increment Demo.store2) = Some (r, s') ->
     isDispatching s' = true).
Proof.
  split; [reflexivity|].
  apply (reentrancy_guard (H := Demo.runtime) Demo.body Demo.plain).
  reflexivity.
Defined.

(** C3, as the claim states it, fails: in a store that is dispatching, an
    unsubscribe function whose subscription was removed before returns
    [undefined]; a reducer that calls it goes on undisturbed. *)
Lemma stale_unsubscribe_while_dispatching :
  isDispatching (enter Demo.increment Demo.stale) = true /\
  unsubscribe 0 (enter Demo.increment Demo.stale)
  = (Ok VUndefined, enter Demo.increment Demo.stale) /\
  ~ (exists e,
       fst (unsubscribe 0 (enter Demo.increment Demo.stale)) = Throw e) /\
  exists s',
    raw_dispatch (H := Demo.runtime) Demo.body Demo.plain 3 Demo.increment
      Demo.stale = Some (Ok Demo.increment, s') /\
    currentState s' = VString "unsubscribe returned".
Proof.
  split; [reflexivity|]. split; [reflexivity|]. split.
  - intros [e He]. discriminate.
  - eexists. split; vm_compute; reflexivity.
Qed.

Lemma failed_dispatch_restores_witness :
  accepted (H := Demo.runtime) Demo.boom Demo.store2 /\
  exists s',
    raw_dispatch (H := Demo.runtime) Demo.body Demo.plain 3 Demo.boom
      Demo.store2 = Some (Throw (Error "boom"), s') /\
    isDispatching s' = false /\
    getState s' = (Ok (currentState Demo.store2), s') /\
    forall fuel' action',
      accepted (H := Demo.runtime) action' Demo.store2 ->
      accepted (H := Demo.runtime) action' s' /\
      raw_dispatch (H := Demo.runtime) Demo.body Demo.plain fuel' action' s' =
      proceed Demo.body
        (run (H := Demo.runtime) Demo.body Demo.plain fuel' value)
        fuel' action' s'.
Proof.
  split; [now apply (demo_accepted _ "BOOM" 16)|].
  eapply (failed_dispatch_restores (H := Demo.runtime) Demo.body Demo.plain 3
            Demo.boom Demo.store2).
  - now apply (demo_accepted _ "BOOM" 16).
  - vm_compute. reflexivity.
Defined.

Lemma dispatch_returns_action_witness :
  accepted (H := Demo.runtime) Demo.increment Demo.store2 /\
  raw_dispatch (H := Demo.runtime) Demo.body Demo.plain 3 Demo.increment
    Demo.store2 = Some (Ok Demo.increment, Demo.store3) /\
  (forall r s',
     raw_dispatch (H := Demo.runtime) Demo.body Demo.plain 3 Demo.increment
       Demo.store2 = Some (Ok r, s') -> r = Demo.increment) /\
  (forall nextState s1 u s2,
     reducer_call Demo.body
       (run (H := Demo.runtime) Demo.body Demo.plain 3 value)
       Demo.increment Demo.store2 = Some (Ok nextState, s1) ->
     notify Demo.body (run (H := Demo.runtime) Demo.body Demo.plain 3 value) 3
       (dispatches Demo.store2) (nextListeners s1) 0 (commit nextState s1)
     = Some (Ok u, s2) ->
     raw_dispatch (H := Demo.runtime) Demo.body Demo.plain 3 Demo.increment
       Demo.store2 = Some (Ok Demo.increment, s2)).
Proof.
  split; [now apply (demo_accepted _ "INCREMENT" 15)|].
  split; [vm_compute; reflexivity|].
  apply (dispatch_returns_action (H := Demo.runtime) Demo.body Demo.plain 3
           Demo.increment Demo.store2).
  now apply (demo_accepted _ "INCREMENT" 15).
Defined.

Lemma demo_wf : wf Demo.store2.
Proof.
  assert (H0 : wf Demo.store0).
  { constructor.
    - vm_compute. lia.
    - vm_compute. intros ref [= <-]. lia.
    - vm_compute. reflexivity.
    - vm_compute. constructor.
    - vm_compute. repeat constructor. }
  pose proof (subscribe_later 0 (Demo.fn 31) Demo.store0 _ _
                (surjective_pairing _)) as H1.
  pose proof (subscribe_later 0 (Demo.fn 32) _ _ _
                (surjective_pairing
                   (subscribe (Demo.fn 32)
                      (snd (subscribe (Demo.fn 31) Demo.store0))))) as H2.
  apply H2, H1, H0.
Qed.

Lemma listener_snapshot_witness :
  wf Demo.store2 /\
  raw_dispatch (H := Demo.runtime) Demo.body Demo.plain 3 Demo.increment
    Demo.store2 = Some (Ok Demo.increment, Demo.store3) /\
  notified (dispatches Demo.store2) (journal Demo.store3)
  = array Demo.store2 (nextListeners Demo.store2) /\
  (forall subscription listener,
     subscriptions Demo.store2 !! subscription = Some (listener, true) ->
     In (identity listener)
        (map identity (notified (dispatches Demo.store2) (journal Demo.store3)))) /\
  (forall listener fuel' action' r' s2,
     ~ In (identity listener)
          (map identity (active (subscriptions Demo.store3))) ->
     raw_dispatch (H := Demo.runtime) Demo.body Demo.plain fuel' action'
       Demo.store3 = Some (Ok r', s2) ->
     ~ In (identity listener)
          (map identity (notified (dispatches Demo.store3) (journal s2)))) /\
  (forall (unsubscriber : object) subscription k listener,
     In (VObject unsubscriber) (array Demo.store2 (nextListeners Demo.store2)) ->
     obj_callable unsubscriber = true ->
     (forall args,
        Demo.body (obj_id unsubscriber) args = Unsubscribe subscription k) ->
     subscriptions Demo.store2 !! subscription = Some (listener, true) ->
     In (identity listener)
        (map identity (notified (dispatches Demo.store2) (journal Demo.store3))) /\
     subscriptions Demo.store3 !! subscription = Some (listener, false) /\
     forall fuel' action' r' s2,
       (forall other l,
          subscriptions Demo.store3 !! other = Some (l, true) ->
          identity l <> identity listener) ->
       raw_dispatch (H := Demo.runtime) Demo.body Demo.plain fuel' action'
         Demo.store3 = Some (Ok r', s2) ->
       ~ In (identity listener)
            (map identity (notified (dispatches Demo.store3) (journal s2)))).
Proof.
  split; [exact demo_wf|]. split; [vm_compute; reflexivity|].
  apply (listener_snapshot (H := Demo.runtime) Demo.body Demo.plain 3
           Demo.increment Demo.store2 Demo.store3 Demo.increment).
  - exact demo_wf.
  - vm_compute. reflexivity.
Defined.

(** Every dispatch that comes to an end, with a value or an exception
    raised by the reducer or by a listener, leaves [isDispatching] as it
    found it and keeps the invariant of the store. *)
Lemma dispatch_leaves_flag `{Runtime} (body : nat -> list value -> prog value)
    (public : value -> prog value) (fuel : nat) (action : value)
    (s s' : store) (r : result value) :
  raw_dispatch body public fuel action s = Some (r, s') ->
  isDispatching s' = isDispatching s /\ (wf s -> wf s').
Proof.
  intros Hrun. apply raw_dispatch_later in Hrun. split; apply Hrun.
Qed.

Lemma dispatch_leaves_flag_witness :
  raw_dispatch (H := Demo.runtime) Demo.body Demo.plain 3 Demo.boom Demo.store2
  = Some (Throw (Error "boom"),
          Demo.store_boom) /\
  isDispatching Demo.store_boom = isDispatching Demo.store2 /\
  (wf Demo.store2 -> wf Demo.store_boom).
Proof.
  split; [vm_compute; reflexivity|].
  apply (dispatch_leaves_flag (H := Demo.runtime) Demo.body Demo.plain 3
           Demo.boom Demo.store2 _ (Throw (Error "boom"))).
  vm_compute. reflexivity.
Defined.

Lemma createStore_wf_witness :
  createStore (H := Demo.runtime) Demo.body Demo.plain 3 20 (Demo.fn 30)
    VUndefined VUndefined VUndefined = Some (Ok (Created Demo.store0)) /\
  wf Demo.store0.
Proof.
  split; [vm_compute; reflexivity|].
  apply (createStore_wf (H := Demo.runtime) Demo.body Demo.plain 3 20
           (Demo.fn 30) VUndefined VUndefined VUndefined).
  vm_compute. reflexivity.
Defined.

(** The scenario of the claim, run: the second listener is unsubscribed by
    the first during the first dispatch; it is called in that dispatch
    (number 1, the store's creation being number 0) and not in the next. *)
Example unsubscribed_listener_scenario :
  subscriptions Demo.store2 = [(Demo.fn 31, true); (Demo.fn 32, true)] /\
  subscriptions Demo.store3 = [(Demo.fn 31, true); (Demo.fn 32, false)] /\
  notified 1 (journal Demo.store3) = [Demo.fn 31; Demo.fn 32] /\
  notified 2 (journal Demo.store4) = [Demo.fn 31].
Proof. vm_compute. repeat split. Qed.

(** The further properties on the demo store. *)

Lemma subscribe_appends_witness :
  exists s',
    subscribe (Demo.fn 35) Demo.store2
    = (Ok (length (subscriptions Demo.store2)), s') /\
    wf s' /\
    array s' (nextListeners s')
    = array Demo.store2 (nextListeners Demo.store2) ++ [Demo.fn 35] /\
    subscriptions s' !! length (subscriptions Demo.store2)
    = Some (Demo.fn 35, true) /\
    (forall ref, currentListeners Demo.store2 = Some ref ->
                 currentListeners s' = Some ref /\
                 array s' ref = array Demo.store2 ref) /\
    currentState s' = currentState Demo.store2.
Proof.
  apply (subscribe_appends (Demo.fn 35) Demo.store2 demo_wf);
    reflexivity.
Defined.

Lemma unsubscribe_removes_first_witness :
  exists s' k,
    unsubscribe 0 Demo.store2 = (Ok VUndefined, s') /\
    wf s' /\
    indexOf (array Demo.store2 (nextListeners Demo.store2)) (Demo.fn 31)
    = Some k /\
    array s' (nextListeners s')
    = delete k (array Demo.store2 (nextListeners Demo.store2)) /\
    length (array s' (nextListeners s'))
    = pred (length (array Demo.store2 (nextListeners Demo.store2))) /\
    subscriptions s' !! 0 = Some (Demo.fn 31, false) /\
    (forall ref, currentListeners Demo.store2 = Some ref ->
                 array s' ref = array Demo.store2 ref) /\
    unsubscribe 0 s' = (Ok VUndefined, s').
Proof.
  apply (unsubscribe_removes_first 0 (Demo.fn 31) Demo.store2 demo_wf);
    reflexivity.
Defined.

Lemma subscribe_then_unsubscribe_witness :
  exists s1 s2,
    subscribe (Demo.fn 31) Demo.store2
    = (Ok (length (subscriptions Demo.store2)), s1) /\
    unsubscribe (length (subscriptions Demo.store2)) s1 = (Ok VUndefined, s2) /\
    active (subscriptions s2) = active (subscriptions Demo.store2) /\
    currentState s2 = currentState Demo.store2 /\
    (indexOf (array Demo.store2 (nextListeners Demo.store2)) (Demo.fn 31) = None ->
     array s2 (nextListeners s2)
     = array Demo.store2 (nextListeners Demo.store2)) /\
    (forall k,
       indexOf (array Demo.store2 (nextListeners Demo.store2)) (Demo.fn 31)
       = Some k ->
       array s2 (nextListeners s2) =
       delete k (array Demo.store2 (nextListeners Demo.store2)) ++ [Demo.fn 31]).
Proof.
  apply (subscribe_then_unsubscribe (Demo.fn 31) Demo.store2 demo_wf);
    reflexivity.
Defined.

Lemma dispatch_refuses_or_reduces_witness :
  (accepted (H := Demo.runtime) Demo.increment Demo.store2 /\
   dispatches Demo.store2 < dispatches Demo.store3 /\
   exists ext,
     journal Demo.store3 =
     journal Demo.store2 ++ Reduced (dispatches Demo.store2) Demo.increment :: ext) \/
  (~ accepted (H := Demo.runtime) Demo.increment Demo.store2 /\
   Demo.store3 = Demo.store2 /\
   exists message, Ok Demo.increment = Throw (Error message)).
Proof.
  apply (dispatch_refuses_or_reduces (H := Demo.runtime) Demo.body Demo.plain 3
           Demo.increment Demo.store2 Demo.store3 (Ok Demo.increment)).
  vm_compute. reflexivity.
Defined.

Lemma dispatch_commits_witness :
  getState Demo.store3 = (Ok (VNumber 1%float), Demo.store3).
Proof.
  apply (dispatch_commits (H := Demo.runtime) Demo.body Demo.plain 3
           Demo.increment Demo.store2
           (Demo.the_store
              (reducer_call Demo.body
                 (run (H := Demo.runtime) Demo.body Demo.plain 3 value)
                 Demo.increment Demo.store2))
           Demo.store3 (VNumber 1%float) (Ok Demo.increment)).
  - now apply (demo_accepted _ "INCREMENT" 15).
  - vm_compute. reflexivity.
  - vm_compute. reflexivity.
  - vm_compute. reflexivity.
Defined.


Lemma demo_failing_wf : wf Demo.store_failing.
Proof.
  constructor.
  - vm_compute. lia.
  - vm_compute. intros ref [= <-]. lia.
  - vm_compute. reflexivity.
  - vm_compute. repeat constructor.
  - vm_compute. repeat constructor.
Qed.

Lemma listener_failure_stops_notification_witness :
  exists k,
    k < length (array Demo.store_failing (nextListeners Demo.store_failing)) /\
    notified (dispatches Demo.store_failing)
      (journal
         (Demo.the_store
            (raw_dispatch (H := Demo.runtime) Demo.body_next Demo.plain 3
               Demo.increment Demo.store_failing)))
    = take (S k) (array Demo.store_failing (nextListeners Demo.store_failing)) /\
    isDispatching
      (Demo.the_store
         (raw_dispatch (H := Demo.runtime) Demo.body_next Demo.plain 3
            Demo.increment Demo.store_failing)) = false.
Proof.
  apply (listener_failure_stops_notification (H := Demo.runtime)
           Demo.body_next Demo.plain 3 Demo.increment Demo.store_failing
           (Demo.the_store
              (reducer_call Demo.body_next
                 (run (H := Demo.runtime) Demo.body_next Demo.plain 3 value)
                 Demo.increment Demo.store_failing))
           _ (VNumber 1%float) (Error "listener failed")).
  - exact demo_failing_wf.
  - split; [reflexivity|]. split; [|reflexivity].
    eexists. split; reflexivity.
  - vm_compute. reflexivity.
  - vm_compute. reflexivity.
Defined.

Lemma replaceReducer_while_dispatching_witness :
  exists s',
    store_replaceReducer (H := Demo.runtime) Demo.body Demo.plain 3
      (Demo.fn 33) (enter Demo.increment Demo.store2)
    = Some (Throw (Error "Reducers may not dispatch actions."), s') /\
    currentReducer s' = Demo.fn 33 /\
    currentState s' = currentState (enter Demo.increment Demo.store2) /\
    isDispatching s' = true /\
    journal s' = journal (enter Demo.increment Demo.store2).
Proof.
  apply (replaceReducer_while_dispatching (H := Demo.runtime) Demo.body
           Demo.plain 3 (Demo.fn 33) (enter Demo.increment Demo.store2));
    reflexivity.
Defined.

Lemma createStore_initial_state_witness :
  exists nextState s1,
    apply Demo.body (run (H := Demo.runtime) Demo.body Demo.plain 3 value)
      (Demo.fn 30)
      [VUndefined; literal 20 [("type", VString (@INIT Demo.runtime))]]
      (enter (literal 20 [("type", VString (@INIT Demo.runtime))])
         (fresh_store (Demo.fn 30) VUndefined 20))
    = Some (Ok nextState, s1) /\
    getState Demo.store0 = (Ok nextState, Demo.store0) /\
    subscriptions Demo.store0 = [] /\
    array Demo.store0 (nextListeners Demo.store0) = [] /\
    dispatches Demo.store0 = 1 /\
    wf Demo.store0.
Proof.
  apply (createStore_initial_state (H := Demo.runtime) Demo.body Demo.plain 3
           20 (Demo.fn 30) VUndefined VUndefined VUndefined Demo.store0).
  vm_compute. reflexivity.
Defined.

End CreateStoreFacts.

(** ** The observable adapter *)

Module ObservableFacts.
Import JS IsPlainObject CreateStore Observable CreateStoreFacts.

Section Facts.
Context `{Runtime}.
Variable body : nat -> list value -> prog value.

(** What [observable().subscribe] refuses.  A value that is not an object
    ([null], a primitive, a function) raises a [TypeError].  From inside
    a reducer every call raises, for an observer with a [next] by
    [getState] and for one without by [subscribe].  In all these cases the
    store is left as it was: no listener is added. *)
Theorem observable_subscribe_fails (pub raw : value -> store -> outcome value)
    (observer closure : value) (s : store) :
  (String.eqb (typeof observer) "object" = false \/ observer = VNull ->
   exec pub raw (observable_subscribe body observer closure) s
   = Some (Throw (TypeError "Expected the observer to be an object."), s)) /\
  (isDispatching s = true ->
   exists e,
     exec pub raw (observable_subscribe body observer closure) s
     = Some (Throw e, s)).
Proof.
  split.
  - intros [Hty| ->]; [|reflexivity].
    unfold observable_subscribe. now rewrite Hty.
  - intros Hflag. unfold observable_subscribe.
    destruct (negb (String.eqb (typeof observer) "object") ||
              strict_eq observer VNull); [simpl; eauto|].
    destruct observer as [| | | | |o]; try (simpl; eauto; fail).
    change (observeState body o;; Subscribe closure rethrow)
      with (bind (observeState body o) (fun _ => Subscribe closure rethrow)).
    rewrite exec_bind. unfold observeState.
    destruct (truthy (get o "next")); simpl.
    + unfold getState. rewrite Hflag. simpl. eauto.
    + unfold subscribe. rewrite Hflag.
      destruct (is_function closure); simpl; eauto.
Qed.

(** What an observer receives.  On a store that is not dispatching,
    [observable().subscribe(observer)] first calls [observer.next] with the
    current state, and subscribes the listener only when that call
    returned; and every later call of the listener, as a dispatch makes it,
    calls [observer.next] with the state current then. *)
Theorem observer_receives_state (pub raw : value -> store -> outcome value)
    (o : object) (closure : value) :
  obj_callable o = false -> truthy (get o "next") = true ->
  observes body closure o ->
  forall s,
    isDispatching s = false ->
    exec pub raw (observable_subscribe body (VObject o) closure) s =
    match apply body (fun p s => exec pub raw p s) (get o "next")
            [currentState s] s with
    | None => None
    | Some (Throw e, s1) => Some (Throw e, s1)
    | Some (Ok _, s1) =>
        let '(r, s2) := subscribe closure s1 in Some (r, s2)
    end /\
    apply body (fun p s => exec pub raw p s) closure [] s =
    match apply body (fun p s => exec pub raw p s) (get o "next")
            [currentState s] s with
    | None => None
    | Some (Throw e, s1) => Some (Throw e, s1)
    | Some (Ok _, s1) => Some (Ok VUndefined, s1)
    end.
Proof.
  intros Hobj Hnext (Hfun & Hbody) s Hidle.
  assert (Hobs : exec pub raw (observeState body o) s =
                 match apply body (fun p s => exec pub raw p s) (get o "next")
                         [currentState s] s with
                 | None => None
                 | Some (Throw e, s1) => Some (Throw e, s1)
                 | Some (Ok _, s1) => Some (Ok VUndefined, s1)
                 end).
  { unfold observeState. rewrite Hnext. simpl.
    unfold getState. rewrite Hidle. unfold mbind, prog_bind. simpl.
    rewrite exec_bind, exec_call.
    destruct (apply body _ _ _ s) as [[[v|e] s1]|]; reflexivity. }
  split.
  - unfold observable_subscribe. simpl. rewrite Hobj. simpl.
    change (observeState body o;; Subscribe closure rethrow)
      with (bind (observeState body o) (fun _ => Subscribe closure rethrow)).
    rewrite exec_bind, Hobs.
    destruct (apply body _ _ _ s) as [[[v|e] s1]|]; try reflexivity.
    simpl. destruct (subscribe closure s1) as [r s2].
    now rewrite (exec_rethrow_any pub raw).
  - destruct (function_is_object _ Hfun) as [c ->].
    unfold apply at 1. simpl in Hfun. unfold is_function in Hfun. simpl in Hfun.
    destruct (obj_callable c); [|discriminate].
    rewrite (Hbody (obj_id c) [] eq_refl). exact Hobs.
Qed.

End Facts.

Lemma observer_receives_state_witness :
  exec (H := Demo.runtime)
    (store_dispatch (H := Demo.runtime) Demo.body_observed Demo.plain 3)
    (raw_dispatch (H := Demo.runtime) Demo.body_observed Demo.plain 3)
    (observable_subscribe Demo.body_observed (VObject Demo.observer)
       (Demo.fn 42)) Demo.store2 =
  match apply Demo.body_observed
          (fun p s =>
             exec (H := Demo.runtime)
               (store_dispatch (H := Demo.runtime) Demo.body_observed
                  Demo.plain 3)
               (raw_dispatch (H := Demo.runtime) Demo.body_observed
                  Demo.plain 3) p s)
          (get Demo.observer "next") [currentState Demo.store2]
          Demo.store2 with
  | None => None
  | Some (Throw e, s1) => Some (Throw e, s1)
  | Some (Ok _, s1) =>
      let '(r, s2) := subscribe (Demo.fn 42) s1 in Some (r, s2)
  end /\
  apply Demo.body_observed
    (fun p s =>
       exec (H := Demo.runtime)
         (store_dispatch (H := Demo.runtime) Demo.body_observed
            Demo.plain 3)
         (raw_dispatch (H := Demo.runtime) Demo.body_observed
            Demo.plain 3) p s)
    (Demo.fn 42) [] Demo.store2 =
  match apply Demo.body_observed
          (fun p s =>
             exec (H := Demo.runtime)
               (store_dispatch (H := Demo.runtime) Demo.body_observed
                  Demo.plain 3)
               (raw_dispatch (H := Demo.runtime) Demo.body_observed
                  Demo.plain 3) p s)
          (get Demo.observer "next") [currentState Demo.store2]
          Demo.store2 with
  | None => None
  | Some (Throw e, s1) => Some (Throw e, s1)
  | Some (Ok _, s1) => Some (Ok VUndefined, s1)
  end.
Proof.
  apply (observer_receives_state (H := Demo.runtime) Demo.body_observed
           (store_dispatch (H := Demo.runtime) Demo.body_observed Demo.plain 3)
           (raw_dispatch (H := Demo.runtime) Demo.body_observed Demo.plain 3)
           Demo.observer (Demo.fn 42)).
  - reflexivity.
  - reflexivity.
  - split; [reflexivity|]. intros id args [= <-]. reflexivity.
  - reflexivity.
Defined.

End ObservableFacts.

(** ** The action creator binder *)

Module BindActionCreatorsFacts.
Import JS CreateStore BindActionCreators JSFacts CreateStoreFacts.

Section Facts.
Context `{Runtime}.
Variable body : nat -> list value -> prog value.

(** The loop on an object that keeps [Object.prototype] for prototype:
    every assignment is accepted. *)
Lemma bind_each_spec (o : object) (dispatch : value -> prog value)
    (ks : list string) (props : list (string * bound)) :
  NoDup (map fst props ++ ks) ->
  (forall key, In key ks -> is_function (get o key) = true ->
               key <> "__proto__") ->
  exists props',
    bind_each body o dispatch ks None props = Ok (BoundObject None props') /\
    (forall key,
       assoc key props' =
       if existsb (String.eqb key) ks && is_function (get o key)
       then Some (bindActionCreator body (get o key) dispatch)
       else assoc key props) /\
    (NoDup (map fst props) -> NoDup (map fst props')) /\
    (key_order (map fst props) -> key_order (map fst props')) /\
    List.filter (fun k => negb (is_index k)) (map fst props') =
    List.filter (fun k => negb (is_index k)) (map fst props) ++
    List.filter (fun k => negb (is_index k))
      (List.filter (fun key => is_function (get o key)) ks).
Proof.
  revert props. induction ks as [|k ks IH]; intros props Hnd Hproto.
  - exists props. simpl. rewrite app_nil_r. repeat split; auto.
  - assert (Hk : ~ In k (map fst props)).
    { apply NoDup_app in Hnd as (_ & Hd & _). intros Hin.
      apply (Hd k); [now apply list_elem_of_In | left]. }
    assert (Hks : ~ In k ks).
    { apply NoDup_app in Hnd as (_ & _ & Hks).
      apply NoDup_cons in Hks as [Hks _].
      intros Hin. apply Hks. now apply list_elem_of_In. }
    assert (Hrest : NoDup (map fst props ++ ks)).
    { apply NoDup_app in Hnd as (Ha & Hd & Hks').
      apply NoDup_app. repeat split; [assumption | | now inversion Hks'].
      intros x Hx Hin. apply (Hd x Hx). now right. }
    assert (Hproto' : forall key, In key ks ->
              is_function (get o key) = true -> key <> "__proto__").
    { intros key Hin. apply Hproto. now right. }
    simpl. destruct (is_function (get o k)) eqn:Hfun.
    + assert (Hne : String.eqb k "__proto__" = false).
      { apply String.eqb_neq. apply Hproto; [now left | assumption]. }
      unfold assign. rewrite Hne. simpl.
      destruct (IH (set k (bindActionCreator body (get o k) dispatch) props))
        as (props' & Hrun & Hassoc & Hnd' & Hord' & Hnamed).
      { unfold set. rewrite assoc_notin by assumption.
        apply NoDup_app. repeat split.
        - apply NoDup_keys_define; [assumption|].
          now apply NoDup_app in Hnd as (Ha & _ & _).
        - intros x Hx Hin. apply list_elem_of_In in Hx.
          apply in_keys_define in Hx as [->|Hx].
          + apply Hks. now apply list_elem_of_In.
          + apply NoDup_app in Hrest as (_ & Hd & _).
            apply (Hd x); [now apply list_elem_of_In | assumption].
        - now apply NoDup_app in Hrest as (_ & _ & Hr). }
      { assumption. }
      exists props'. split; [assumption|]. split; [|split; [|split]].
      * intros key. rewrite Hassoc, assoc_set. simpl.
        rewrite (String.eqb_sym k key).
        destruct (String.eqb_spec key k) as [->|Hkey]; simpl; [|reflexivity].
        rewrite Hfun. now destruct (existsb (String.eqb k) ks).
      * intros Hp. now apply Hnd', NoDup_keys_set.
      * intros Hp. now apply Hord', key_order_set.
      * rewrite Hnamed. unfold set. rewrite assoc_notin by assumption.
        rewrite named_keys_define, <- app_assoc. f_equal.
        simpl. now destruct (is_index k).
    + destruct (IH props Hrest Hproto')
        as (props' & Hrun & Hassoc & Hnd' & Hord' & Hnamed).
      exists props'. split; [assumption|]. split; [|split; [|split]];
        try assumption.
      intros key. rewrite Hassoc. simpl.
      destruct (String.eqb_spec key k) as [->|Hkey]; simpl; [|reflexivity].
      rewrite Hfun, andb_false_r. reflexivity.
Qed.

(** When the loop meets the keys in the order the runtime lists them, each
    new property is the last one. *)
Lemma bind_each_ordered (o : object) (dispatch : value -> prog value)
    (ks : list string) (props : list (string * bound)) :
  NoDup (map fst props ++ ks) -> key_order (map fst props ++ ks) ->
  (forall key, In key ks -> is_function (get o key) = true ->
               key <> "__proto__") ->
  bind_each body o dispatch ks None props =
  Ok (BoundObject None
        (props ++
         map (fun key => (key, bindActionCreator body (get o key) dispatch))
             (List.filter (fun key => is_function (get o key)) ks))).
Proof.
  revert props. induction ks as [|k ks IH]; intros props Hnd Hord Hproto.
  - simpl. now rewrite app_nil_r.
  - assert (Hk : ~ In k (map fst props)).
    { apply NoDup_app in Hnd as (_ & Hd & _). intros Hin.
      apply (Hd k); [now apply list_elem_of_In | left]. }
    assert (Hproto' : forall key, In key ks ->
              is_function (get o key) = true -> key <> "__proto__").
    { intros key Hin. apply Hproto. now right. }
    simpl. destruct (is_function (get o k)) eqn:Hfun.
    + assert (Hne : String.eqb k "__proto__" = false).
      { apply String.eqb_neq. apply Hproto; [now left | assumption]. }
      unfold assign. rewrite Hne. simpl.
      destruct (key_order_app_last _ _ _ Hord) as [Hlast _].
      rewrite set_last by assumption.
      rewrite IH.
      * simpl. now rewrite <- app_assoc.
      * rewrite map_app. simpl. now rewrite <- app_assoc.
      * rewrite map_app. simpl. now rewrite <- app_assoc.
      * assumption.
    + apply IH; [| now apply key_order_app_drop in Hord | assumption].
      apply NoDup_app in Hnd as (Ha & Hd & Hks).
      apply NoDup_app. repeat split; [assumption | | now inversion Hks].
      intros x Hx Hin. apply (Hd x Hx). now right.
Qed.

(** Whatever the object, the loop ends with an object or with a
    [TypeError]. *)
Lemma bind_each_total (o : object) (dispatch : value -> prog value)
    (ks : list string) (proto : option bound) (props : list (string * bound)) :
  (exists b, bind_each body o dispatch ks proto props = Ok b) \/
  (exists message,
     bind_each body o dispatch ks proto props = Throw (TypeError message)).
Proof.
  revert proto props. induction ks as [|k ks IH]; intros proto props; simpl.
  - left. eauto.
  - destruct (is_function (get o k)); [|apply IH].
    unfold assign. destruct (String.eqb k "__proto__"); [apply IH|].
    destruct proto as [f|]; [|apply IH].
    destruct (assoc k props); [apply IH|].
    destruct (function_refuses k); [right; eauto | apply IH].
Qed.

(** On an object, [bindActionCreators] goes through the keys of the
    [for ... in] loop, inherited ones included.  When none of them holds a
    function under the name [__proto__], it returns an object, with
    [Object.prototype] for prototype, that has one bound function for
    every key of the loop whose value is a function and no other property:
    the other keys are left out without a word.  The properties are listed
    as the runtime lists them: the array indices first, in ascending
    order, and then the other keys in the order the loop met them.  So
    when the loop itself met the keys in that order, the properties are in
    the order of the loop. *)
Theorem bindActionCreators_object (o : object)
    (dispatch : value -> prog value) :
  obj_callable o = false -> NoDup (for_in o) ->
  (forall key, In key (for_in o) -> is_function (get o key) = true ->
               key <> "__proto__") ->
  exists props,
    bindActionCreators body (VObject o) dispatch =
    Ok (BoundObject None props) /\
    (forall key,
       assoc key props =
       if existsb (String.eqb key) (for_in o) && is_function (get o key)
       then Some (bindActionCreator body (get o key) dispatch)
       else None) /\
    NoDup (map fst props) /\
    key_order (map fst props) /\
    List.filter (fun k => negb (is_index k)) (map fst props) =
    List.filter (fun k => negb (is_index k))
      (List.filter (fun key => is_function (get o key)) (for_in o)) /\
    (key_order (for_in o) ->
     props =
     map (fun key => (key, bindActionCreator body (get o key) dispatch))
         (List.filter (fun key => is_function (get o key)) (for_in o))).
Proof.
  intros Hobj Hnd Hproto.
  destruct (bind_each_spec o dispatch (for_in o) [] Hnd Hproto)
    as (props & Hrun & Hassoc & Hnd' & Hord' & Hnamed).
  assert (Hcall : bindActionCreators body (VObject o) dispatch =
                  bind_each body o dispatch (for_in o) None []).
  { unfold bindActionCreators, is_function at 1. simpl.
    rewrite Hobj. reflexivity. }
  exists props. rewrite Hcall.
  split; [assumption|]. split; [assumption|].
  split; [apply Hnd'; constructor|].
  split; [apply Hord'; constructor|].
  split; [assumption|].
  intros Hord.
  rewrite (bind_each_ordered o dispatch (for_in o) [] Hnd Hord Hproto) in Hrun.
  now injection Hrun as <-.
Qed.

(** A bound action creator hands its arguments to the action creator and
    what that returns to [dispatch], and answers what [dispatch] answers.
    When the action creator raises, [dispatch] is not called.  For a
    function, [bindActionCreators] returns just that bound function.  For
    an object it returns an object, or raises a [TypeError] when an
    assignment to [boundActionCreators] is refused, which takes a function
    under the name [__proto__] among the keys of the loop: without one it
    returns an object.  For anything else it raises: [null], [undefined]
    and the other primitives raise an [Error] whose message names what was
    received, [null] by its own name and the rest by their [typeof]. *)
Theorem bound_creator_dispatches (pub raw : value -> store -> outcome value)
    (actionCreator : value) (dispatch : value -> prog value) :
  (forall arguments s,
     exec pub raw (bindActionCreator body actionCreator dispatch arguments) s =
     match apply body (fun p s => exec pub raw p s) actionCreator arguments s with
     | None => None
     | Some (Throw e, s1) => Some (Throw e, s1)
     | Some (Ok action, s1) => exec pub raw (dispatch action) s1
     end) /\
  (is_function actionCreator = true ->
   bindActionCreators body actionCreator dispatch =
   Ok (BoundFunction (bindActionCreator body actionCreator dispatch))) /\
  (forall o,
     (exists b, bindActionCreators body (VObject o) dispatch = Ok b) \/
     (exists message,
        bindActionCreators body (VObject o) dispatch =
        Throw (TypeError message))) /\
  (forall o,
     (forall key, In key (for_in o) -> is_function (get o key) = true ->
                  key <> "__proto__") ->
     exists b, bindActionCreators body (VObject o) dispatch = Ok b) /\
  (forall v, (forall o, v <> VObject o) ->
     exists message,
       bindActionCreators body v dispatch = Throw (Error message) /\
       String.prefix
         ("bindActionCreators expected an object or a function, instead received "
          +:+ match v with VNull => "null" | _ => typeof v end +:+ ". ")
         message = true).
Proof.
  split; [|split; [|split; [|split]]].
  - intros arguments s. unfold bindActionCreator, mbind, prog_bind.
    rewrite exec_bind, exec_call.
    destruct (apply body _ _ _ s) as [[[v|e] s1]|]; reflexivity.
  - intros Hfun. unfold bindActionCreators. now rewrite Hfun.
  - intros o. unfold bindActionCreators, is_function. simpl.
    destruct (obj_callable o); simpl; [left; eauto|].
    apply bind_each_total.
  - intros o Hproto. unfold bindActionCreators, is_function. simpl.
    destruct (obj_callable o); simpl; [eauto|].
    clear -Hproto. generalize (@nil (string * bound)) as props.
    induction (for_in o) as [|k ks IH]; intros props; simpl; [eauto|].
    destruct (is_function (get o k)) eqn:Hfun.
    + assert (Hne : String.eqb k "__proto__" = false).
      { apply String.eqb_neq. apply Hproto; [now left | assumption]. }
      unfold assign. rewrite Hne. simpl. apply IH.
      intros key Hin. apply Hproto. now right.
    + apply IH. intros key Hin. apply Hproto. now right.
  - intros v Hv.
    destruct v as [| |b|x|t|o]; try (eexists; split; reflexivity).
    now destruct (Hv o).
Qed.
End Facts.

Lemma bindActionCreators_object_witness :
  exists props,
    bindActionCreators Demo.body_creators (VObject Demo.indexed_creators)
      Demo.plain = Ok (BoundObject None props) /\
    (forall key,
       assoc key props =
       if existsb (String.eqb key) (for_in Demo.indexed_creators) &&
          is_function (get Demo.indexed_creators key)
       then Some (bindActionCreator Demo.body_creators
                    (get Demo.indexed_creators key) Demo.plain)
       else None) /\
    NoDup (map fst props) /\
    key_order (map fst props) /\
    List.filter (fun k => negb (is_index k)) (map fst props) =
    List.filter (fun k => negb (is_index k))
      (List.filter (fun key => is_function (get Demo.indexed_creators key))
                   (for_in Demo.indexed_creators)) /\
    (key_order (for_in Demo.indexed_creators) ->
     props =
     map (fun key => (key, bindActionCreator Demo.body_creators
                             (get Demo.indexed_creators key) Demo.plain))
         (List.filter (fun key => is_function (get Demo.indexed_creators key))
                      (for_in Demo.indexed_creators))).
Proof.
  apply (bindActionCreators_object Demo.body_creators Demo.indexed_creators
           Demo.plain).
  - reflexivity.
  - apply (bool_decide_unpack _). vm_compute. exact I.
  - intros key Hin _ ->. vm_compute in Hin. intuition discriminate.
Defined.

(** Own [{ 0, b }] over inherited [{ 1, z }]: the loop meets [0, b, 1, z],
    the object returned lists [0, 1, b, z]. *)
Example bound_keys_in_runtime_order :
  for_in Demo.indexed_creators = ["0"; "b"; "1"; "z"] /\
  match bindActionCreators Demo.body_creators (VObject Demo.indexed_creators)
          Demo.plain with
  | Ok (BoundObject None props) => map fst props = ["0"; "1"; "b"; "z"]
  | _ => False
  end.
Proof. vm_compute. split; reflexivity. Qed.

(** [{ ['__proto__']: add, name: reset }]: the first assignment makes the
    bound [add] the prototype of [boundActionCreators], and the second,
    to [name], is refused. *)
Example bound_name_refused :
  exists message,
    bindActionCreators Demo.body_creators (VObject Demo.proto_creators)
      Demo.plain = Throw (TypeError message).
Proof. eexists. vm_compute. reflexivity. Qed.

End BindActionCreatorsFacts.

(** ** The middleware composer *)

Module ApplyMiddlewareFacts.
Import JS ActionTypes Compose CreateStore ApplyMiddleware.

Section Facts.
Context `{Runtime}.
Variable body : nat -> list value -> prog value.
Variable handed_over : value -> value -> value -> option (result (value * store)).

(** What a caught or uncaught answer becomes when it is handed back. *)
Lemma exec_rethrow (pub raw : value -> store -> outcome value)
    (r : result value) (s : store) :
  exec pub raw (rethrow r) s = Some (r, s).
Proof. destruct r; reflexivity. Qed.

(** *** Any number of middleware *)

Lemma chain_on_map_idiomatic (api : middlewareAPI)
    (hs : list (middlewareAPI -> handler -> handler)) :
  chain_on api (map idiomatic hs) =
  Ret (map (fun h => fun next => Ret (h api next)) hs).
Proof.
  induction hs as [|h hs IH]; [reflexivity|].
  simpl. unfold mbind, prog_bind. simpl. now rewrite IH.
Qed.

Lemma composed_on_idiomatic (api : middlewareAPI) (dispatch : handler)
    (hs : list (middlewareAPI -> handler -> handler)) :
  composed_on dispatch (map (fun h => fun next => Ret (h api next)) hs) =
  Ret (fold_right (fun h next => h api next) dispatch hs).
Proof.
  unfold composed_on. induction hs as [|h hs IH]; [reflexivity|].
  simpl map. rewrite ComposeFacts.compose_cons, IH. reflexivity.
Qed.

(** What [applyMiddleware] makes of middleware written the usual way,
    once it has the fields of the store. *)
Lemma applyMiddleware_idiomatic
    (hs : list (middlewareAPI -> handler -> handler)) (fuel id : nat)
    (reducer preloadedState : value) (created : creation)
    (getState : prog value) (dispatch : handler) (s : store) :
  createStore body constructing (S fuel) id reducer preloadedState
    VUndefined VUndefined = Some (Ok created) ->
  store_fields body handed_over created = Some (Ok (getState, dispatch, s)) ->
  applyMiddleware body handed_over (map idiomatic hs) (S fuel) id
    reducer preloadedState =
  Some (Ok (s, fold_right (fun h next => h (middlewareAPI_of getState) next)
                          dispatch hs)).
Proof.
  intros Hcreate Hfields. unfold applyMiddleware.
  rewrite Hcreate, Hfields, chain_on_map_idiomatic. simpl.
  now rewrite composed_on_idiomatic.
Qed.

Lemma exec_tracing (pub raw : value -> store -> outcome value)
    (labels : list string) (action : value) (s : store) :
  exec pub raw
    (fold_right (fun m next => tracing m the_middlewareAPI next)
                store_dispatch_field labels action) s =
  raw action (fold_left (fun s m => record (Traced m) s) labels s).
Proof.
  revert s. induction labels as [|m labels IH]; intros s; simpl.
  - destruct (raw action s) as [[r s']|]; [|reflexivity].
    apply exec_rethrow.
  - apply IH.
Qed.

(** C7.  For the chain [[w1, w2]], [compose(...chain)(store.dispatch)]
    calls [w2] on the [dispatch] of the store and [w1] on what [w2]
    returned: the stages are threaded right to left, the base dispatch
    innermost.  For two middleware written [api => next => action => ...]
    and a store made by [createStore], the [dispatch] of the enhanced store
    is therefore the first one's function around the second one's around
    the raw dispatch.  And when both leave a mark and forward, a dispatch
    on the enhanced store leaves the mark of the first, then the mark of
    the second, and then is the raw dispatch of the action. *)
Theorem middleware_order :
  (forall (dispatch : handler) (w1 w2 : wrapper),
     composed_on dispatch [w1; w2] = (next ← w2 dispatch; w1 next)) /\
  (forall (h1 h2 : middlewareAPI -> handler -> handler) fuel id
          reducer preloadedState s,
     createStore body constructing (S fuel) id reducer preloadedState
       VUndefined VUndefined = Some (Ok (Created s)) ->
     applyMiddleware body handed_over [idiomatic h1; idiomatic h2] (S fuel) id
       reducer preloadedState =
     Some (Ok (s, h1 the_middlewareAPI
                    (h2 the_middlewareAPI store_dispatch_field)))) /\
  (forall (m1 m2 : string) fuel action s,
     store_dispatch body
       (tracing m1 the_middlewareAPI
          (tracing m2 the_middlewareAPI store_dispatch_field))
       (S fuel) action s =
     raw_dispatch body
       (tracing m1 the_middlewareAPI
          (tracing m2 the_middlewareAPI store_dispatch_field))
       fuel action (record (Traced m2) (record (Traced m1) s))).
Proof.
  split; [|split].
  - intros dispatch w1 w2. reflexivity.
  - intros h1 h2 fuel id reducer preloadedState s Hcreate.
    apply (applyMiddleware_idiomatic [h1; h2] fuel id reducer preloadedState
             (Created s) (GetState rethrow) store_dispatch_field s Hcreate).
    reflexivity.
  - intros m1 m2 fuel action s. unfold store_dispatch, raw_dispatch. simpl.
    destruct (dispatch _ _ _ _ _) as [[r s']|]; [|reflexivity].
    apply exec_rethrow.
Qed.

(** The order of the middleware, for any number of them.  For middleware
    written [api => next => action => ...], the [dispatch] of the enhanced
    store is the first one's function around the second one's, and so on,
    around the [dispatch] of the store that [createStore] returned: its own
    store, or the one an enhancer made when [createStore] handed over to
    it.  With no middleware it is that [dispatch] itself.  What
    [createStore] raises, [applyMiddleware] raises.  And when each leaves a
    mark and forwards, a dispatch on the enhanced store leaves the marks in
    the order of the list and then is the raw dispatch of the action. *)
Theorem middleware_chain :
  (forall (hs : list (middlewareAPI -> handler -> handler)) fuel id
          reducer preloadedState s,
     createStore body constructing (S fuel) id reducer preloadedState
       VUndefined VUndefined = Some (Ok (Created s)) ->
     applyMiddleware body handed_over (map idiomatic hs) (S fuel) id
       reducer preloadedState =
     Some (Ok (s, fold_right (fun h next => h the_middlewareAPI next)
                             store_dispatch_field hs))) /\
  (forall (hs : list (middlewareAPI -> handler -> handler)) fuel id
          reducer preloadedState enhancer reducer' preloadedState'
          store getState dispatch s,
     createStore body constructing (S fuel) id reducer preloadedState
       VUndefined VUndefined
     = Some (Ok (Enhanced enhancer reducer' preloadedState')) ->
     handed_over enhancer reducer' preloadedState' = Some (Ok (store, s)) ->
     get_value store "getState" = Ok getState ->
     get_value store "dispatch" = Ok dispatch ->
     applyMiddleware body handed_over (map idiomatic hs) (S fuel) id
       reducer preloadedState =
     Some (Ok (s, fold_right
                    (fun h next =>
                       h (middlewareAPI_of (call_function body getState []))
                         next)
                    (fun action => call_function body dispatch [action])
                    hs))) /\
  (forall (middlewares : list middleware) fuel id reducer preloadedState e,
     createStore body constructing fuel id reducer preloadedState
       VUndefined VUndefined = Some (Throw e) ->
     applyMiddleware body handed_over middlewares fuel id
       reducer preloadedState = Some (Throw e)) /\
  (forall (labels : list string) fuel action s,
     store_dispatch body
       (fold_right (fun m next => tracing m the_middlewareAPI next)
                   store_dispatch_field labels)
       (S fuel) action s =
     raw_dispatch body
       (fold_right (fun m next => tracing m the_middlewareAPI next)
                   store_dispatch_field labels)
       fuel action (fold_left (fun s m => record (Traced m) s) labels s)).
Proof.
  split; [|split; [|split]].
  - intros hs fuel id reducer preloadedState s Hcreate.
    apply (applyMiddleware_idiomatic hs fuel id reducer preloadedState
             (Created s) (GetState rethrow) store_dispatch_field s Hcreate).
    reflexivity.
  - intros hs fuel id reducer preloadedState enhancer reducer' preloadedState'
      store getState dispatch s Hcreate Hover HgetState Hdispatch.
    apply (applyMiddleware_idiomatic hs fuel id reducer preloadedState
             _ _ _ s Hcreate).
    simpl. now rewrite Hover, HgetState, Hdispatch.
  - intros middlewares fuel id reducer preloadedState e Hcreate.
    unfold applyMiddleware. now rewrite Hcreate.
  - intros labels fuel action s. unfold store_dispatch, raw_dispatch.
    simpl. apply exec_tracing.
Qed.

(** *** Dispatching while the chain is built *)

Lemma exec_chain_on_idiomatic (pub raw : value -> store -> outcome value)
    (api : middlewareAPI) (hs : list (middlewareAPI -> handler -> handler))
    (rest : list middleware) (s : store) :
  exec pub raw (chain_on api (map idiomatic hs ++ rest)) s =
  match exec pub raw (chain_on api rest) s with
  | Some (Ok ws, s1) =>
      Some (Ok (map (fun h => fun next => Ret (h api next)) hs ++ ws), s1)
  | Some (Throw e, s1) => Some (Throw e, s1)
  | None => None
  end.
Proof.
  induction hs as [|h hs IH]; simpl.
  - destruct (exec pub raw (chain_on api rest) s) as [[[ws|e] s1]|];
      reflexivity.
  - unfold mbind, prog_bind. simpl.
    rewrite CreateStoreFacts.exec_bind. unfold mbind, prog_bind in IH.
    rewrite IH.
    destruct (exec pub raw (chain_on api rest) s) as [[[ws|e] s1]|];
      reflexivity.
Qed.

(** A middleware that dispatches through the [dispatch] it is given while
    it is being set up, and does not catch what comes of it, makes
    [applyMiddleware] raise: that [dispatch] refuses to work until the
    whole chain is built.  The middleware before it in the list have been
    set up by then; the store exists, but is not returned. *)
Theorem dispatch_while_constructing
    (hs : list (middlewareAPI -> handler -> handler)) (action : value)
    (k : value -> prog wrapper) (rest : list middleware)
    (fuel id : nat) (reducer preloadedState : value) (s : store) :
  createStore body constructing (S (S fuel)) id reducer preloadedState
    VUndefined VUndefined = Some (Ok (Created s)) ->
  applyMiddleware body handed_over
    (map idiomatic hs ++ (fun api => api_dispatch api action ≫= k) :: rest)
    (S (S fuel)) id reducer preloadedState =
  Some (Throw (Error
    ("Dispatching while constructing your middleware is not allowed. " +:+
     "Other middleware would not be applied to this dispatch."))).
Proof.
  intros Hstore. unfold applyMiddleware. rewrite Hstore.
  cbn [store_fields run]. rewrite exec_chain_on_idiomatic.
  cbn [chain_on]. unfold mbind, prog_bind.
  cbn [api_dispatch middlewareAPI_of].
  rewrite !CreateStoreFacts.exec_bind. reflexivity.
Qed.

End Facts.

(** Two marking middleware on the demo counter: the journal of one
    dispatch. *)
Example middleware_order_scenario :
  match applyMiddleware (H := Demo.runtime) Demo.body Demo.handed_over
          [idiomatic (tracing "m1"); idiomatic (tracing "m2")] 3 20
          (Demo.fn 30) VUndefined with
  | Some (Ok (s, dispatch)) =>
      match store_dispatch (H := Demo.runtime) Demo.body dispatch 3
              Demo.increment s with
      | Some (Ok r, s') =>
          r = Demo.increment /\
          skipn (length (journal s)) (journal s') =
          [Traced "m1"; Traced "m2"; Reduced 1 Demo.increment]
      | _ => False
      end
  | _ => False
  end.
Proof. vm_compute. split; reflexivity. Qed.

(** The same two middleware when [createStore] is given a function for
    [preloadedState]: it hands over to that function as to an enhancer,
    and the middleware go around the [dispatch] of the store the enhancer
    made. *)
Example middleware_around_enhanced_store :
  match applyMiddleware (H := Demo.runtime) Demo.body Demo.handed_over
          [idiomatic (tracing "m1"); idiomatic (tracing "m2")] 3 20
          (Demo.fn 30) (Demo.fn 60) with
  | Some (Ok (s, dispatch)) =>
      match store_dispatch (H := Demo.runtime) Demo.body dispatch 3
              Demo.increment s with
      | Some (Ok r, s') =>
          r = Demo.increment /\
          skipn (length (journal s)) (journal s') =
          [Traced "m1"; Traced "m2"; Traced "enhanced";
           Reduced 1 Demo.increment]
      | _ => False
      end
  | _ => False
  end.
Proof. vm_compute. split; reflexivity. Qed.

Lemma dispatch_while_constructing_witness :
  applyMiddleware (H := Demo.runtime) Demo.body Demo.handed_over
    (map idiomatic [tracing "m1"] ++
     (fun api => api_dispatch api Demo.increment ≫=
                 fun _ => Ret (fun next => Ret next)) :: [])
    3 20 (Demo.fn 30) VUndefined =
  Some (Throw (Error
    ("Dispatching while constructing your middleware is not allowed. " +:+
     "Other middleware would not be applied to this dispatch."))).
Proof.
  apply (dispatch_while_constructing (H := Demo.runtime) Demo.body
           Demo.handed_over
           [tracing "m1"] Demo.increment (fun _ => Ret (fun next => Ret next))
           [] 1 20 (Demo.fn 30) VUndefined Demo.store0).
  vm_compute. reflexivity.
Defined.

End ApplyMiddlewareFacts.
